(** * Civil-time normalisation and arithmetic (cctz, civil_time_detail.h)

    A shallow embedding of [cctz::detail] over [Z].

    - [year_t] and [diff_t] ([std::int_fast64_t]) are signed 64-bit
      integers.  Every addition, subtraction and multiplication on them
      is range checked: a result outside the 64-bit range, undefined in
      the source, is the outcome [Overflow].  [/] and [%] truncate
      towards zero, they are [Z.quot] and [Z.rem]; every divisor of the
      source is a positive constant.
    - [month_t], [day_t], [hour_t], [minute_t] and [second_t] are 8-bit;
      [static_cast] to them is [cast8].  Values of type [int] (table
      entries, loop indices, differences of two 8-bit fields) stay below
      [2^18] in absolute value and are computed exactly.
    - A [for (;;)] loop is a function on fuel, [OutOfFuel] when the fuel
      is used up before the [break]; reading a constant table outside
      its bounds is [OutOfBounds].
    - [civil_time<T>] is [civil_time T], its constructor from six raw
      fields is [make], the operators are [operator_plus],
      [operator_minus], [operator_diff], [operator_lt], ...; the
      factories [civil_time::max] and [civil_time::min] are
      [civil_time_max] and [civil_time_min], and [std::is_base_of] on
      the unit tags is [is_base_of]. *)

From Stdlib Require Import ZArith Lia List Bool.
Import ListNotations.
Local Open Scope Z_scope.

(** ** Outcomes of a computation *)

Inductive error : Type :=
| Overflow      (* a signed 64-bit operation left the representable range *)
| OutOfBounds   (* a constant table was read outside its bounds *)
| OutOfFuel.    (* a [for (;;)] loop did not reach its [break] *)

Inductive result (A : Type) : Type :=
| Ok (a : A)
| Fail (e : error).
Arguments Ok {A} a.
Arguments Fail {A} e.

Definition bind {A B : Type} (r : result A) (k : A -> result B) : result B :=
  match r with
  | Ok a => k a
  | Fail e => Fail e
  end.

Notation "x <- e ;; k" := (bind e (fun x => k))
  (at level 61, e at next level, right associativity).
Notation "' p <- e ;; k" := (bind e (fun x => match x with p => k end))
  (at level 61, p pattern, e at next level, right associativity).

(** ** Machine integers *)

Definition int64_min : Z := -9223372036854775808.
Definition int64_max : Z := 9223372036854775807.

Definition fits64 (x : Z) : bool := (int64_min <=? x) && (x <=? int64_max).

Definition chk64 (x : Z) : result Z := if fits64 x then Ok x else Fail Overflow.

Definition add64 (a b : Z) : result Z := chk64 (a + b).
Definition sub64 (a b : Z) : result Z := chk64 (a - b).
Definition mul64 (a b : Z) : result Z := chk64 (a * b).
Definition neg64 (a : Z) : result Z := chk64 (- a).

(** [static_cast] to one of the 8-bit field types ([month_t], [day_t],
    [hour_t], [minute_t], [second_t]). *)
Definition cast8 (x : Z) : Z := (x + 128) mod 256 - 128.

(** Subscripting a constant table. *)
Definition index {A : Type} (tbl : list A) (i : Z) : result A :=
  if i <? 0 then Fail OutOfBounds
  else match nth_error tbl (Z.to_nat i) with
       | Some a => Ok a
       | None => Fail OutOfBounds
       end.

(** ** Fields and unit tags *)

Record fields : Type := mkfields {
  y : Z; m : Z; d : Z; hh : Z; mm : Z; ss : Z
}.

Inductive tag : Type :=
| second_tag | minute_tag | hour_tag | day_tag | month_tag | year_tag.

(** The tag structs form one inheritance chain: [struct minute_tag :
    second_tag], ..., [struct year_tag : month_tag]. *)
Definition tag_base (T : tag) : option tag :=
  match T with
  | second_tag => None
  | minute_tag => Some second_tag
  | hour_tag => Some minute_tag
  | day_tag => Some hour_tag
  | month_tag => Some day_tag
  | year_tag => Some month_tag
  end.

Definition tag_eqb (T U : tag) : bool :=
  match T, U with
  | second_tag, second_tag | minute_tag, minute_tag | hour_tag, hour_tag
  | day_tag, day_tag | month_tag, month_tag | year_tag, year_tag => true
  | _, _ => false
  end.

(** [std::is_base_of<B, D>::value]: [D] is [B] or derives from it. *)
Fixpoint is_base_of_from (fuel : nat) (B D : tag) : bool :=
  tag_eqb B D ||
  match fuel, tag_base D with
  | S fuel, Some P => is_base_of_from fuel B P
  | _, _ => false
  end.

Definition is_base_of (B D : tag) : bool := is_base_of_from 5 B D.

(** ** Field normalisation *)

Module impl.

Definition is_leap_year (y : Z) : bool :=
  (Z.rem y 4 =? 0) && (negb (Z.rem y 100 =? 0) || (Z.rem y 400 =? 0)).

Definition year_index (y m : Z) : result Z :=
  t <- add64 y (Z.b2z (2 <? m)) ;;
  let yi := Z.rem t 400 in
  Ok (if yi <? 0 then yi + 400 else yi).

Definition days_per_century (yi : Z) : Z :=
  36524 + Z.b2z ((yi =? 0) || (300 <? yi)).

Definition days_per_4years (yi : Z) : Z :=
  1460 + Z.b2z ((yi =? 0) || (300 <? yi) || (Z.rem (yi - 1) 100 <? 96)).

Definition days_per_year (y m : Z) : result Z :=
  t <- add64 y (Z.b2z (2 <? m)) ;;
  Ok (if is_leap_year t then 366 else 365).

Definition k_days_per_month : list Z :=
  [-1; 31; 28; 31; 30; 31; 30; 31; 31; 30; 31; 30; 31].

Definition days_per_month (y m : Z) : result Z :=
  n <- index k_days_per_month m ;;
  Ok (n + Z.b2z ((m =? 2) && is_leap_year y)).

(** [n_day], lines 125-167: whole 400-year cycles are taken out of [cd]
    and [d], their years go to the accumulator [ey], and the day count
    left is made positive. *)
Definition n_day_cycles (y m d cd : Z) : result (Z * Z) :=
  let ey := Z.rem y 400 in
  t <- mul64 (cd ÷ 146097) 400 ;;
  ey <- add64 ey t ;;
  let cd := Z.rem cd 146097 in
  '(ey, cd) <- (if cd <? 0 then
                  ey <- sub64 ey 400 ;;
                  cd <- add64 cd 146097 ;;
                  Ok (ey, cd)
                else Ok (ey, cd)) ;;
  t <- mul64 (d ÷ 146097) 400 ;;
  ey <- add64 ey t ;;
  d <- add64 (Z.rem d 146097) cd ;;
  if 0 <? d then
    if 146097 <? d then
      ey <- add64 ey 400 ;;
      d <- sub64 d 146097 ;;
      Ok (ey, d)
    else Ok (ey, d)
  else
    if -365 <? d then
      ey <- sub64 ey 1 ;;
      n <- days_per_year ey m ;;
      d <- add64 d n ;;
      Ok (ey, d)
    else
      ey <- sub64 ey 400 ;;
      d <- add64 d 146097 ;;
      Ok (ey, d).

(** The [for (;;)] loops of [n_day].  [fuel] bounds the number of times
    a loop body runs past its [break]. *)

Fixpoint centuries_loop (fuel : nat) (d ey yi : Z) : result (Z * Z * Z) :=
  let n := days_per_century yi in
  if d <=? n then Ok (d, ey, yi)
  else match fuel with
       | O => Fail OutOfFuel
       | S fuel =>
           d <- sub64 d n ;;
           ey <- add64 ey 100 ;;
           let yi := yi + 100 in
           let yi := if 400 <=? yi then yi - 400 else yi in
           centuries_loop fuel d ey yi
       end.

Fixpoint four_years_loop (fuel : nat) (d ey yi : Z) : result (Z * Z * Z) :=
  let n := days_per_4years yi in
  if d <=? n then Ok (d, ey, yi)
  else match fuel with
       | O => Fail OutOfFuel
       | S fuel =>
           d <- sub64 d n ;;
           ey <- add64 ey 4 ;;
           let yi := yi + 4 in
           let yi := if 400 <=? yi then yi - 400 else yi in
           four_years_loop fuel d ey yi
       end.

Fixpoint years_loop (fuel : nat) (m d ey : Z) : result (Z * Z) :=
  n <- days_per_year ey m ;;
  if d <=? n then Ok (d, ey)
  else match fuel with
       | O => Fail OutOfFuel
       | S fuel =>
           d <- sub64 d n ;;
           ey <- add64 ey 1 ;;
           years_loop fuel m d ey
       end.

Fixpoint months_loop (fuel : nat) (m d ey : Z) : result (Z * Z * Z) :=
  n <- days_per_month ey m ;;
  if d <=? n then Ok (m, d, ey)
  else match fuel with
       | O => Fail OutOfFuel
       | S fuel =>
           d <- sub64 d n ;;
           let m := cast8 (m + 1) in
           if 12 <? m then
             ey <- add64 ey 1 ;;
             months_loop fuel 1 d ey
           else months_loop fuel m d ey
       end.

(** [n_day], lines 169-210 and 212-227, the loops given [fc], [f4], [f1]
    and [fm] units of fuel. *)
Definition n_day_years (fc f4 f1 : nat) (m ey d : Z) : result (Z * Z) :=
  if 365 <? d then
    yi <- year_index ey m ;;
    '(d, ey, yi) <- centuries_loop fc d ey yi ;;
    '(d, ey, yi) <- four_years_loop f4 d ey yi ;;
    '(d, ey) <- years_loop f1 m d ey ;;
    Ok (ey, d)
  else Ok (ey, d).

Definition n_day_months (fm : nat) (m ey d : Z) : result (Z * Z * Z) :=
  if 28 <? d then months_loop fm m d ey
  else Ok (m, d, ey).

(** Every pass through a loop body takes at least 28 days off the
    positive day count: the day count at the entry of a loop is fuel
    enough for it. *)
Definition n_day (y m d cd hh mm ss : Z) : result fields :=
  let oey := Z.rem y 400 in
  '(ey, d) <- n_day_cycles y m d cd ;;
  let fuel := Z.to_nat d in
  '(ey, d) <- n_day_years fuel fuel fuel m ey d ;;
  '(m, d, ey) <- n_day_months (Z.to_nat d) m ey d ;;
  t <- sub64 ey oey ;;
  y <- add64 y t ;;
  Ok (mkfields y m (cast8 d) hh mm ss).

Definition n_mon (y m d cd hh mm ss : Z) : result fields :=
  '(y, m) <- (if negb (m =? 12) then
                y <- add64 y (m ÷ 12) ;;
                let m := Z.rem m 12 in
                if m <=? 0 then
                  y <- sub64 y 1 ;;
                  m <- add64 m 12 ;;
                  Ok (y, m)
                else Ok (y, m)
              else Ok (y, m)) ;;
  n_day y (cast8 m) d cd hh mm ss.

Definition n_hour (y m d cd hh mm ss : Z) : result fields :=
  cd <- add64 cd (hh ÷ 24) ;;
  let hh := Z.rem hh 24 in
  '(cd, hh) <- (if hh <? 0 then
                  cd <- sub64 cd 1 ;;
                  hh <- add64 hh 24 ;;
                  Ok (cd, hh)
                else Ok (cd, hh)) ;;
  n_mon y m d cd (cast8 hh) mm ss.

Definition n_min (y m d hh ch mm ss : Z) : result fields :=
  ch <- add64 ch (mm ÷ 60) ;;
  let mm := Z.rem mm 60 in
  '(ch, mm) <- (if mm <? 0 then
                  ch <- sub64 ch 1 ;;
                  mm <- add64 mm 60 ;;
                  Ok (ch, mm)
                else Ok (ch, mm)) ;;
  cd <- add64 (hh ÷ 24) (ch ÷ 24) ;;
  hh <- add64 (Z.rem hh 24) (Z.rem ch 24) ;;
  n_hour y m d cd hh (cast8 mm) ss.

Definition n_sec (y m d hh mm ss : Z) : result fields :=
  if (0 <=? ss) && (ss <? 60) then
    let nss := cast8 ss in
    if (0 <=? mm) && (mm <? 60) then
      let nmm := cast8 mm in
      if (0 <=? hh) && (hh <? 24) then
        let nhh := cast8 hh in
        if (1 <=? d) && (d <=? 28) && (1 <=? m) && (m <=? 12) then
          let nd := cast8 d in
          let nm := cast8 m in
          Ok (mkfields y nm nd nhh nmm nss)
        else n_mon y m d 0 nhh nmm nss
      else n_hour y m d (hh ÷ 24) (Z.rem hh 24) nmm nss
    else n_min y m d hh (mm ÷ 60) (Z.rem mm 60) nss
  else
    let cm := ss ÷ 60 in
    let ss := Z.rem ss 60 in
    '(cm, ss) <- (if ss <? 0 then
                    cm <- sub64 cm 1 ;;
                    ss <- add64 ss 60 ;;
                    Ok (cm, ss)
                  else Ok (cm, ss)) ;;
    ch <- add64 (mm ÷ 60) (cm ÷ 60) ;;
    mm <- add64 (Z.rem mm 60) (Z.rem cm 60) ;;
    n_min y m d hh ch mm (cast8 ss).

(** Returns [v * f + a], avoiding intermediate overflow when possible. *)
Definition scale_add (v f a : Z) : result Z :=
  if v <? 0 then
    t <- add64 v 1 ;; t <- mul64 t f ;; t <- add64 t a ;; sub64 t f
  else
    t <- sub64 v 1 ;; t <- mul64 t f ;; t <- add64 t a ;; add64 t f.

(** Maps a normalised Y/M/D to the number of days before/after 1970-01-01. *)
Definition ymd_ord (y m d : Z) : result Z :=
  eyear <- (if m <=? 2 then sub64 y 1 else Ok y) ;;
  t <- (if 0 <=? eyear then Ok eyear else sub64 eyear 399) ;;
  let era := t ÷ 400 in
  t <- mul64 era 400 ;;
  yoe <- sub64 eyear t ;;
  let doy := (153 * (m + (if 2 <? m then -3 else 9)) + 2) ÷ 5 + d - 1 in
  t <- mul64 yoe 365 ;;
  t <- add64 t (yoe ÷ 4) ;;
  t <- sub64 t (yoe ÷ 100) ;;
  doe <- add64 t doy ;;
  t <- mul64 era 146097 ;;
  t <- add64 t doe ;;
  sub64 t 719468.

(** Difference in days between two normalised Y-M-D tuples. *)
Definition day_difference (y1 m1 d1 y2 m2 d2 : Z) : result Z :=
  let a_c4_off := Z.rem y1 400 in
  let b_c4_off := Z.rem y2 400 in
  t1 <- sub64 y1 a_c4_off ;;
  t2 <- sub64 y2 b_c4_off ;;
  c4_diff <- sub64 t1 t2 ;;
  o1 <- ymd_ord a_c4_off m1 d1 ;;
  o2 <- ymd_ord b_c4_off m2 d2 ;;
  delta <- sub64 o1 o2 ;;
  '(c4_diff, delta) <-
    (if (0 <? c4_diff) && (delta <? 0) then
       delta <- add64 delta (2 * 146097) ;;
       c4_diff <- sub64 c4_diff (2 * 400) ;;
       Ok (c4_diff, delta)
     else if (c4_diff <? 0) && (0 <? delta) then
       delta <- sub64 delta (2 * 146097) ;;
       c4_diff <- add64 c4_diff (2 * 400) ;;
       Ok (c4_diff, delta)
     else Ok (c4_diff, delta)) ;;
  t <- mul64 (c4_diff ÷ 400) 146097 ;;
  add64 t delta.

End impl.

(** ** Stepping, differences and alignment *)

(** Increments the indicated (normalised) field by [n]. *)
Definition step (T : tag) (f : fields) (n : Z) : result fields :=
  match T with
  | second_tag =>
      mm' <- add64 (mm f) (n ÷ 60) ;;
      ss' <- add64 (ss f) (Z.rem n 60) ;;
      impl.n_sec (y f) (m f) (d f) (hh f) mm' ss'
  | minute_tag =>
      hh' <- add64 (hh f) (n ÷ 60) ;;
      mm' <- add64 (mm f) (Z.rem n 60) ;;
      impl.n_min (y f) (m f) (d f) hh' 0 mm' (ss f)
  | hour_tag =>
      d' <- add64 (d f) (n ÷ 24) ;;
      hh' <- add64 (hh f) (Z.rem n 24) ;;
      impl.n_hour (y f) (m f) d' 0 hh' (mm f) (ss f)
  | day_tag =>
      impl.n_day (y f) (m f) (d f) n (hh f) (mm f) (ss f)
  | month_tag =>
      y' <- add64 (y f) (n ÷ 12) ;;
      m' <- add64 (m f) (Z.rem n 12) ;;
      impl.n_mon y' m' (d f) 0 (hh f) (mm f) (ss f)
  | year_tag =>
      y' <- add64 (y f) n ;;
      Ok (mkfields y' (m f) (d f) (hh f) (mm f) (ss f))
  end.

(** Difference between two fields structs using the indicated unit. *)
Definition difference_year (f1 f2 : fields) : result Z :=
  sub64 (y f1) (y f2).
Definition difference_month (f1 f2 : fields) : result Z :=
  v <- difference_year f1 f2 ;; impl.scale_add v 12 (m f1 - m f2).
Definition difference_day (f1 f2 : fields) : result Z :=
  impl.day_difference (y f1) (m f1) (d f1) (y f2) (m f2) (d f2).
Definition difference_hour (f1 f2 : fields) : result Z :=
  v <- difference_day f1 f2 ;; impl.scale_add v 24 (hh f1 - hh f2).
Definition difference_minute (f1 f2 : fields) : result Z :=
  v <- difference_hour f1 f2 ;; impl.scale_add v 60 (mm f1 - mm f2).
Definition difference_second (f1 f2 : fields) : result Z :=
  v <- difference_minute f1 f2 ;; impl.scale_add v 60 (ss f1 - ss f2).

Definition difference (T : tag) (f1 f2 : fields) : result Z :=
  match T with
  | year_tag => difference_year f1 f2
  | month_tag => difference_month f1 f2
  | day_tag => difference_day f1 f2
  | hour_tag => difference_hour f1 f2
  | minute_tag => difference_minute f1 f2
  | second_tag => difference_second f1 f2
  end.

(** Aligns the (normalised) fields struct to the indicated field. *)
Definition align (T : tag) (f : fields) : fields :=
  match T with
  | second_tag => f
  | minute_tag => mkfields (y f) (m f) (d f) (hh f) (mm f) 0
  | hour_tag => mkfields (y f) (m f) (d f) (hh f) 0 0
  | day_tag => mkfields (y f) (m f) (d f) 0 0 0
  | month_tag => mkfields (y f) (m f) 1 0 0 0
  | year_tag => mkfields (y f) 1 1 0 0 0
  end.

(** ** The civil-time value type *)

Record civil_time (T : tag) : Type := mk_civil_time { f_ : fields }.
Arguments mk_civil_time T f_ : clear implicits.
Arguments f_ {T} c.

(** The designated constructor that all others eventually call. *)
Definition of_fields (T : tag) (f : fields) : civil_time T :=
  mk_civil_time T (align T f).

(** [civil_time(y, m, d, hh, mm, ss)]; the omitted trailing arguments of
    the source default to [1], [1], [0], [0], [0]. *)
Definition make (T : tag) (y m d hh mm ss : Z) : result (civil_time T) :=
  f <- impl.n_sec y m d hh mm ss ;;
  Ok (of_fields T f).

(** [civil_time()]. *)
Definition default (T : tag) : civil_time T :=
  mk_civil_time T (mkfields 1970 1 1 0 0 0).

(** Conversion between civil times of different alignment. *)
Definition convert {U : tag} (T : tag) (ct : civil_time U) : civil_time T :=
  of_fields T (f_ ct).

(** [preserves_data<T, U>] of the implicit converting constructor of
    [civil_time<T>] from [civil_time<U>]: the conversion is implicit
    when [T] is a base of [U], and explicit otherwise. *)
Definition preserves_data (T U : tag) : bool := is_base_of T U.

(** Factories for the maximum/minimum representable civil_time. *)
Definition civil_time_max (T : tag) : result (civil_time T) :=
  let max_year := int64_max in
  make T max_year 12 31 23 59 59.

Definition civil_time_min (T : tag) : result (civil_time T) :=
  let min_year := int64_min in
  make T min_year 1 1 0 0 0.

Definition year {T} (c : civil_time T) : Z := y (f_ c).
Definition month {T} (c : civil_time T) : Z := m (f_ c).
Definition day {T} (c : civil_time T) : Z := d (f_ c).
Definition hour {T} (c : civil_time T) : Z := hh (f_ c).
Definition minute {T} (c : civil_time T) : Z := mm (f_ c).
Definition second {T} (c : civil_time T) : Z := ss (f_ c).

(** [a + n] *)
Definition operator_plus {T} (a : civil_time T) (n : Z) : result (civil_time T) :=
  f <- step T (f_ a) n ;;
  Ok (of_fields T f).

(** [a - n] *)
Definition operator_minus {T} (a : civil_time T) (n : Z) : result (civil_time T) :=
  if negb (n =? int64_min) then
    k <- neg64 n ;;
    f <- step T (f_ a) k ;;
    Ok (of_fields T f)
  else
    k <- add64 n 1 ;;
    k <- neg64 k ;;
    f <- step T (f_ a) k ;;
    f <- step T f 1 ;;
    Ok (of_fields T f).

(** [++a] and [--a] *)
Definition operator_incr {T} (a : civil_time T) : result (civil_time T) :=
  operator_plus a 1.
Definition operator_decr {T} (a : civil_time T) : result (civil_time T) :=
  operator_minus a 1.

(** [lhs - rhs], both of the same alignment. *)
Definition operator_diff {T} (lhs rhs : civil_time T) : result Z :=
  difference T (f_ lhs) (f_ rhs).

(** Relational operators; they always compare all six fields. *)
Definition operator_lt {T1 T2} (lhs : civil_time T1) (rhs : civil_time T2) : bool :=
  (year lhs <? year rhs) ||
  ((year lhs =? year rhs) &&
   ((month lhs <? month rhs) ||
    ((month lhs =? month rhs) &&
     ((day lhs <? day rhs) ||
      ((day lhs =? day rhs) &&
       ((hour lhs <? hour rhs) ||
        ((hour lhs =? hour rhs) &&
         ((minute lhs <? minute rhs) ||
          ((minute lhs =? minute rhs) &&
           (second lhs <? second rhs)))))))))).

Definition operator_le {T1 T2} (lhs : civil_time T1) (rhs : civil_time T2) : bool :=
  negb (operator_lt rhs lhs).

Definition operator_ge {T1 T2} (lhs : civil_time T1) (rhs : civil_time T2) : bool :=
  negb (operator_lt lhs rhs).

Definition operator_gt {T1 T2} (lhs : civil_time T1) (rhs : civil_time T2) : bool :=
  operator_lt rhs lhs.

Definition operator_eq {T1 T2} (lhs : civil_time T1) (rhs : civil_time T2) : bool :=
  (year lhs =? year rhs) && (month lhs =? month rhs) &&
  (day lhs =? day rhs) && (hour lhs =? hour rhs) &&
  (minute lhs =? minute rhs) && (second lhs =? second rhs).

Definition operator_ne {T1 T2} (lhs : civil_time T1) (rhs : civil_time T2) : bool :=
  negb (operator_eq lhs rhs).

(** ** Weekdays *)

Inductive weekday : Type :=
| monday | tuesday | wednesday | thursday | friday | saturday | sunday.

Definition weekday_eqb (a b : weekday) : bool :=
  match a, b with
  | monday, monday | tuesday, tuesday | wednesday, wednesday
  | thursday, thursday | friday, friday | saturday, saturday
  | sunday, sunday => true
  | _, _ => false
  end.

Definition k_weekday_by_mon_off : list weekday :=
  [monday; tuesday; wednesday; thursday; friday; saturday; sunday;
   monday; tuesday; wednesday; thursday; friday; saturday].

Definition k_weekday_offsets : list Z :=
  [-1; 0; 3; 2; 5; 0; 3; 5; 1; 4; 6; 2; 4].

Definition get_weekday (cs : civil_time second_tag) : result weekday :=
  t <- add64 2400 (Z.rem (year cs) 400) ;;
  wd <- sub64 t (Z.b2z (month cs <? 3)) ;;
  t <- sub64 (wd ÷ 4) (wd ÷ 100) ;;
  t <- add64 t (wd ÷ 400) ;;
  wd <- add64 wd t ;;
  o <- index k_weekday_offsets (month cs) ;;
  wd <- add64 wd (o + day cs) ;;
  i <- add64 (Z.rem wd 7) 6 ;;
  index k_weekday_by_mon_off i.

Definition k_weekdays_forw : list weekday :=
  [monday; tuesday; wednesday; thursday; friday; saturday; sunday;
   monday; tuesday; wednesday; thursday; friday; saturday; sunday].

Definition k_weekdays_back : list weekday :=
  [sunday; saturday; friday; thursday; wednesday; tuesday; monday;
   sunday; saturday; friday; thursday; wednesday; tuesday; monday].

(** [for (int i = start;; ++i) if (w == tbl[i]) ...]: the first slot at
    or after [i] that holds [w]. *)
Fixpoint scan_weekdays (fuel : nat) (tbl : list weekday) (w : weekday) (i : Z)
  : result Z :=
  x <- index tbl i ;;
  if weekday_eqb w x then Ok i
  else match fuel with
       | O => Fail OutOfFuel
       | S fuel => scan_weekdays fuel tbl w (i + 1)
       end.

Definition next_weekday (cd : civil_time day_tag) (wd : weekday)
  : result (civil_time day_tag) :=
  base <- get_weekday (convert second_tag cd) ;;
  i <- scan_weekdays 14 k_weekdays_forw base 0 ;;
  j <- scan_weekdays 14 k_weekdays_forw wd (i + 1) ;;
  operator_plus cd (j - i).

Definition prev_weekday (cd : civil_time day_tag) (wd : weekday)
  : result (civil_time day_tag) :=
  base <- get_weekday (convert second_tag cd) ;;
  i <- scan_weekdays 14 k_weekdays_back base 0 ;;
  j <- scan_weekdays 14 k_weekdays_back wd (i + 1) ;;
  operator_minus cd (j - i).

(** ** Day of the year *)

Definition k_month_offsets : list Z :=
  [-1; 0; 31; 59; 90; 120; 151; 181; 212; 243; 273; 304; 334].

Definition get_yearday (cs : civil_time second_tag) : result Z :=
  let feb29 := Z.b2z ((2 <? month cs) && impl.is_leap_year (year cs)) in
  o <- index k_month_offsets (month cs) ;;
  Ok (o + feb29 + day cs).


(** * Specification *)

Import impl.

(** ** Representable values and valid civil times *)

Definition in64 (x : Z) : Prop := int64_min <= x <= int64_max.

(** Normalised fields: [1 <= m <= 12], [1 <= d <= days_per_month y m],
    [0 <= hh <= 23], [0 <= mm <= 59], [0 <= ss <= 59]. *)
Definition normalizedb (f : fields) : bool :=
  (1 <=? m f) && (m f <=? 12) &&
  (1 <=? d f) &&
  match days_per_month (y f) (m f) with
  | Ok n => d f <=? n
  | Fail _ => false
  end &&
  (0 <=? hh f) && (hh f <=? 23) &&
  (0 <=? mm f) && (mm f <=? 59) &&
  (0 <=? ss f) && (ss f <=? 59).

Definition fields_eqb (f g : fields) : bool :=
  (y f =? y g) && (m f =? m g) && (d f =? d g) &&
  (hh f =? hh g) && (mm f =? mm g) && (ss f =? ss g).

(** The invariant of [civil_time<T>]: the fields are normalised and
    aligned to [T], and the year is a 64-bit value. *)
Definition validb {T : tag} (c : civil_time T) : bool :=
  normalizedb (f_ c) && fields_eqb (align T (f_ c)) (f_ c) && fits64 (year c).

Definition valid {T : tag} (c : civil_time T) : Prop := validb c = true.

(** A computation that yields a valid value unless a year overflows. *)
Definition valid_or_overflow {T : tag} (r : result (civil_time T)) : Prop :=
  r = Fail Overflow \/ exists c, r = Ok c /\ valid c.

(** The fields finer than the unit read as zero. *)
Definition finer_fields_zero {T : tag} (c : civil_time T) : Prop :=
  match T with
  | second_tag => True
  | minute_tag => second c = 0
  | hour_tag => minute c = 0 /\ second c = 0
  | day_tag => hour c = 0 /\ minute c = 0 /\ second c = 0
  | month_tag => day c = 0 /\ hour c = 0 /\ minute c = 0 /\ second c = 0
  | year_tag =>
      month c = 0 /\ day c = 0 /\ hour c = 0 /\ minute c = 0 /\ second c = 0
  end.

(** The fields finer than the unit read as their least normalised value. *)
Definition finer_fields_minimal {T : tag} (c : civil_time T) : Prop :=
  match T with
  | second_tag => True
  | minute_tag => second c = 0
  | hour_tag => minute c = 0 /\ second c = 0
  | day_tag => hour c = 0 /\ minute c = 0 /\ second c = 0
  | month_tag => day c = 1 /\ hour c = 0 /\ minute c = 0 /\ second c = 0
  | year_tag =>
      month c = 1 /\ day c = 1 /\ hour c = 0 /\ minute c = 0 /\ second c = 0
  end.

(** ** Day counts in exact arithmetic *)

(** [ymd_ord] and [day_difference] with every operation taken over the
    integers, without range checks. *)
Definition ymd_ord_exact (y m d : Z) : Z :=
  let eyear := if m <=? 2 then y - 1 else y in
  let era := (if 0 <=? eyear then eyear else eyear - 399) ÷ 400 in
  let yoe := eyear - era * 400 in
  let doy := (153 * (m + (if 2 <? m then -3 else 9)) + 2) ÷ 5 + d - 1 in
  let doe := yoe * 365 + yoe ÷ 4 - yoe ÷ 100 + doy in
  era * 146097 + doe - 719468.

Definition day_difference_exact (y1 m1 d1 y2 m2 d2 : Z) : Z :=
  let a_c4_off := Z.rem y1 400 in
  let b_c4_off := Z.rem y2 400 in
  let c4_diff := (y1 - a_c4_off) - (y2 - b_c4_off) in
  let delta := ymd_ord_exact a_c4_off m1 d1 - ymd_ord_exact b_c4_off m2 d2 in
  let '(c4_diff, delta) :=
    if (0 <? c4_diff) && (delta <? 0) then
      (c4_diff - 2 * 400, delta + 2 * 146097)
    else if (c4_diff <? 0) && (0 <? delta) then
      (c4_diff + 2 * 400, delta - 2 * 146097)
    else (c4_diff, delta) in
  (c4_diff ÷ 400 * 146097) + delta.

(** The same day count with floor divisions: [leaps e] counts the leap
    days up to the March-based year [e]. *)
Definition leaps (e : Z) : Z := e / 4 - e / 100 + e / 400.
Definition doy_off (m : Z) : Z :=
  (153 * (m + (if 2 <? m then -3 else 9)) + 2) ÷ 5.
Definition eyear_of (y m : Z) : Z := if m <=? 2 then y - 1 else y.
Definition day_number (y m d : Z) : Z :=
  let e := eyear_of y m in 365 * e + leaps e + doy_off m + d - 719469.

(** Position of year [y], seen from month [m], in the 400-year cycle. *)
Definition yidx (y m : Z) : Z := (y + Z.b2z (2 <? m)) mod 400.

Definition year_days (ey m : Z) : Z :=
  if is_leap_year (ey + Z.b2z (2 <? m)) then 366 else 365.

Definition month_days (y m : Z) : Z :=
  match m with
  | 2 => if is_leap_year y then 29 else 28
  | 4 | 6 | 9 | 11 => 30
  | _ => 31
  end.

(** Months counted from year 0: month [m] of year [y] has index
    [12 * y + (m - 1)]. *)
Definition month_index (y m : Z) : Z := 12 * y + (m - 1).
Definition month_start (i : Z) : Z := day_number (i / 12) (i mod 12 + 1) 0.
Definition month_len (i : Z) : Z := month_days (i / 12) (i mod 12 + 1).

Definition valid_date (y m d : Z) : Prop :=
  1 <= m <= 12 /\ 1 <= d <= month_days y m.

Definition canonical (f : fields) : Prop :=
  valid_date (y f) (m f) (d f) /\
  0 <= hh f <= 23 /\ 0 <= mm f <= 59 /\ 0 <= ss f <= 59.

Definition aligned (T : tag) (f : fields) : Prop := align T f = f.

(** ** Linear counts *)

Definition days (f : fields) : Z := day_number (y f) (m f) (d f).
Definition clock (hh mm ss : Z) : Z := (hh * 60 + mm) * 60 + ss.
Definition secs (f : fields) : Z :=
  days f * 86400 + clock (hh f) (mm f) (ss f).

(** The number of units of [T] from the epoch to [f]. *)
Definition count (T : tag) (f : fields) : Z :=
  match T with
  | second_tag => ((days f * 24 + hh f) * 60 + mm f) * 60 + ss f
  | minute_tag => (days f * 24 + hh f) * 60 + mm f
  | hour_tag => days f * 24 + hh f
  | day_tag => days f
  | month_tag => 12 * y f + (m f - 1)
  | year_tag => y f
  end.

(** The outcome of a normalisation whose exact result is [f]. *)
Definition ret64 (f : fields) : result fields :=
  if fits64 (y f) then Ok f else Fail Overflow.

(** Bounds on the working values of [n_day] and of the clock carries. *)
Definition small (x : Z) : Prop := - 2 ^ 62 <= x <= 2 ^ 62.
Definition acc_ok (ey : Z) : Prop := - 2 ^ 58 <= ey <= 2 ^ 58.

(** ** Weekdays and units as counts *)

(** The weekday of the day with day number [n]; day 0, 1970-01-01, is a
    Thursday. *)
Definition weekday_of_index (i : Z) : weekday :=
  match i with
  | 0 => monday | 1 => tuesday | 2 => wednesday | 3 => thursday
  | 4 => friday | 5 => saturday | _ => sunday
  end.

Definition weekday_index (w : weekday) : Z :=
  match w with
  | monday => 0 | tuesday => 1 | wednesday => 2 | thursday => 3
  | friday => 4 | saturday => 5 | sunday => 6
  end.

Definition day_weekday (n : Z) : weekday := weekday_of_index ((n + 3) mod 7).

(** The weekday [n] days after (before, for a negative [n]) a day that
    falls on [w]. *)
Definition weekday_shift (w : weekday) (n : Z) : weekday :=
  weekday_of_index ((weekday_index w + n) mod 7).

(** The number of units of [U] in one unit of [T], for the pairs of
    units where that number is fixed. *)
Definition units_per (T U : tag) : option Z :=
  match T, U with
  | second_tag, second_tag | minute_tag, minute_tag | hour_tag, hour_tag
  | day_tag, day_tag | month_tag, month_tag | year_tag, year_tag => Some 1
  | minute_tag, second_tag => Some 60
  | hour_tag, minute_tag => Some 60
  | hour_tag, second_tag => Some 3600
  | day_tag, hour_tag => Some 24
  | day_tag, minute_tag => Some 1440
  | day_tag, second_tag => Some 86400
  | year_tag, month_tag => Some 12
  | _, _ => None
  end.

(** The sum of [days_per_year (y + i) m] over [i < k], and of
    [days_per_month y m] over the twelve months. *)
Fixpoint sum_days_per_year (k : nat) (y m : Z) : result Z :=
  match k with
  | O => Ok 0
  | S k =>
      n <- days_per_year y m ;;
      r <- sum_days_per_year k (y + 1) m ;;
      Ok (n + r)
  end.

Definition sum_days_per_month (y : Z) : result Z :=
  fold_right (fun m acc => n <- days_per_month y m ;; r <- acc ;; Ok (n + r))
    (Ok 0) [1; 2; 3; 4; 5; 6; 7; 8; 9; 10; 11; 12].

(** ** Auxiliary notions of the further properties *)

(** A computation whose only failure is a 64-bit overflow. *)
Definition only_overflow {A} (r : result A) : Prop :=
  forall e, r = Fail e -> e = Overflow.

(** The fields passed to the constructor by [civil_time::max] and
    [civil_time::min]. *)
Definition top_fields : fields := mkfields int64_max 12 31 23 59 59.
Definition bottom_fields : fields := mkfields int64_min 1 1 0 0 0.

(** The day after the day of [f], in a month of [n] days. *)
Definition next_day_fields (f : fields) (n : Z) : fields :=
  if d f <? n then mkfields (y f) (m f) (d f + 1) 0 0 0
  else if m f <? 12 then mkfields (y f) (m f + 1) 1 0 0 0
  else mkfields (y f + 1) 1 1 0 0 0.

(** * Proofs *)

Ltac Zify.zify_post_hook ::= Z.to_euclidean_division_equations.

(** ** Checked arithmetic *)

Ltac range := unfold in64, int64_min, int64_max in *; lia.
Ltac small := unfold small, acc_ok, in64, int64_min, int64_max in *; lia.

Lemma fits64_true x : in64 x -> fits64 x = true.
Proof.
  unfold in64, fits64. intros. apply andb_true_intro; split; apply Z.leb_le; lia.
Qed.

Lemma fits64_in64 x : fits64 x = true -> in64 x.
Proof.
  unfold in64, fits64. intros H. apply andb_prop in H. destruct H as [H1 H2].
  apply Z.leb_le in H1, H2. lia.
Qed.

Lemma fits64_false x : fits64 x = false -> ~ in64 x.
Proof. intros H I. apply fits64_true in I. congruence. Qed.

Lemma chk64_ok x : in64 x -> chk64 x = Ok x.
Proof. intros H. unfold chk64. now rewrite fits64_true. Qed.

Lemma chk64_inv x r : chk64 x = Ok r -> r = x /\ in64 x.
Proof.
  unfold chk64. destruct (fits64 x) eqn:E; [|discriminate]. intros [= <-].
  split; [reflexivity | now apply fits64_in64].
Qed.

Lemma add64_ok a b : in64 (a + b) -> add64 a b = Ok (a + b).
Proof. apply chk64_ok. Qed.

Lemma sub64_ok a b : in64 (a - b) -> sub64 a b = Ok (a - b).
Proof. apply chk64_ok. Qed.

Lemma mul64_ok a b : in64 (a * b) -> mul64 a b = Ok (a * b).
Proof. apply chk64_ok. Qed.

Lemma neg64_ok a : in64 (- a) -> neg64 a = Ok (- a).
Proof. apply chk64_ok. Qed.

Lemma cast8_id x : -128 <= x <= 127 -> cast8 x = x.
Proof. intros. unfold cast8. lia. Qed.

Lemma bind_ok {A B} (a : A) (k : A -> result B) : bind (Ok a) k = k a.
Proof. reflexivity. Qed.

Lemma bind_inv {A B} (r : result A) (k : A -> result B) b :
  bind r k = Ok b -> exists a, r = Ok a /\ k a = Ok b.
Proof. destruct r; cbn; [eauto | discriminate]. Qed.

(** Inversion of a run of checked operations that ended in [Ok]. *)
Ltac inv_chk H :=
  unfold add64, sub64, mul64, neg64 in H;
  repeat (cbn [bind] in H;
    match type of H with
    | context [if ?c then _ else _] => destruct c eqn:?
    | context [chk64 ?x] =>
        let F := fresh "F" in
        unfold chk64 in H at 1; destruct (fits64 x) eqn:F; cbn [bind] in H;
        [apply fits64_in64 in F | discriminate H]
    end).

Lemma ret64_ok f : in64 (y f) -> ret64 f = Ok f.
Proof. intros H. unfold ret64. now rewrite fits64_true. Qed.

Lemma ret64_inv f g : ret64 f = Ok g -> g = f /\ in64 (y f).
Proof.
  unfold ret64. destruct (fits64 (y f)) eqn:E; [|discriminate].
  intros [= <-]. split; [reflexivity | now apply fits64_in64].
Qed.

Lemma ret64_fail f : ~ in64 (y f) -> ret64 f = Fail Overflow.
Proof.
  intros H. unfold ret64. destruct (fits64 (y f)) eqn:F; [|reflexivity].
  now apply fits64_in64 in F.
Qed.

(** ** Calendar arithmetic *)

Ltac month_cases m :=
  let H := fresh "Hm" in
  assert (H : m = 1 \/ m = 2 \/ m = 3 \/ m = 4 \/ m = 5 \/ m = 6 \/
              m = 7 \/ m = 8 \/ m = 9 \/ m = 10 \/ m = 11 \/ m = 12) by lia;
  repeat (destruct H as [H | H]); subst m.

Ltac calc :=
  cbn -[Z.mul Z.sub Z.opp Z.div Z.modulo Z.quot Z.rem leaps is_leap_year].

Lemma leap_mod y :
  is_leap_year y =
  ((y mod 4 =? 0) && (negb (y mod 100 =? 0) || (y mod 400 =? 0))).
Proof.
  unfold is_leap_year.
  assert (H4 : (Z.rem y 4 =? 0) = (y mod 4 =? 0))
    by (apply Bool.eq_true_iff_eq; rewrite !Z.eqb_eq; lia).
  assert (H100 : (Z.rem y 100 =? 0) = (y mod 100 =? 0))
    by (apply Bool.eq_true_iff_eq; rewrite !Z.eqb_eq; lia).
  assert (H400 : (Z.rem y 400 =? 0) = (y mod 400 =? 0))
    by (apply Bool.eq_true_iff_eq; rewrite !Z.eqb_eq; lia).
  now rewrite H4, H100, H400.
Qed.

Lemma ord_floor y m d : ymd_ord_exact y m d = day_number y m d.
Proof.
  unfold ymd_ord_exact, day_number, doy_off, eyear_of, leaps.
  generalize ((153 * (m + (if 2 <? m then -3 else 9)) + 2) ÷ 5). intros k.
  generalize (if m <=? 2 then y - 1 else y). intros e.
  destruct (Z.leb_spec 0 e); lia.
Qed.

Lemma leaps_succ e : leaps (e + 1) = leaps e + Z.b2z (is_leap_year (e + 1)).
Proof.
  unfold leaps. rewrite leap_mod.
  destruct (Z.eqb_spec ((e+1) mod 4) 0);
  destruct (Z.eqb_spec ((e+1) mod 100) 0);
  destruct (Z.eqb_spec ((e+1) mod 400) 0);
  cbn [Z.b2z orb andb negb]; lia.
Qed.

Lemma leaps_400 e k : leaps (e + 400 * k) = leaps e + 97 * k.
Proof. unfold leaps. lia. Qed.

Lemma leaps_100 e : leaps (e + 100) = leaps e + 24 + Z.b2z (300 <=? e mod 400).
Proof.
  unfold leaps. destruct (Z.leb_spec 300 (e mod 400));
  cbn [Z.b2z orb andb negb]; lia.
Qed.

Lemma leaps_4 e :
  leaps (e + 4) =
  leaps e + 1 - Z.b2z ((96 <=? e mod 100) && (e mod 400 <? 396)).
Proof.
  unfold leaps. destruct (Z.leb_spec 96 (e mod 100));
  destruct (Z.ltb_spec (e mod 400) 396); cbn [Z.b2z orb andb negb]; lia.
Qed.

Lemma leaps_mono e1 e2 : e1 <= e2 -> leaps e1 <= leaps e2.
Proof. unfold leaps. lia. Qed.

Lemma day_number_d y m d : day_number y m d = day_number y m 0 + d.
Proof. unfold day_number. lia. Qed.

Lemma eyear_of_add y m k : eyear_of (y + k) m = eyear_of y m + k.
Proof. unfold eyear_of. destruct (m <=? 2); lia. Qed.

Lemma eyear_of_succ y m : eyear_of y m + 1 = y + Z.b2z (2 <? m).
Proof.
  unfold eyear_of. destruct (Z.leb_spec m 2); destruct (Z.ltb_spec 2 m);
  cbn [Z.b2z orb andb negb]; lia.
Qed.

Lemma day_number_400 y m d k : day_number (y + 400 * k) m d = day_number y m d + 146097 * k.
Proof. unfold day_number. rewrite eyear_of_add, leaps_400. lia. Qed.

Lemma day_number_shift a b m d : (a - b) mod 400 = 0 ->
  day_number a m d = day_number b m d + 146097 * ((a - b) / 400).
Proof.
  intros H. rewrite <- day_number_400. f_equal. lia.
Qed.

Lemma day_number_year y m d :
  day_number (y + 1) m d =
  day_number y m d + (if is_leap_year (y + Z.b2z (2 <? m)) then 366 else 365).
Proof.
  unfold day_number. rewrite <- eyear_of_succ, eyear_of_add, leaps_succ.
  destruct (is_leap_year _); cbn [Z.b2z]; lia.
Qed.

Lemma day_number_century y m d :
  day_number (y + 100) m d = day_number y m d + days_per_century (yidx y m).
Proof.
  unfold day_number, days_per_century, yidx. rewrite eyear_of_add, leaps_100, <- eyear_of_succ.
  generalize (eyear_of y m); intros e.
  destruct (Z.leb_spec 300 (e mod 400));
  destruct (Z.eqb_spec ((e + 1) mod 400) 0);
  destruct (Z.ltb_spec 300 ((e + 1) mod 400));
  cbn [Z.b2z orb andb negb]; lia.
Qed.

Lemma day_number_4years y m d :
  day_number (y + 4) m d = day_number y m d + days_per_4years (yidx y m).
Proof.
  unfold day_number, days_per_4years, yidx. rewrite eyear_of_add, leaps_4, <- eyear_of_succ.
  generalize (eyear_of y m); intros e.
  destruct (Z.leb_spec 96 (e mod 100)); destruct (Z.ltb_spec (e mod 400) 396);
  destruct (Z.eqb_spec ((e + 1) mod 400) 0); destruct (Z.ltb_spec 300 ((e + 1) mod 400));
  destruct (Z.ltb_spec (Z.rem ((e + 1) mod 400 - 1) 100) 96); cbn [Z.b2z orb andb negb]; lia.
Qed.

Lemma day_number_400y ey m : day_number (ey + 400) m 0 - day_number ey m 0 = 146097.
Proof. rewrite (day_number_shift (ey + 400) ey) by lia. lia. Qed.

Lemma is_leap_year_400 a b : (a - b) mod 400 = 0 -> is_leap_year a = is_leap_year b.
Proof.
  intros H. rewrite !leap_mod.
  replace (a mod 4) with (b mod 4) by lia.
  replace (a mod 100) with (b mod 100) by lia.
  replace (a mod 400) with (b mod 400) by lia. reflexivity.
Qed.

Lemma month_days_400 a b m : (a - b) mod 400 = 0 -> month_days a m = month_days b m.
Proof. intros H. unfold month_days. now rewrite (is_leap_year_400 a b). Qed.

Lemma doy_off_bounds m0 : 1 <= m0 <= 12 -> 0 <= doy_off m0 <= 337.
Proof. intros H. unfold doy_off. destruct (Z.ltb_spec 2 m0); lia. Qed.

(** Months, and the order of valid dates *)

Lemma month_days_ok y m : 1 <= m <= 12 -> days_per_month y m = Ok (month_days y m).
Proof.
  intros H. month_cases m; try reflexivity.
  unfold days_per_month, month_days. cbn. now destruct (is_leap_year y).
Qed.

Lemma month_days_bounds y m : 1 <= m <= 12 -> 28 <= month_days y m <= 31.
Proof.
  intros H. unfold month_days. month_cases m; try lia.
  destruct (is_leap_year y); lia.
Qed.

Lemma day_number_month y m : 1 <= m <= 11 ->
  day_number y (m + 1) 0 = day_number y m 0 + month_days y m.
Proof.
  intros H. unfold day_number, eyear_of, doy_off, month_days.
  month_cases m; try lia; calc; try lia.
  pose proof (leaps_succ (y - 1)) as L. replace (y - 1 + 1) with y in L by lia.
  destruct (is_leap_year y); cbn [Z.b2z] in L; lia.
Qed.

Lemma day_number_december y :
  day_number (y + 1) 1 0 = day_number y 12 0 + month_days y 12.
Proof.
  unfold day_number, eyear_of, doy_off, month_days. calc.
  replace (y + 1 - 1) with y by lia. lia.
Qed.

Lemma month_start_succ i : month_start (i + 1) = month_start i + month_len i.
Proof.
  unfold month_start, month_len.
  destruct (Z.eq_dec (i mod 12) 11) as [E | E].
  - replace ((i + 1) / 12) with (i / 12 + 1) by lia.
    replace ((i + 1) mod 12) with 0 by lia.
    rewrite E. apply day_number_december.
  - replace ((i + 1) / 12) with (i / 12) by lia.
    replace ((i + 1) mod 12 + 1) with (i mod 12 + 1 + 1) by lia.
    apply day_number_month. lia.
Qed.

Lemma month_len_bounds i : 28 <= month_len i <= 31.
Proof. apply month_days_bounds. lia. Qed.

Lemma month_start_mono_nat (n : nat) i :
  month_start i + month_len i <= month_start (i + 1 + Z.of_nat n).
Proof.
  induction n as [|n IH].
  - rewrite Z.add_0_r, month_start_succ. lia.
  - replace (i + 1 + Z.of_nat (S n)) with (i + 1 + Z.of_nat n + 1) by lia.
    rewrite month_start_succ. pose proof (month_len_bounds (i + 1 + Z.of_nat n)). lia.
Qed.

Lemma month_start_mono i j : i < j -> month_start i + month_len i <= month_start j.
Proof.
  intros H. replace j with (i + 1 + Z.of_nat (Z.to_nat (j - i - 1))) by lia.
  apply month_start_mono_nat.
Qed.

Lemma month_index_div y m : 1 <= m <= 12 -> month_index y m / 12 = y.
Proof. unfold month_index. lia. Qed.

Lemma month_index_mod y m : 1 <= m <= 12 -> month_index y m mod 12 + 1 = m.
Proof. unfold month_index. lia. Qed.

Lemma month_start_index y m : 1 <= m <= 12 -> month_start (month_index y m) = day_number y m 0.
Proof. intros H. unfold month_start. now rewrite month_index_div, month_index_mod. Qed.

Lemma month_len_index y m : 1 <= m <= 12 -> month_len (month_index y m) = month_days y m.
Proof. intros H. unfold month_len. now rewrite month_index_div, month_index_mod. Qed.

Lemma year_days_months ey m : 1 <= m <= 12 ->
  month_start (month_index ey m + 12) - month_start (month_index ey m) = year_days ey m.
Proof.
  intros Hm.
  replace (month_index ey m + 12) with (month_index (ey + 1) m)
    by (unfold month_index; lia).
  rewrite !month_start_index by assumption. rewrite day_number_year. fold (year_days ey m). lia.
Qed.

(** Valid dates are ordered as their day numbers. *)
Lemma valid_date_unique y1 m1 d1 y2 m2 d2 :
  valid_date y1 m1 d1 -> valid_date y2 m2 d2 ->
  day_number y1 m1 d1 = day_number y2 m2 d2 ->
  y1 = y2 /\ m1 = m2 /\ d1 = d2.
Proof.
  intros [Hm1 Hd1] [Hm2 Hd2] E.
  rewrite (day_number_d y1), (day_number_d y2) in E.
  rewrite <- (month_start_index y1 m1), <- (month_start_index y2 m2) in E by assumption.
  rewrite <- (month_len_index y1 m1) in Hd1 by assumption.
  rewrite <- (month_len_index y2 m2) in Hd2 by assumption.
  assert (I : month_index y1 m1 = month_index y2 m2).
  { destruct (Z.lt_total (month_index y1 m1) (month_index y2 m2)) as [L | [L | L]]; [|assumption|].
    - pose proof (month_start_mono _ _ L). lia.
    - pose proof (month_start_mono _ _ L). lia. }
  rewrite I in E. unfold month_index in I. lia.
Qed.

Lemma day_number_lt y1 m1 d1 y2 m2 d2 :
  valid_date y1 m1 d1 -> valid_date y2 m2 d2 ->
  (day_number y1 m1 d1 < day_number y2 m2 d2 <->
   y1 < y2 \/ (y1 = y2 /\ (m1 < m2 \/ (m1 = m2 /\ d1 < d2)))).
Proof.
  intros [Hm1 Hd1] [Hm2 Hd2].
  rewrite (day_number_d y1), (day_number_d y2).
  rewrite <- (month_start_index y1 m1), <- (month_start_index y2 m2) by assumption.
  rewrite <- (month_len_index y1 m1) in Hd1 by assumption.
  rewrite <- (month_len_index y2 m2) in Hd2 by assumption.
  destruct (Z.lt_total (month_index y1 m1) (month_index y2 m2)) as [L | [L | L]].
  - pose proof (month_start_mono _ _ L). unfold month_index in L. lia.
  - rewrite L. unfold month_index in L. lia.
  - pose proof (month_start_mono _ _ L). unfold month_index in L. lia.
Qed.

(** A date [k] days away is at most [(|d0 + k| + 1100) / 365] years
    away. *)
Lemma year_distance Y M D y0 m0 d0 k :
  valid_date Y M D -> 1 <= m0 <= 12 ->
  day_number Y M D = day_number y0 m0 d0 + k ->
  365 * (Y - y0) <= Z.abs (d0 + k) + 1100 /\ 365 * (y0 - Y) <= Z.abs (d0 + k) + 1100.
Proof.
  intros [HM HD] Hm E. pose proof (month_days_bounds Y M HM).
  pose proof (doy_off_bounds M HM). pose proof (doy_off_bounds m0 Hm).
  unfold day_number in E.
  assert (Y - 1 <= eyear_of Y M <= Y) by (unfold eyear_of; destruct (M <=? 2); lia).
  assert (y0 - 1 <= eyear_of y0 m0 <= y0) by (unfold eyear_of; destruct (m0 <=? 2); lia).
  destruct (Z.le_ge_cases (eyear_of Y M) (eyear_of y0 m0)) as [L | L].
  - pose proof (leaps_mono _ _ L). lia.
  - pose proof (leaps_mono _ _ L). lia.
Qed.

(** Day numbers of the years within one cycle of year 0. *)
Lemma day_number_small a m0 d0 :
  -400 < a < 400 -> 1 <= m0 <= 12 -> 1 <= d0 <= 31 ->
  -145790 <= day_number a m0 d0 + 719469 <= 146037.
Proof.
  intros Ha Hm Hd. unfold day_number, eyear_of, doy_off, leaps.
  destruct (Z.leb_spec m0 2); destruct (Z.ltb_spec 2 m0); lia.
Qed.

(** ** The loops of [n_day] *)

(** Each loop keeps the day number of [(ey, m, d)] and stays below a
    horizon: when the day count is at most the length of the [r + 1]
    chunks that follow [ey], at most [r] chunks are taken off before the
    [break].  The horizon is four centuries for the century loop, a
    century for the 4-year loop, four years for the year loop and a year
    for the month loop. *)

Lemma days_per_year_ok ey m : small ey ->
  days_per_year ey m = Ok (if is_leap_year (ey + Z.b2z (2 <? m)) then 366 else 365).
Proof.
  intros H. unfold days_per_year. rewrite add64_ok; [reflexivity|].
  destruct (2 <? m); cbn [Z.b2z]; small.
Qed.

Lemma year_index_ok ey m : small ey -> year_index ey m = Ok (yidx ey m).
Proof.
  intros H. unfold year_index, yidx. rewrite add64_ok.
  - cbn [bind]. f_equal. destruct (Z.ltb_spec (Z.rem (ey + Z.b2z (2 <? m)) 400) 0); lia.
  - destruct (2 <? m); cbn [Z.b2z]; small.
Qed.

Lemma yidx_century ey m :
  (if 400 <=? yidx ey m + 100 then yidx ey m + 100 - 400 else yidx ey m + 100) =
  yidx (ey + 100) m.
Proof. unfold yidx. destruct (Z.leb_spec 400 ((ey + Z.b2z (2 <? m)) mod 400 + 100)); lia. Qed.

Lemma yidx_4years ey m :
  (if 400 <=? yidx ey m + 4 then yidx ey m + 4 - 400 else yidx ey m + 4) = yidx (ey + 4) m.
Proof. unfold yidx. destruct (Z.leb_spec 400 ((ey + Z.b2z (2 <? m)) mod 400 + 4)); lia. Qed.

Lemma days_per_century_pos yi : 36524 <= days_per_century yi <= 36525.
Proof. unfold days_per_century. destruct (_ || _); cbn [Z.b2z]; lia. Qed.

Lemma days_per_4years_pos yi : 1460 <= days_per_4years yi <= 1461.
Proof. unfold days_per_4years. destruct (_ || _); cbn [Z.b2z]; lia. Qed.

Lemma year_days_pos ey m : 365 <= year_days ey m <= 366.
Proof. unfold year_days. destruct (is_leap_year _); lia. Qed.

Lemma centuries_loop_break d ey yi k :
  d <= days_per_century yi -> centuries_loop k d ey yi = Ok (d, ey, yi).
Proof.
  intros H. destruct k; cbn [centuries_loop];
  destruct (Z.leb_spec d (days_per_century yi)); try reflexivity; lia.
Qed.

Lemma centuries_loop_spec (r : nat) : forall d ey m,
  small (ey - 400) -> small (ey + 100 * Z.of_nat r) ->
  0 < d <= day_number (ey + 100 * (Z.of_nat r + 1)) m 0 - day_number ey m 0 ->
  d <= 2 ^ 62 ->
  exists d' ey',
    (forall fuel, (r <= fuel)%nat ->
       centuries_loop fuel d ey (yidx ey m) = Ok (d', ey', yidx ey' m)) /\
    day_number ey' m d' = day_number ey m d /\
    0 < d' <= day_number (ey' + 100) m 0 - day_number ey' m 0 /\
    ey <= ey' <= ey + 100 * Z.of_nat r.
Proof.
  induction r as [|r IH]; intros d ey m Hlo Hhi Hd Hdmax.
  - exists d, ey. replace (ey + 100 * (Z.of_nat 0 + 1)) with (ey + 100) in Hd by lia.
    repeat split; try lia. intros fuel _. apply centuries_loop_break.
    rewrite day_number_century in Hd. lia.
  - pose proof (days_per_century_pos (yidx ey m)) as Hn.
    destruct (Z.leb_spec d (days_per_century (yidx ey m))) as [Le | Gt].
    + exists d, ey. rewrite day_number_century. repeat split; try lia.
      intros fuel _. now apply centuries_loop_break.
    + destruct (IH (d - days_per_century (yidx ey m)) (ey + 100) m)
        as (d' & ey' & E & Hn' & Hd'' & Hey); [small | small | | lia |].
      { rewrite (day_number_century ey m 0).
        replace (ey + 100 + 100 * (Z.of_nat r + 1))
          with (ey + 100 * (Z.of_nat (S r) + 1)) by lia. lia. }
      exists d', ey'. repeat split; try lia.
      * intros [|fuel] Hf; [lia|]. cbn [centuries_loop].
        destruct (Z.leb_spec d (days_per_century (yidx ey m))); [lia|].
        rewrite sub64_ok, bind_ok by small. rewrite add64_ok, bind_ok by small.
        rewrite yidx_century. apply E. lia.
      * rewrite Hn', (day_number_d (ey + 100)), day_number_century, (day_number_d ey m d). lia.
Qed.

Lemma four_years_loop_break d ey yi k :
  d <= days_per_4years yi -> four_years_loop k d ey yi = Ok (d, ey, yi).
Proof.
  intros H. destruct k; cbn [four_years_loop];
  destruct (Z.leb_spec d (days_per_4years yi)); try reflexivity; lia.
Qed.

Lemma four_years_loop_spec (r : nat) : forall d ey m,
  small (ey - 400) -> small (ey + 4 * Z.of_nat r) ->
  0 < d <= day_number (ey + 4 * (Z.of_nat r + 1)) m 0 - day_number ey m 0 ->
  d <= 2 ^ 62 ->
  exists d' ey',
    (forall fuel, (r <= fuel)%nat ->
       four_years_loop fuel d ey (yidx ey m) = Ok (d', ey', yidx ey' m)) /\
    day_number ey' m d' = day_number ey m d /\
    0 < d' <= day_number (ey' + 4) m 0 - day_number ey' m 0 /\
    ey <= ey' <= ey + 4 * Z.of_nat r.
Proof.
  induction r as [|r IH]; intros d ey m Hlo Hhi Hd Hdmax.
  - exists d, ey. replace (ey + 4 * (Z.of_nat 0 + 1)) with (ey + 4) in Hd by lia.
    repeat split; try lia. intros fuel _. apply four_years_loop_break.
    rewrite day_number_4years in Hd. lia.
  - pose proof (days_per_4years_pos (yidx ey m)) as Hn.
    destruct (Z.leb_spec d (days_per_4years (yidx ey m))) as [Le | Gt].
    + exists d, ey. rewrite day_number_4years. repeat split; try lia.
      intros fuel _. now apply four_years_loop_break.
    + destruct (IH (d - days_per_4years (yidx ey m)) (ey + 4) m)
        as (d' & ey' & E & Hn' & Hd'' & Hey); [small | small | | lia |].
      { rewrite (day_number_4years ey m 0).
        replace (ey + 4 + 4 * (Z.of_nat r + 1))
          with (ey + 4 * (Z.of_nat (S r) + 1)) by lia. lia. }
      exists d', ey'. repeat split; try lia.
      * intros [|fuel] Hf; [lia|]. cbn [four_years_loop].
        destruct (Z.leb_spec d (days_per_4years (yidx ey m))); [lia|].
        rewrite sub64_ok, bind_ok by small. rewrite add64_ok, bind_ok by small.
        rewrite yidx_4years. apply E. lia.
      * rewrite Hn', (day_number_d (ey + 4)), day_number_4years, (day_number_d ey m d). lia.
Qed.

Lemma years_loop_break m d ey k : small ey ->
  d <= year_days ey m -> years_loop k m d ey = Ok (d, ey).
Proof.
  intros Hs H. destruct k; cbn [years_loop]; rewrite days_per_year_ok, bind_ok by assumption;
  fold (year_days ey m); destruct (Z.leb_spec d (year_days ey m)); try reflexivity; lia.
Qed.

Lemma years_loop_spec (r : nat) : forall d ey m,
  small (ey - 400) -> small (ey + Z.of_nat r) ->
  0 < d <= day_number (ey + (Z.of_nat r + 1)) m 0 - day_number ey m 0 ->
  d <= 2 ^ 62 ->
  exists d' ey',
    (forall fuel, (r <= fuel)%nat -> years_loop fuel m d ey = Ok (d', ey')) /\
    day_number ey' m d' = day_number ey m d /\
    0 < d' <= year_days ey' m /\
    ey <= ey' <= ey + Z.of_nat r.
Proof.
  induction r as [|r IH]; intros d ey m Hlo Hhi Hd Hdmax.
  - exists d, ey. replace (ey + (Z.of_nat 0 + 1)) with (ey + 1) in Hd by lia.
    rewrite day_number_year in Hd. fold (year_days ey m) in Hd.
    repeat split; try lia. intros fuel _. apply years_loop_break; [small | lia].
  - pose proof (year_days_pos ey m) as Hn.
    destruct (Z.leb_spec d (year_days ey m)) as [Le | Gt].
    + exists d, ey. repeat split; try lia.
      intros fuel _. apply years_loop_break; [small | lia].
    + destruct (IH (d - year_days ey m) (ey + 1) m)
        as (d' & ey' & E & Hn' & Hd'' & Hey); [small | small | | lia |].
      { rewrite (day_number_year ey m 0). fold (year_days ey m).
        replace (ey + 1 + (Z.of_nat r + 1))
          with (ey + (Z.of_nat (S r) + 1)) by lia. lia. }
      exists d', ey'. repeat split; try lia.
      * intros [|fuel] Hf; [lia|]. cbn [years_loop].
        rewrite days_per_year_ok, bind_ok by small. fold (year_days ey m).
        destruct (Z.leb_spec d (year_days ey m)); [lia|].
        rewrite sub64_ok, bind_ok by small. rewrite add64_ok, bind_ok by small.
        apply E. lia.
      * rewrite Hn', (day_number_d (ey + 1)), day_number_year, (day_number_d ey m d).
        fold (year_days ey m). lia.
Qed.

Lemma months_loop_break m d ey k : 1 <= m <= 12 ->
  d <= month_days ey m -> months_loop k m d ey = Ok (m, d, ey).
Proof.
  intros Hm H. destruct k; cbn [months_loop]; rewrite month_days_ok, bind_ok by assumption;
  destruct (Z.leb_spec d (month_days ey m)); try reflexivity; lia.
Qed.

Lemma months_loop_spec (r : nat) : forall d ey m,
  1 <= m <= 12 -> small (ey - 400) -> small (ey + Z.of_nat r) ->
  0 < d <= month_start (month_index ey m + (Z.of_nat r + 1))
           - month_start (month_index ey m) ->
  d <= 2 ^ 62 ->
  exists m' d' ey',
    (forall fuel, (r <= fuel)%nat -> months_loop fuel m d ey = Ok (m', d', ey')) /\
    day_number ey' m' d' = day_number ey m d /\
    valid_date ey' m' d' /\
    ey <= ey' <= ey + Z.of_nat r.
Proof.
  induction r as [|r IH]; intros d ey m Hm Hlo Hhi Hd Hdmax.
  - exists m, d, ey.
    replace (month_index ey m + (Z.of_nat 0 + 1))
      with (month_index ey m + 1) in Hd by lia.
    rewrite month_start_succ, month_len_index in Hd by assumption.
    repeat split; try lia. intros fuel _. apply months_loop_break; [assumption | lia].
  - pose proof (month_days_bounds ey m Hm) as Hn.
    destruct (Z.leb_spec d (month_days ey m)) as [Le | Gt].
    + exists m, d, ey. repeat split; try lia.
      intros fuel _. apply months_loop_break; [assumption | lia].
    + set (ey1 := if m =? 12 then ey + 1 else ey).
      set (m1 := if m =? 12 then 1 else m + 1).
      assert (Hi : month_index ey1 m1 = month_index ey m + 1).
      { unfold month_index, ey1, m1. destruct (Z.eqb_spec m 12); lia. }
      assert (Hm1 : 1 <= m1 <= 12) by (unfold m1; destruct (Z.eqb_spec m 12); lia).
      assert (Hn1 : day_number ey1 m1 0 = day_number ey m 0 + month_days ey m).
      { rewrite <- (month_start_index ey1 m1), Hi, month_start_succ,
          month_len_index, month_start_index by assumption.
        reflexivity. }
      destruct (IH (d - month_days ey m) ey1 m1)
        as (m' & d' & ey' & E & Hn' & Hd'' & Hey);
        [assumption | unfold ey1; destruct (m =? 12); small
         | unfold ey1; destruct (m =? 12); small | | lia |].
      { rewrite Hi, month_start_succ, month_len_index by assumption.
        replace (month_index ey m + 1 + (Z.of_nat r + 1))
          with (month_index ey m + (Z.of_nat (S r) + 1)) by lia. lia. }
      exists m', d', ey'. repeat split; try (unfold ey1 in Hey; destruct (m =? 12); lia).
      * intros [|fuel] Hf; [lia|]. cbn [months_loop].
        rewrite month_days_ok, bind_ok by assumption.
        destruct (Z.leb_spec d (month_days ey m)); [lia|].
        rewrite sub64_ok, bind_ok by small. rewrite cast8_id by lia.
        specialize (E fuel ltac:(lia)). unfold ey1, m1 in E.
        destruct (Z.ltb_spec 12 (m + 1)); destruct (Z.eqb_spec m 12); try lia.
        -- rewrite add64_ok, bind_ok by small. exact E.
        -- exact E.
      * rewrite Hn', (day_number_d ey1), Hn1, (day_number_d ey m d). lia.
      * apply Hd''.
      * apply Hd''.
      * apply Hd''.
      * apply Hd''.
Qed.

(** ** [n_day] *)

(** The first block leaves a day count in [(0, 146097]] and the day
    number of the input, up to the whole cycles of the original year. *)
Lemma n_day_cycles_spec y m d cd :
  in64 y -> in64 d -> in64 cd -> 1 <= m <= 12 ->
  exists ey d',
    n_day_cycles y m d cd = Ok (ey, d') /\
    acc_ok ey /\
    0 < d' <= 146097 /\
    (-365 < Z.rem d 146097 + (cd mod 146097) <= 0 -> d' <= year_days ey m) /\
    day_number ey m d' = day_number (Z.rem y 400) m d + cd.
Proof.
  intros Hy Hd Hcd Hm. unfold n_day_cycles.
  rewrite mul64_ok, bind_ok by range. rewrite add64_ok, bind_ok by range.
  set (e1 := Z.rem y 400 + cd ÷ 146097 * 400).
  assert (exists e2 c2, (if Z.rem cd 146097 <? 0
            then ey <- sub64 e1 400;; cd0 <- add64 (Z.rem cd 146097) 146097;; Ok (ey, cd0)
            else Ok (e1, Z.rem cd 146097)) = Ok (e2, c2) /\ c2 = cd mod 146097 /\
            e2 = Z.rem y 400 + 400 * (cd / 146097)) as (e2 & c2 & -> & Hc2 & He2).
  { destruct (Z.ltb_spec (Z.rem cd 146097) 0).
    - rewrite sub64_ok, bind_ok by (unfold e1; range). rewrite add64_ok, bind_ok by range.
      eexists _, _. split; [reflexivity|]. unfold e1. lia.
    - eexists _, _. split; [reflexivity|]. unfold e1. lia. }
  rewrite bind_ok. clearbody e1. clear e1.
  rewrite mul64_ok, bind_ok by range. rewrite add64_ok, bind_ok by range.
  rewrite add64_ok, bind_ok by range.
  rewrite <- Hc2.
  set (e3 := e2 + d ÷ 146097 * 400). set (d1 := Z.rem d 146097 + c2).
  assert (He3 : day_number e3 m d1 = day_number (Z.rem y 400) m d + cd).
  { rewrite (day_number_shift e3 (Z.rem y 400)) by (unfold e3; lia).
    rewrite (day_number_d _ _ d1), (day_number_d _ _ d). unfold e3, d1. lia. }
  assert (Hb3 : - 2 ^ 57 <= e3 <= 2 ^ 57) by (unfold e3; range).
  assert (Hd1 : -146097 < d1 < 2 * 146097) by (unfold d1; lia).
  clearbody e3 d1.
  destruct (Z.ltb_spec 0 d1); [destruct (Z.ltb_spec 146097 d1) | destruct (Z.ltb_spec (-365) d1)].
  - rewrite add64_ok, bind_ok by range. rewrite sub64_ok, bind_ok by range.
    eexists _, _. split; [reflexivity|]. unfold acc_ok. repeat split; try lia.
    rewrite (day_number_shift (e3 + 400) e3) by lia.
    rewrite (day_number_d _ _ (d1 - 146097)), (day_number_d _ _ d1) in *. lia.
  - eexists _, _. split; [reflexivity|]. unfold acc_ok. repeat split; try lia.
  - rewrite sub64_ok, bind_ok by range. rewrite days_per_year_ok, bind_ok by small.
    fold (year_days (e3 - 1) m). pose proof (year_days_pos (e3 - 1) m).
    rewrite add64_ok, bind_ok by range.
    eexists _, _. split; [reflexivity|]. unfold acc_ok. repeat split; try lia.
    rewrite <- He3. rewrite (day_number_d _ _ (d1 + _)), (day_number_d _ _ d1).
    pose proof (day_number_year (e3 - 1) m 0) as Hy1. fold (year_days (e3 - 1) m) in Hy1.
    replace (e3 - 1 + 1) with e3 in Hy1 by lia. lia.
  - rewrite sub64_ok, bind_ok by range. rewrite add64_ok, bind_ok by range.
    eexists _, _. split; [reflexivity|]. unfold acc_ok. repeat split; try lia.
    rewrite (day_number_shift (e3 - 400) e3) by lia.
    rewrite (day_number_d _ _ (d1 + 146097)), (day_number_d _ _ d1) in *. lia.
Qed.

Lemma n_day_years_spec m ey d :
  1 <= m <= 12 -> acc_ok ey -> 0 < d <= 146097 ->
  exists ey' d',
    (forall fc f4 f1, d <= 365 \/ ((3 <= fc)%nat /\ (24 <= f4)%nat /\ (3 <= f1)%nat) ->
       n_day_years fc f4 f1 m ey d = Ok (ey', d')) /\
    ey <= ey' <= ey + 400 /\
    0 < d' <= year_days ey' m /\
    day_number ey' m d' = day_number ey m d.
Proof.
  intros Hm He Hd. unfold n_day_years.
  pose proof (year_days_pos ey m) as Hyd.
  destruct (Z.ltb_spec 365 d) as [Gt | Le].
  2:{ exists ey, d. unfold acc_ok in *. repeat split; try lia; try reflexivity. }
  assert (Hfuel : forall fc f4 f1 : nat,
    d <= 365 \/ ((3 <= fc)%nat /\ (24 <= f4)%nat /\ (3 <= f1)%nat) ->
    (3 <= fc)%nat /\ (24 <= f4)%nat /\ (3 <= f1)%nat) by (intros; lia).
  destruct (centuries_loop_spec 3 d ey m) as (d1 & e1 & E1 & N1 & D1 & B1);
    [unfold acc_ok in *; small | unfold acc_ok in *; small | | lia |].
  { replace (ey + 100 * (Z.of_nat 3 + 1)) with (ey + 400) by lia. rewrite day_number_400y. lia. }
  destruct (four_years_loop_spec 24 d1 e1 m) as (d2 & e2 & E2 & N2 & D2 & B2);
    [small | small |
     | pose proof (day_number_century e1 m 0);
       pose proof (days_per_century_pos (yidx e1 m)); lia |].
  { replace (e1 + 4 * (Z.of_nat 24 + 1)) with (e1 + 100) by lia. lia. }
  destruct (years_loop_spec 3 d2 e2 m) as (d3 & e3 & E3 & N3 & D3 & B3);
    [small | small |
     | pose proof (day_number_4years e2 m 0);
       pose proof (days_per_4years_pos (yidx e2 m)); lia |].
  { replace (e2 + (Z.of_nat 3 + 1)) with (e2 + 4) by lia. lia. }
  exists e3, d3. unfold acc_ok in *. repeat split; try lia; try congruence.
  intros fc f4 f1 Hf. destruct (Hfuel _ _ _ Hf) as (Hc & H4 & H1).
  rewrite year_index_ok, bind_ok by small.
  rewrite E1, bind_ok by assumption. rewrite E2, bind_ok by assumption.
  rewrite E3, bind_ok by assumption. reflexivity.
Qed.

Lemma n_day_months_spec m ey d :
  1 <= m <= 12 -> - 2 ^ 59 <= ey <= 2 ^ 59 -> 0 < d <= year_days ey m ->
  exists m' d' ey',
    (forall fm, d <= 28 \/ (11 <= fm)%nat -> n_day_months fm m ey d = Ok (m', d', ey')) /\
    valid_date ey' m' d' /\
    ey <= ey' <= ey + 11 /\
    day_number ey' m' d' = day_number ey m d.
Proof.
  intros Hm He Hd. unfold n_day_months.
  pose proof (year_days_pos ey m) as Hyd.
  pose proof (month_days_bounds ey m Hm) as Hmd.
  destruct (Z.ltb_spec 28 d) as [Gt | Le].
  2:{ exists m, d, ey. unfold valid_date. repeat split; try lia; try reflexivity. }
  destruct (months_loop_spec 11 d ey m) as (m1 & d1 & e1 & E1 & N1 & V1 & B1);
    [assumption | unfold acc_ok in *; small | unfold acc_ok in *; small | | lia |].
  { replace (month_index ey m + (Z.of_nat 11 + 1)) with (month_index ey m + 12) by lia.
    rewrite year_days_months by assumption. lia. }
  exists m1, d1, e1. repeat split; try apply V1; try lia.
  intros fm Hf. apply E1. lia.
Qed.

(** [n_day] returns the valid date [cd] days after [(y, m, d)], or
    [Overflow] when the year of that date is not a 64-bit value. *)
Lemma n_day_spec y m d cd hh mm ss :
  in64 y -> in64 d -> in64 cd -> 1 <= m <= 12 ->
  exists Y M D,
    valid_date Y M D /\
    day_number Y M D = day_number y m d + cd /\
    n_day y m d cd hh mm ss = (Y' <- chk64 Y ;; Ok (mkfields Y' M D hh mm ss)).
Proof.
  intros Hy Hd Hcd Hm. unfold n_day.
  destruct (n_day_cycles_spec y m d cd Hy Hd Hcd Hm) as (e1 & d1 & E1 & B1 & D1 & _ & N1).
  destruct (n_day_years_spec m e1 d1 Hm B1 D1) as (e2 & d2 & E2 & B2 & D2 & N2).
  destruct (n_day_months_spec m e2 d2 Hm) as (M & D & e3 & E3 & V3 & B3 & N3);
    [unfold acc_ok in *; lia | exact D2 |].
  exists (y + (e3 - Z.rem y 400)), M, D.
  assert (H400 : (y + (e3 - Z.rem y 400) - e3) mod 400 = 0) by lia.
  split; [|split].
  - destruct V3 as [V3m V3d]. split; [assumption|].
    now rewrite (month_days_400 _ e3) by assumption.
  - rewrite (day_number_shift _ e3) by assumption.
    rewrite (day_number_shift y (Z.rem y 400)) by lia.
    rewrite N3, N2, N1. lia.
  - rewrite E1, bind_ok. rewrite E2, bind_ok by lia. rewrite E3, bind_ok by lia.
    rewrite sub64_ok, bind_ok by (unfold acc_ok in *; range).
    unfold add64. rewrite cast8_id; [reflexivity|].
    destruct V3 as [V3m V3d]. pose proof (month_days_bounds e3 M V3m). lia.
Qed.

Lemma n_day_normal y m d hh mm ss :
  in64 y -> valid_date y m d ->
  n_day y m d 0 hh mm ss = Ok (mkfields y m d hh mm ss).
Proof.
  intros Hy V.
  destruct (n_day_spec y m d 0 hh mm ss) as (Y & M & D & V' & N & E);
    [assumption | destruct V as [Vm Vd]; pose proof (month_days_bounds y m Vm); range
     | range | apply V |].
  rewrite Z.add_0_r in N.
  destruct (valid_date_unique _ _ _ _ _ _ V' V N) as (-> & -> & ->).
  rewrite E, chk64_ok by assumption. reflexivity.
Qed.

(** ** The cascade [n_sec], [n_min], [n_hour], [n_mon] *)

Lemma n_mon_canonical y m d cd hh mm ss :
  in64 y -> 1 <= m <= 12 ->
  n_mon y m d cd hh mm ss = n_day y m d cd hh mm ss.
Proof.
  intros Hy Hm. unfold n_mon.
  destruct (Z.eqb_spec m 12) as [-> | Ne]; cbn [negb].
  - reflexivity.
  - replace (m ÷ 12) with 0 by lia. rewrite add64_ok, bind_ok by range.
    rewrite Z.add_0_r.
    destruct (Z.leb_spec (Z.rem m 12) 0); [lia|]. rewrite bind_ok.
    rewrite cast8_id by lia. now replace (Z.rem m 12) with m by lia.
Qed.

(** [n_mon] overflows exactly when [y + m / 12] or the normalised year
    does; the guard [m != 12] skips both additions. *)
Lemma n_mon_spec y m d cd hh mm ss :
  in64 y -> in64 m ->
  n_mon y m d cd hh mm ss =
  if (m =? 12) || (fits64 (y + m ÷ 12) && fits64 (y + (m - 1) / 12))
  then n_day (y + (m - 1) / 12) ((m - 1) mod 12 + 1) d cd hh mm ss
  else Fail Overflow.
Proof.
  intros Hy Hm. unfold n_mon.
  destruct (Z.eqb_spec m 12) as [-> | Ne]; cbn [negb orb].
  - cbn [bind]. f_equal. lia.
  - unfold add64 at 1, chk64 at 1.
    destruct (fits64 (y + m ÷ 12)) eqn:F1; cbn [andb bind]; [|reflexivity].
    destruct (Z.leb_spec (Z.rem m 12) 0).
    + unfold sub64, chk64. replace (y + m ÷ 12 - 1) with (y + (m - 1) / 12) by lia.
      destruct (fits64 (y + (m - 1) / 12)) eqn:F2; cbn [bind]; [|reflexivity].
      rewrite add64_ok by range; cbn [bind]. rewrite cast8_id by lia.
      f_equal. lia.
    + replace (y + (m - 1) / 12) with (y + m ÷ 12) by lia. rewrite F1; cbn [bind].
      rewrite cast8_id by lia. f_equal. lia.
Qed.

Lemma n_hour_spec y m d cd hh mm ss :
  small cd -> in64 hh ->
  n_hour y m d cd hh mm ss = n_mon y m d (cd + hh / 24) (hh mod 24) mm ss.
Proof.
  intros Hcd Hhh. unfold n_hour, small in *.
  rewrite add64_ok by range; cbn [bind].
  destruct (Z.ltb_spec (Z.rem hh 24) 0).
  - rewrite sub64_ok by range; cbn [bind]. rewrite add64_ok by range; cbn [bind].
    rewrite cast8_id by lia. f_equal; lia.
  - cbn [bind]; rewrite cast8_id by lia. f_equal; lia.
Qed.

Lemma n_min_spec y m d hh ch mm ss :
  in64 hh -> small ch -> in64 mm ->
  n_min y m d hh ch mm ss =
  n_mon y m d ((hh + ch + mm / 60) / 24) ((hh + ch + mm / 60) mod 24) (mm mod 60) ss.
Proof.
  intros Hhh Hch Hmm. unfold n_min, small in *.
  rewrite add64_ok by range; cbn [bind].
  destruct (Z.ltb_spec (Z.rem mm 60) 0).
  - rewrite sub64_ok by range; cbn [bind]. rewrite add64_ok by range; cbn [bind].
    rewrite add64_ok by range; cbn [bind]. rewrite add64_ok by range; cbn [bind].
    rewrite cast8_id by lia. rewrite n_hour_spec by (small).
    f_equal; lia.
  - cbn [bind].
    rewrite add64_ok by range; cbn [bind]. rewrite add64_ok by range; cbn [bind].
    rewrite cast8_id by lia. rewrite n_hour_spec by (small).
    f_equal; lia.
Qed.

Lemma clock_parts hh mm ss :
  let t := clock hh mm ss in
  t / 60 = hh * 60 + mm + ss / 60 /\
  t / 3600 = hh + (mm + ss / 60) / 60 /\
  t / 86400 = (hh + (mm + ss / 60) / 60) / 24 /\
  t mod 60 = ss mod 60.
Proof. unfold clock. cbv zeta. lia. Qed.

(** The clock fields never overflow: [n_sec] is [n_mon] on the day
    carry and the normalised clock of [t] seconds. *)
Lemma n_sec_spec y m d hh mm ss :
  in64 y -> in64 hh -> in64 mm -> in64 ss ->
  let t := clock hh mm ss in
  n_sec y m d hh mm ss =
  n_mon y m d (t / 86400) ((t / 3600) mod 24) ((t / 60) mod 60) (t mod 60).
Proof.
  intros Hy Hhh Hmm Hss t.
  destruct (clock_parts hh mm ss) as (E60 & E3600 & E86400 & Emod).
  fold t in E60, E3600, E86400, Emod.
  rewrite E60, E3600, E86400, Emod. clear E60 E3600 E86400 Emod t.
  unfold n_sec.
  destruct (Z.leb_spec 0 ss); destruct (Z.ltb_spec ss 60); cbn [andb].
  1: destruct (Z.leb_spec 0 mm); destruct (Z.ltb_spec mm 60); cbn [andb].
  1: destruct (Z.leb_spec 0 hh); destruct (Z.ltb_spec hh 24); cbn [andb].
  1: destruct (Z.leb_spec 1 d); destruct (Z.leb_spec d 28); cbn [andb].
  1: destruct (Z.leb_spec 1 m); destruct (Z.leb_spec m 12); cbn [andb].
  all: rewrite ?cast8_id by lia.
  all: lazymatch goal with
       | |- Ok _ = _ =>
           rewrite n_mon_canonical by (assumption || lia);
           replace ((hh + (mm + ss / 60) / 60) / 24) with 0 by lia;
           replace ((hh + (mm + ss / 60) / 60) mod 24) with hh by lia;
           replace ((hh * 60 + mm + ss / 60) mod 60) with mm by lia;
           replace (ss mod 60) with ss by lia;
           rewrite n_day_normal;
           [reflexivity | assumption
           | split; [lia | pose proof (month_days_bounds y m); lia]]
       | |- n_mon _ _ _ _ _ _ _ = _ => f_equal; lia
       | |- n_hour _ _ _ _ _ _ _ = _ =>
           rewrite n_hour_spec by (small); f_equal; lia
       | |- n_min _ _ _ _ _ _ _ = _ =>
           rewrite n_min_spec by (small); f_equal; lia
       | |- _ =>
           destruct (Z.ltb_spec (Z.rem ss 60) 0);
           rewrite ?sub64_ok by range; cbn [bind];
           rewrite ?add64_ok by range; cbn [bind];
           rewrite ?add64_ok by range; cbn [bind];
           rewrite ?add64_ok by range; cbn [bind];
           rewrite ?cast8_id by lia;
           rewrite n_min_spec by (small);
           f_equal; lia
       end.
Qed.

(** ** Normalisation as a whole *)

(** Canonical fields are determined by their second count, and their
    year grows with it. *)
Lemma canonical_unique f1 f2 :
  canonical f1 -> canonical f2 -> secs f1 = secs f2 -> f1 = f2.
Proof.
  destruct f1 as [y1 m1 d1 h1 i1 s1], f2 as [y2 m2 d2 h2 i2 s2].
  unfold canonical, secs, days, clock. cbn [y m d hh mm ss].
  intros (V1 & H1 & I1 & S1) (V2 & H2 & I2 & S2) E.
  assert (N : day_number y1 m1 d1 = day_number y2 m2 d2) by lia.
  destruct (valid_date_unique _ _ _ _ _ _ V1 V2 N) as (-> & -> & ->).
  f_equal; lia.
Qed.

Lemma canonical_year_mono f1 f2 :
  canonical f1 -> canonical f2 -> secs f1 <= secs f2 -> y f1 <= y f2.
Proof.
  unfold canonical, secs, days, clock.
  intros (V1 & H1 & I1 & S1) (V2 & H2 & I2 & S2) E.
  destruct (Z.le_gt_cases (y f1) (y f2)) as [L | G]; [assumption|].
  assert (N : day_number (y f2) (m f2) (d f2) < day_number (y f1) (m f1) (d f1)).
  { apply day_number_lt; [assumption | assumption | lia]. }
  lia.
Qed.

Lemma canonical_d f : canonical f -> 1 <= m f <= 12 /\ 1 <= d f <= 31.
Proof.
  intros ((Hm & Hd) & _). pose proof (month_days_bounds (y f) (m f) Hm). lia.
Qed.

Lemma n_day_total y0 m0 d0 cd h mi s :
  in64 y0 -> 1 <= m0 <= 12 -> in64 d0 -> in64 cd ->
  0 <= h <= 23 -> 0 <= mi <= 59 -> 0 <= s <= 59 ->
  exists f, canonical f /\
    secs f = (day_number y0 m0 d0 + cd) * 86400 + clock h mi s /\
    n_day y0 m0 d0 cd h mi s = ret64 f.
Proof.
  intros Hy Hm Hd Hcd Hh Hmi Hs.
  destruct (n_day_spec y0 m0 d0 cd h mi s Hy Hd Hcd Hm) as (Y & M & D & V & N & E).
  exists (mkfields Y M D h mi s). unfold canonical, secs, days, ret64. cbn [y m d hh mm ss].
  repeat split; try lia; try apply V.
  rewrite E. unfold chk64. now destruct (fits64 Y).
Qed.

Lemma n_sec_total y0 m0 d0 hh mm ss :
  in64 y0 -> 1 <= m0 <= 12 -> in64 d0 -> in64 hh -> in64 mm -> in64 ss ->
  exists f, canonical f /\
    secs f = day_number y0 m0 d0 * 86400 + clock hh mm ss /\
    n_sec y0 m0 d0 hh mm ss = ret64 f.
Proof.
  intros Hy Hm Hd Hhh Hmm Hss.
  rewrite n_sec_spec, n_mon_canonical by assumption.
  set (t := clock hh mm ss).
  destruct (n_day_total y0 m0 d0 (t / 86400) ((t / 3600) mod 24) ((t / 60) mod 60) (t mod 60))
    as (f & C & S & E); try assumption; try lia.
  { unfold t, clock. range. }
  exists f. split; [exact C | split; [| exact E]]. rewrite S. unfold clock. lia.
Qed.

Lemma n_min_total y0 m0 d0 hh mm ss :
  in64 y0 -> 1 <= m0 <= 12 -> in64 d0 -> in64 hh -> in64 mm -> 0 <= ss <= 59 ->
  exists f, canonical f /\
    secs f = day_number y0 m0 d0 * 86400 + clock hh mm ss /\
    n_min y0 m0 d0 hh 0 mm ss = ret64 f.
Proof.
  intros Hy Hm Hd Hhh Hmm Hss.
  rewrite n_min_spec, n_mon_canonical by (assumption || small).
  destruct (n_day_total y0 m0 d0 ((hh + 0 + mm / 60) / 24)
              ((hh + 0 + mm / 60) mod 24) (mm mod 60) ss)
    as (f & C & S & E); try assumption; try lia.
  { range. }
  exists f. split; [exact C | split; [| exact E]]. rewrite S. unfold clock. lia.
Qed.

Lemma n_hour_total y0 m0 d0 hh mm ss :
  in64 y0 -> 1 <= m0 <= 12 -> in64 d0 -> in64 hh -> 0 <= mm <= 59 -> 0 <= ss <= 59 ->
  exists f, canonical f /\
    secs f = day_number y0 m0 d0 * 86400 + clock hh mm ss /\
    n_hour y0 m0 d0 0 hh mm ss = ret64 f.
Proof.
  intros Hy Hm Hd Hhh Hmm Hss.
  rewrite n_hour_spec, n_mon_canonical by (assumption || small).
  destruct (n_day_total y0 m0 d0 (0 + hh / 24) (hh mod 24) mm ss)
    as (f & C & S & E); try assumption; try lia.
  { range. }
  exists f. split; [exact C | split; [| exact E]]. rewrite S. unfold clock. lia.
Qed.

Lemma n_sec_raw y0 m0 d0 hh mm ss :
  in64 y0 -> in64 m0 -> in64 d0 -> in64 hh -> in64 mm -> in64 ss ->
  n_sec y0 m0 d0 hh mm ss = Fail Overflow \/
  exists f, canonical f /\ in64 (y f) /\ n_sec y0 m0 d0 hh mm ss = Ok f.
Proof.
  intros Hy Hm Hd Hhh Hmm Hss.
  rewrite n_sec_spec, n_mon_spec by assumption.
  destruct (_ || _) eqn:G; [|now left].
  assert (HY : in64 (y0 + (m0 - 1) / 12)).
  { apply orb_prop in G. destruct G as [G | G].
    - apply Z.eqb_eq in G. subst m0. range.
    - apply andb_prop in G. apply fits64_in64. apply G. }
  set (t := clock hh mm ss).
  destruct (n_day_total (y0 + (m0 - 1) / 12) ((m0 - 1) mod 12 + 1) d0
              (t / 86400) ((t / 3600) mod 24) ((t / 60) mod 60) (t mod 60))
    as (f & C & S & E); try assumption; try lia.
  { unfold t, clock. range. }
  rewrite E. unfold ret64. destruct (fits64 (y f)) eqn:F; [right | now left].
  exists f. split; [exact C | split; [now apply fits64_in64 | reflexivity]].
Qed.

(** ** Alignment and counts *)

Lemma aligned_inv T f : aligned T f ->
  match T with
  | second_tag => True
  | minute_tag => ss f = 0
  | hour_tag => mm f = 0 /\ ss f = 0
  | day_tag => hh f = 0 /\ mm f = 0 /\ ss f = 0
  | month_tag => d f = 1 /\ hh f = 0 /\ mm f = 0 /\ ss f = 0
  | year_tag => m f = 1 /\ d f = 1 /\ hh f = 0 /\ mm f = 0 /\ ss f = 0
  end.
Proof.
  unfold aligned. destruct f as [y0 m0 d0 h0 i0 s0], T; cbn; intros E;
  inversion E; auto.
Qed.

Lemma aligned_intro T f :
  match T with
  | second_tag => True
  | minute_tag => ss f = 0
  | hour_tag => mm f = 0 /\ ss f = 0
  | day_tag => hh f = 0 /\ mm f = 0 /\ ss f = 0
  | month_tag => d f = 1 /\ hh f = 0 /\ mm f = 0 /\ ss f = 0
  | year_tag => m f = 1 /\ d f = 1 /\ hh f = 0 /\ mm f = 0 /\ ss f = 0
  end -> aligned T f.
Proof.
  unfold aligned. destruct f as [y0 m0 d0 h0 i0 s0], T; cbn; intros E;
  repeat match goal with H : _ /\ _ |- _ => destruct H end; subst; reflexivity.
Qed.

Lemma align_canonical T f : canonical f -> canonical (align T f).
Proof.
  intros ((Hm & Hd) & Hh & Hi & Hs). pose proof (month_days_bounds (y f) (m f) Hm).
  unfold canonical, valid_date.
  destruct T; cbn [align y m d hh mm ss]; repeat split; try lia;
  unfold month_days; lia.
Qed.

Lemma align_aligned T f : aligned T (align T f).
Proof. unfold aligned. now destruct T. Qed.

Lemma align_year T f : y (align T f) = y f.
Proof. now destruct T. Qed.

Lemma count_inj T f1 f2 :
  canonical f1 -> canonical f2 -> aligned T f1 -> aligned T f2 ->
  count T f1 = count T f2 -> f1 = f2.
Proof.
  intros C1 C2 A1 A2 E. apply aligned_inv in A1, A2.
  destruct T; cbn [count] in E.
  1-4: apply canonical_unique; try assumption; unfold secs, clock;
       pose proof C1 as (_ & ? & ? & ?); pose proof C2 as (_ & ? & ? & ?); lia.
  - destruct f1 as [y1 m1 d1 h1 i1 s1], f2 as [y2 m2 d2 h2 i2 s2].
    destruct C1 as ((? & _) & _), C2 as ((? & _) & _). cbn [y m d hh mm ss] in *.
    f_equal; lia.
  - destruct f1 as [y1 m1 d1 h1 i1 s1], f2 as [y2 m2 d2 h2 i2 s2].
    cbn [y m d hh mm ss] in *. f_equal; lia.
Qed.

Lemma count_year_mono T f1 f2 :
  canonical f1 -> canonical f2 -> aligned T f1 -> aligned T f2 ->
  count T f1 <= count T f2 -> y f1 <= y f2.
Proof.
  intros C1 C2 A1 A2 E. apply aligned_inv in A1, A2.
  destruct T; cbn [count] in E.
  1-4: apply canonical_year_mono; try assumption; unfold secs, clock;
       pose proof C1 as (_ & ? & ? & ?); pose proof C2 as (_ & ? & ? & ?); lia.
  - destruct C1 as ((? & _) & _), C2 as ((? & _) & _). lia.
  - lia.
Qed.

(** ** Stepping *)

(** Stepping months: no intermediate year leaves the 64-bit range
    unless the final year does. *)
Lemma step_month_spec f n :
  canonical f -> aligned month_tag f -> in64 (y f) -> in64 n ->
  let i := 12 * y f + (m f - 1) + n in
  step month_tag f n = ret64 (mkfields (i / 12) (i mod 12 + 1) 1 0 0 0).
Proof.
  intros C A Hy Hn i. pose proof (canonical_d f C) as (Hm & _).
  apply aligned_inv in A. destruct A as (A1 & A2 & A3 & A4).
  cbn [step]. rewrite A1, A2, A3, A4. unfold add64 at 1, chk64.
  destruct (fits64 (y f + n ÷ 12)) eqn:F1; cbn [bind].
  - apply fits64_in64 in F1. rewrite add64_ok by range; cbn [bind].
    rewrite n_mon_spec by (assumption || range).
    replace (y f + n ÷ 12 + (m f + Z.rem n 12 - 1) / 12) with (i / 12) by (unfold i; lia).
    replace ((m f + Z.rem n 12 - 1) mod 12 + 1) with (i mod 12 + 1) by (unfold i; lia).
    destruct (_ || _) eqn:G.
    + assert (HY : in64 (i / 12)).
      { apply orb_prop in G. destruct G as [G | G].
        - apply Z.eqb_eq in G. replace (i / 12) with (y f + n ÷ 12) by (unfold i; lia). assumption.
        - apply andb_prop in G. destruct G as [_ G]. now apply fits64_in64 in G. }
      rewrite n_day_normal; [now rewrite ret64_ok | assumption |].
      split; [lia|]. pose proof (month_days_bounds (i / 12) (i mod 12 + 1)). lia.
    + rewrite ret64_fail; [reflexivity|]. cbn [y].
      apply orb_false_elim in G. destruct G as [G1 G2]. apply Z.eqb_neq in G1.
      apply andb_false_elim in G2. destruct G2 as [G2 | G2]; apply fits64_false in G2.
      * intros I. apply G2. unfold i in I. range.
      * exact G2.
  - apply fits64_false in F1. rewrite ret64_fail; [reflexivity|]. cbn [y].
    intros I. apply F1. unfold i in I. range.
Qed.

(** [step] moves an aligned value by exactly [n] units, and overflows
    exactly when the year of the result is not a 64-bit value. *)
Lemma step_spec T f n :
  canonical f -> aligned T f -> in64 (y f) -> in64 n ->
  exists f', canonical f' /\ aligned T f' /\
    count T f' = count T f + n /\
    step T f n = ret64 f'.
Proof.
  intros C A Hy Hn. pose proof (canonical_d f C) as (Hm & Hd).
  pose proof C as (V & Hh & Hi & Hs). pose proof (aligned_inv T f A) as A'.
  destruct T; cbn [count].
  1-4: cbn [step].
  - (* second *)
    rewrite add64_ok by range; cbn [bind]. rewrite add64_ok by range; cbn [bind].
    destruct (n_sec_total (y f) (m f) (d f) (hh f) (mm f + n ÷ 60) (ss f + Z.rem n 60))
      as (f' & C' & S' & E'); try assumption; try range.
    exists f'. split; [exact C' | split; [reflexivity | split; [| exact E']]].
    unfold secs, clock in S'. fold (days f) in S'. lia.
  - (* minute *)
    rewrite add64_ok by range; cbn [bind]. rewrite add64_ok by range; cbn [bind].
    destruct (n_min_total (y f) (m f) (d f) (hh f + n ÷ 60) (mm f + Z.rem n 60) (ss f))
      as (f' & C' & S' & E'); try assumption; try range.
    assert (Hs' : ss f' = 0).
    { pose proof C' as (_ & ? & ? & ?). unfold secs, clock in S'. lia. }
    exists f'. split; [exact C' | split; [now apply aligned_intro | split; [| exact E']]].
    unfold secs, clock in S'. fold (days f) in S'. lia.
  - (* hour *)
    rewrite add64_ok by range; cbn [bind]. rewrite add64_ok by range; cbn [bind].
    destruct (n_hour_total (y f) (m f) (d f + n ÷ 24) (hh f + Z.rem n 24) (mm f) (ss f))
      as (f' & C' & S' & E'); try assumption; try range.
    pose proof (day_number_d (y f) (m f) (d f + n ÷ 24)) as D1.
    pose proof (day_number_d (y f) (m f) (d f)) as D2.
    assert (Hs' : mm f' = 0 /\ ss f' = 0).
    { pose proof C' as (_ & ? & ? & ?). unfold secs, clock in S'. lia. }
    exists f'. split; [exact C' | split; [now apply aligned_intro | split; [| exact E']]].
    unfold secs, clock in S'. unfold days at 2. lia.
  - (* day *)
    destruct (n_day_total (y f) (m f) (d f) n (hh f) (mm f) (ss f))
      as (f' & C' & S' & E'); try assumption; try range.
    assert (Hs' : hh f' = 0 /\ mm f' = 0 /\ ss f' = 0).
    { pose proof C' as (_ & ? & ? & ?). unfold secs, clock in S'. lia. }
    exists f'. split; [exact C' | split; [now apply aligned_intro | split; [| exact E']]].
    unfold secs, clock in S'. fold (days f) in S'. lia.
  - (* month *)
    rewrite step_month_spec by assumption.
    destruct A' as (A1 & A2 & A3 & A4).
    eexists. split; [| split; [| split; [| reflexivity]]].
    + unfold canonical, valid_date. cbn [y m d hh mm ss].
      repeat split; try lia.
      pose proof (month_days_bounds ((12 * y f + (m f - 1) + n) / 12)
                    ((12 * y f + (m f - 1) + n) mod 12 + 1)). lia.
    + reflexivity.
    + cbn [y m]. lia.
  - (* year *)
    destruct A' as (A1 & A2 & A3 & A4 & A5).
    exists (mkfields (y f + n) (m f) (d f) (hh f) (mm f) (ss f)).
    split; [| split; [| split]].
    + unfold canonical, valid_date in *. cbn [y m d hh mm ss]. rewrite A1, A2 in *.
      repeat split; try lia. unfold month_days. lia.
    + apply aligned_intro. cbn [y m d hh mm ss]. auto.
    + reflexivity.
    + cbn [step]. unfold add64, ret64, chk64. cbn [y]. now destruct (fits64 (y f + n)).
Qed.

(** ** Differences *)

Lemma day_difference_exact_eq y1 m1 d1 y2 m2 d2 :
  day_difference_exact y1 m1 d1 y2 m2 d2 =
  ymd_ord_exact y1 m1 d1 - ymd_ord_exact y2 m2 d2.
Proof.
  unfold day_difference_exact. rewrite !ord_floor.
  rewrite (day_number_shift y1 (Z.rem y1 400)) by lia.
  rewrite (day_number_shift y2 (Z.rem y2 400)) by lia.
  generalize (day_number (Z.rem y1 400) m1 d1), (day_number (Z.rem y2 400) m2 d2).
  intros o1 o2.
  destruct (_ && _); [lia|]. destruct (_ && _); lia.
Qed.

(** [scale_add], [ymd_ord] and [day_difference]: what they return when
    they return, and ranges in which they do. *)
Lemma scale_add_inv v f a r : scale_add v f a = Ok r -> r = v * f + a /\ in64 r.
Proof.
  unfold scale_add. intros H. inv_chk H; injection H as <-; split; try assumption; lia.
Qed.

Lemma scale_add_ok v f a :
  in64 v -> 0 < f <= 60 -> - f < a < f -> in64 (v * f + a) ->
  scale_add v f a = Ok (v * f + a).
Proof.
  intros Hv Hf Ha Hr. unfold scale_add.
  destruct (Z.ltb_spec v 0).
  - rewrite add64_ok by range; cbn [bind].
    rewrite mul64_ok by (unfold in64, int64_min, int64_max in *; nia); cbn [bind].
    rewrite add64_ok by (unfold in64, int64_min, int64_max in *; nia); cbn [bind].
    rewrite sub64_ok by (unfold in64, int64_min, int64_max in *; nia). f_equal. lia.
  - rewrite sub64_ok by range; cbn [bind].
    rewrite mul64_ok by (unfold in64, int64_min, int64_max in *; nia); cbn [bind].
    rewrite add64_ok by (unfold in64, int64_min, int64_max in *; nia); cbn [bind].
    rewrite add64_ok by (unfold in64, int64_min, int64_max in *; nia). f_equal. lia.
Qed.

Lemma ymd_ord_inv y0 m0 d0 r : ymd_ord y0 m0 d0 = Ok r -> r = ymd_ord_exact y0 m0 d0.
Proof.
  unfold ymd_ord, ymd_ord_exact. intros H.
  inv_chk H; injection H as <-; reflexivity.
Qed.

Lemma ymd_ord_ok y0 m0 d0 :
  - 2 ^ 40 <= y0 <= 2 ^ 40 -> 1 <= m0 <= 12 -> - 2 ^ 40 <= d0 <= 2 ^ 40 ->
  ymd_ord y0 m0 d0 = Ok (ymd_ord_exact y0 m0 d0).
Proof.
  intros Hy Hm Hd. unfold ymd_ord, ymd_ord_exact.
  set (e := if m0 <=? 2 then y0 - 1 else y0).
  assert (He : (if m0 <=? 2 then sub64 y0 1 else Ok y0) = Ok e).
  { unfold e. destruct (m0 <=? 2); [apply sub64_ok; range | reflexivity]. }
  rewrite He; cbn [bind].
  assert (Hb : - 2 ^ 40 - 1 <= e <= 2 ^ 40) by (unfold e; destruct (m0 <=? 2); lia).
  clearbody e.
  set (t := if 0 <=? e then e else e - 399).
  assert (Ht : (if 0 <=? e then Ok e else sub64 e 399) = Ok t).
  { unfold t. destruct (0 <=? e); [reflexivity | apply sub64_ok; range]. }
  rewrite Ht; cbn [bind].
  assert (Hb' : - 2 ^ 40 - 400 <= t <= 2 ^ 40) by (unfold t; destruct (0 <=? e); lia).
  clearbody t.
  assert (Hdoy : 0 <= (153 * (m0 + (if 2 <? m0 then -3 else 9)) + 2) ÷ 5 <= 400).
  { destruct (Z.ltb_spec 2 m0); lia. }
  set (doy := (153 * (m0 + (if 2 <? m0 then -3 else 9)) + 2) ÷ 5) in *. clearbody doy.
  rewrite mul64_ok by range; cbn [bind]. rewrite sub64_ok by range; cbn [bind].
  rewrite mul64_ok by range; cbn [bind]. rewrite add64_ok by range; cbn [bind].
  rewrite sub64_ok by range; cbn [bind]. rewrite add64_ok by range; cbn [bind].
  rewrite mul64_ok by range; cbn [bind]. rewrite add64_ok by range; cbn [bind].
  rewrite sub64_ok by range. reflexivity.
Qed.

Lemma day_difference_inv y1 m1 d1 y2 m2 d2 r :
  day_difference y1 m1 d1 y2 m2 d2 = Ok r ->
  r = day_difference_exact y1 m1 d1 y2 m2 d2 /\ in64 r.
Proof.
  unfold day_difference, day_difference_exact. intros H.
  inv_chk H.
  apply bind_inv in H. destruct H as (o1 & E1 & H). apply ymd_ord_inv in E1.
  apply bind_inv in H. destruct H as (o2 & E2 & H). apply ymd_ord_inv in E2.
  subst o1 o2.
  inv_chk H.
  all: injection H as <-; split; [| assumption].
  all: repeat match goal with
       | E : ?c = _ |- context [?c] => rewrite E
       end; reflexivity.
Qed.

Lemma day_difference_ok y1 m1 d1 y2 m2 d2 :
  in64 y1 -> in64 y2 -> 1 <= m1 <= 12 -> 1 <= m2 <= 12 ->
  1 <= d1 <= 31 -> 1 <= d2 <= 31 ->
  in64 (day_number y1 m1 d1 - day_number y2 m2 d2) ->
  day_difference y1 m1 d1 y2 m2 d2 = Ok (day_number y1 m1 d1 - day_number y2 m2 d2).
Proof.
  intros Hy1 Hy2 Hm1 Hm2 Hd1 Hd2 HD.
  rewrite (day_number_shift y1 (Z.rem y1 400)) in * by lia.
  rewrite (day_number_shift y2 (Z.rem y2 400)) in * by lia.
  pose proof (day_number_small (Z.rem y1 400) m1 d1 ltac:(lia) Hm1 Hd1) as B1.
  pose proof (day_number_small (Z.rem y2 400) m2 d2 ltac:(lia) Hm2 Hd2) as B2.
  unfold day_difference.
  rewrite sub64_ok by range; cbn [bind]. rewrite sub64_ok by range; cbn [bind].
  rewrite sub64_ok by range; cbn [bind].
  rewrite !ymd_ord_ok by lia; cbn [bind]. rewrite !ord_floor.
  set (o1 := day_number (Z.rem y1 400) m1 d1) in *.
  set (o2 := day_number (Z.rem y2 400) m2 d2) in *. clearbody o1 o2.
  rewrite sub64_ok by range; cbn [bind].
  destruct (Z.ltb_spec 0 (y1 - Z.rem y1 400 - (y2 - Z.rem y2 400)));
  destruct (Z.ltb_spec (o1 - o2) 0); cbn [andb];
  try (destruct (Z.ltb_spec (y1 - Z.rem y1 400 - (y2 - Z.rem y2 400)) 0)); cbn [andb];
  try (destruct (Z.ltb_spec 0 (o1 - o2))); cbn [andb].
  all: rewrite ?add64_ok by range; cbn [bind].
  all: rewrite ?sub64_ok by range; cbn [bind].
  all: rewrite ?add64_ok by range; cbn [bind].
  all: rewrite mul64_ok by range; cbn [bind].
  all: rewrite add64_ok by range; f_equal; lia.
Qed.

Lemma difference_day_inv f1 f2 r :
  difference_day f1 f2 = Ok r -> r = days f1 - days f2 /\ in64 r.
Proof.
  unfold difference_day. intros H. apply day_difference_inv in H.
  rewrite day_difference_exact_eq, !ord_floor in H. exact H.
Qed.

(** [difference] is the difference of the unit counts. *)
Lemma difference_inv T f1 f2 r :
  difference T f1 f2 = Ok r -> r = count T f1 - count T f2 /\ in64 r.
Proof.
  destruct T; cbn [difference count];
  unfold difference_second, difference_minute, difference_hour, difference_month, difference_year;
  intros H.
  - apply bind_inv in H. destruct H as (v1 & H1 & H).
    apply bind_inv in H1. destruct H1 as (v2 & H2 & H1).
    apply bind_inv in H2. destruct H2 as (v3 & H3 & H2).
    apply difference_day_inv in H3. apply scale_add_inv in H2, H1, H.
    split; [lia | apply H].
  - apply bind_inv in H. destruct H as (v2 & H2 & H1).
    apply bind_inv in H2. destruct H2 as (v3 & H3 & H2).
    apply difference_day_inv in H3. apply scale_add_inv in H2, H1.
    split; [lia | apply H1].
  - apply bind_inv in H. destruct H as (v3 & H3 & H2).
    apply difference_day_inv in H3. apply scale_add_inv in H2.
    split; [lia | apply H2].
  - now apply difference_day_inv.
  - apply bind_inv in H. destruct H as (v & Hv & H).
    apply chk64_inv in Hv. apply scale_add_inv in H. split; [lia | apply H].
  - apply chk64_inv in H. destruct H as [-> H]. split; [reflexivity | exact H].
Qed.

Lemma difference_day_ok f1 f2 :
  canonical f1 -> canonical f2 -> in64 (y f1) -> in64 (y f2) ->
  in64 (days f1 - days f2) ->
  difference_day f1 f2 = Ok (days f1 - days f2).
Proof.
  intros C1 C2 Hy1 Hy2 HD. unfold difference_day, days in *.
  apply day_difference_ok; try assumption; apply canonical_d; assumption.
Qed.

Lemma difference_ok T f1 f2 :
  canonical f1 -> canonical f2 -> in64 (y f1) -> in64 (y f2) ->
  in64 (count T f1 - count T f2) ->
  difference T f1 f2 = Ok (count T f1 - count T f2).
Proof.
  intros C1 C2 Hy1 Hy2 HD.
  pose proof C1 as (_ & Hh1 & Hi1 & Hs1). pose proof C2 as (_ & Hh2 & Hi2 & Hs2).
  pose proof (canonical_d f1 C1) as (Hm1 & _). pose proof (canonical_d f2 C2) as (Hm2 & _).
  destruct T; cbn [difference count] in *;
  unfold difference_second, difference_minute, difference_hour, difference_month, difference_year.
  - rewrite difference_day_ok by (assumption || range); cbn [bind].
    rewrite scale_add_ok by range; cbn [bind].
    rewrite scale_add_ok by range; cbn [bind].
    rewrite scale_add_ok by range. f_equal. lia.
  - rewrite difference_day_ok by (assumption || range); cbn [bind].
    rewrite scale_add_ok by range; cbn [bind].
    rewrite scale_add_ok by range. f_equal. lia.
  - rewrite difference_day_ok by (assumption || range); cbn [bind].
    rewrite scale_add_ok by range. f_equal. lia.
  - now apply difference_day_ok.
  - rewrite sub64_ok by range; cbn [bind].
    rewrite scale_add_ok by range. f_equal. lia.
  - now apply sub64_ok.
Qed.

(** ** Civil-time values *)

Lemma fields_eqb_eq f g : fields_eqb f g = true <-> f = g.
Proof.
  destruct f as [y1 m1 d1 h1 i1 s1], g as [y2 m2 d2 h2 i2 s2].
  unfold fields_eqb. cbn [y m d hh mm ss]. split.
  - intros H. f_equal; lia.
  - intros [= -> -> -> -> -> ->]. lia.
Qed.

Lemma normalizedb_canonical f : normalizedb f = true <-> canonical f.
Proof.
  unfold normalizedb, canonical, valid_date. split.
  - intros H.
    assert (Hm : 1 <= m f <= 12) by lia.
    rewrite month_days_ok in H by assumption. lia.
  - intros ((Hm & Hd) & H). rewrite month_days_ok by assumption. lia.
Qed.

Lemma valid_inv {T} (c : civil_time T) :
  valid c -> canonical (f_ c) /\ aligned T (f_ c) /\ in64 (y (f_ c)).
Proof.
  unfold valid, validb, year. intros H.
  apply andb_prop in H. destruct H as [H I]. apply andb_prop in H. destruct H as [N A].
  split; [now apply normalizedb_canonical | split].
  - now apply fields_eqb_eq.
  - now apply fits64_in64.
Qed.

Lemma valid_intro T f :
  canonical f -> aligned T f -> in64 (y f) -> valid (mk_civil_time T f).
Proof.
  intros C A I. unfold valid, validb, year. cbn [f_].
  apply normalizedb_canonical in C. apply fields_eqb_eq in A. apply fits64_true in I.
  now rewrite C, A, I.
Qed.

Lemma valid_default T : valid (default T).
Proof. now destruct T. Qed.

Lemma of_fields_aligned T f : aligned T f -> of_fields T f = mk_civil_time T f.
Proof. unfold of_fields, aligned. now intros ->. Qed.

Lemma civil_time_eta T (c : civil_time T) : mk_civil_time T (f_ c) = c.
Proof. now destruct c. Qed.

Lemma operator_plus_spec {T} (v : civil_time T) n :
  valid v -> in64 n ->
  exists f, canonical f /\ aligned T f /\
    count T f = count T (f_ v) + n /\
    operator_plus v n =
      if fits64 (y f) then Ok (mk_civil_time T f) else Fail Overflow.
Proof.
  intros V Hn. apply valid_inv in V. destruct V as (C & A & I).
  destruct (step_spec T (f_ v) n C A I Hn) as (f & C' & A' & E & S).
  exists f. split; [exact C' | split; [exact A' | split; [exact E |]]].
  unfold operator_plus. rewrite S. unfold ret64.
  destruct (fits64 (y f)); cbn [bind]; [|reflexivity].
  now rewrite of_fields_aligned.
Qed.

Lemma operator_minus_spec {T} (v : civil_time T) n :
  valid v -> in64 n ->
  operator_minus v n = Fail Overflow \/
  exists f, canonical f /\ aligned T f /\ in64 (y f) /\
    count T f = count T (f_ v) - n /\
    operator_minus v n = Ok (mk_civil_time T f).
Proof.
  intros V Hn. apply valid_inv in V. destruct V as (C & A & I).
  unfold operator_minus.
  destruct (Z.eqb_spec n int64_min) as [-> | Ne]; cbn [negb].
  - rewrite add64_ok by range; cbn [bind]. rewrite neg64_ok by range; cbn [bind].
    destruct (step_spec T (f_ v) (- (int64_min + 1)) C A I ltac:(range)) as (g & Cg & Ag & Eg & Sg).
    rewrite Sg. unfold ret64. destruct (fits64 (y g)) eqn:Fg; cbn [bind]; [|now left].
    apply fits64_in64 in Fg.
    destruct (step_spec T g 1 Cg Ag Fg ltac:(range)) as (f & C' & A' & E & S).
    rewrite S. unfold ret64. destruct (fits64 (y f)) eqn:F; cbn [bind]; [|now left].
    apply fits64_in64 in F. right. exists f. rewrite of_fields_aligned by assumption.
    split; [exact C' | split; [exact A' | split; [exact F | split; [| reflexivity]]]].
    unfold int64_min in *. lia.
  - rewrite neg64_ok by range; cbn [bind].
    destruct (step_spec T (f_ v) (- n) C A I ltac:(range)) as (f & C' & A' & E & S).
    rewrite S. unfold ret64. destruct (fits64 (y f)) eqn:F; cbn [bind]; [|now left].
    apply fits64_in64 in F. right. exists f. rewrite of_fields_aligned by assumption.
    split; [exact C' | split; [exact A' | split; [exact F | split; [| reflexivity]]]].
    lia.
Qed.

Lemma operator_minus_plus {T} (v : civil_time T) n :
  in64 n -> n <> int64_min -> operator_minus v n = operator_plus v (- n).
Proof.
  intros Hn Ne. unfold operator_minus, operator_plus.
  destruct (Z.eqb_spec n int64_min); [contradiction|]. cbn [negb].
  now rewrite neg64_ok by range.
Qed.

Lemma make_spec T y0 m0 d0 h0 i0 s0 :
  in64 y0 -> in64 m0 -> in64 d0 -> in64 h0 -> in64 i0 -> in64 s0 ->
  valid_or_overflow (make T y0 m0 d0 h0 i0 s0).
Proof.
  intros Hy Hm Hd Hh Hi Hs. unfold make, valid_or_overflow.
  destruct (n_sec_raw y0 m0 d0 h0 i0 s0 Hy Hm Hd Hh Hi Hs) as [E | (f & C & I & E)];
    rewrite E; cbn [bind]; [now left | right].
  eexists. split; [reflexivity|]. apply valid_intro.
  - now apply align_canonical.
  - apply align_aligned.
  - now rewrite align_year.
Qed.

Lemma make_defined T y0 m0 d0 h0 i0 s0 :
  - 2 ^ 62 <= y0 <= 2 ^ 62 -> in64 m0 -> in64 d0 -> in64 h0 -> in64 i0 -> in64 s0 ->
  exists c, make T y0 m0 d0 h0 i0 s0 = Ok c.
Proof.
  intros Hy Hm Hd Hh Hi Hs. unfold make.
  rewrite n_sec_spec, n_mon_spec by (assumption || range).
  assert (F1 : in64 (y0 + m0 ÷ 12)) by range.
  assert (F2 : in64 (y0 + (m0 - 1) / 12)) by range.
  rewrite (fits64_true _ F1), (fits64_true _ F2), orb_true_r.
  set (t := clock h0 i0 s0).
  destruct (n_day_spec (y0 + (m0 - 1) / 12) ((m0 - 1) mod 12 + 1) d0
              (t / 86400) ((t / 3600) mod 24) ((t / 60) mod 60) (t mod 60))
    as (Y & M & D & V & N & E); try assumption; try lia.
  { unfold t, clock. range. }
  rewrite E. destruct (year_distance Y M D (y0 + (m0 - 1) / 12) ((m0 - 1) mod 12 + 1) d0 (t / 86400)
              V ltac:(lia) N) as [B1 B2].
  assert (Ht : - 2 ^ 59 <= t / 86400 <= 2 ^ 59) by (unfold t, clock; range).
  rewrite chk64_ok by range. cbn [bind]. eauto.
Qed.

Lemma operator_lt_secs {T1 T2} (a : civil_time T1) (b : civil_time T2) :
  canonical (f_ a) -> canonical (f_ b) ->
  (operator_lt a b = true <-> secs (f_ a) < secs (f_ b)).
Proof.
  intros Ca Cb. pose proof Ca as (Va & Ha & Ia & Sa). pose proof Cb as (Vb & Hb & Ib & Sb).
  pose proof (day_number_lt _ _ _ _ _ _ Va Vb) as L1.
  pose proof (day_number_lt _ _ _ _ _ _ Vb Va) as L2.
  unfold operator_lt, year, month, day, hour, minute, second, secs, days, clock.
  lia.
Qed.

Lemma day_order (a b : civil_time day_tag) :
  valid a -> valid b ->
  (operator_lt a b = true <-> days (f_ a) < days (f_ b)).
Proof.
  intros Va Vb. apply valid_inv in Va, Vb.
  destruct Va as (Ca & Aa & _), Vb as (Cb & Ab & _).
  rewrite operator_lt_secs by assumption.
  apply aligned_inv in Aa, Ab. unfold secs, clock. lia.
Qed.

(** A step between 0 and a step that fits also fits. *)
Lemma plus_between (cd e : civil_time day_tag) k bound :
  valid cd -> in64 bound -> operator_plus cd bound = Ok e ->
  (0 <= k <= bound \/ bound <= k <= 0) ->
  exists r, operator_plus cd k = Ok r /\ valid r /\
    days (f_ r) = days (f_ cd) + k /\ days (f_ e) = days (f_ cd) + bound.
Proof.
  intros V Hb P Hk.
  destruct (operator_plus_spec cd bound V Hb) as (fe & Ce & Ae & Ee & Se).
  rewrite P in Se. destruct (fits64 (y fe)) eqn:Fe; [|discriminate]. injection Se as ->.
  apply fits64_in64 in Fe. cbn [f_].
  destruct (operator_plus_spec cd k V ltac:(range)) as (fr & Cr & Ar & Er & Sr).
  pose proof V as V'. apply valid_inv in V'. destruct V' as (Cv & Av & Iv).
  cbn [count] in *.
  assert (Ir : in64 (y fr)).
  { destruct Hk as [Hk | Hk].
    - pose proof (count_year_mono day_tag (f_ cd) fr Cv Cr Av Ar ltac:(cbn [count]; lia)).
      pose proof (count_year_mono day_tag fr fe Cr Ce Ar Ae ltac:(cbn [count]; lia)). range.
    - pose proof (count_year_mono day_tag fr (f_ cd) Cr Cv Ar Av ltac:(cbn [count]; lia)).
      pose proof (count_year_mono day_tag fe fr Ce Cr Ae Ar ltac:(cbn [count]; lia)). range. }
  rewrite fits64_true in Sr by assumption.
  eexists. split; [exact Sr | split; [now apply valid_intro | split; assumption]].
Qed.

(** ** Weekdays *)

Lemma index_weekday_ok i : 0 <= i <= 12 -> exists w, index k_weekday_by_mon_off i = Ok w.
Proof.
  intros H.
  assert (C : i = 0 \/ i = 1 \/ i = 2 \/ i = 3 \/ i = 4 \/ i = 5 \/ i = 6 \/
              i = 7 \/ i = 8 \/ i = 9 \/ i = 10 \/ i = 11 \/ i = 12) by lia.
  repeat (destruct C as [C | C]); subst i; eexists; reflexivity.
Qed.

Lemma index_offsets_ok m0 : 1 <= m0 <= 12 ->
  exists o, index k_weekday_offsets m0 = Ok o /\ 0 <= o <= 6.
Proof.
  intros H. month_cases m0; eexists; (split; [reflexivity | lia]).
Qed.

Lemma get_weekday_ok (cs : civil_time second_tag) :
  canonical (f_ cs) -> exists w, get_weekday cs = Ok w.
Proof.
  intros C. destruct (canonical_d _ C) as (Hm & Hd).
  unfold get_weekday, year, month, day.
  set (yr := y (f_ cs)).
  rewrite add64_ok by range; cbn [bind].
  rewrite sub64_ok by (destruct (_ <? 3); cbn [Z.b2z]; range); cbn [bind].
  set (wd := 2400 + Z.rem yr 400 - Z.b2z (m (f_ cs) <? 3)).
  assert (Hwd : 1999 < wd < 2800) by (unfold wd; destruct (_ <? 3); cbn [Z.b2z]; lia).
  clearbody wd.
  rewrite sub64_ok by range; cbn [bind]. rewrite add64_ok by range; cbn [bind].
  rewrite add64_ok by range; cbn [bind].
  destruct (index_offsets_ok _ Hm) as (o & -> & Ho); cbn [bind].
  rewrite add64_ok by range; cbn [bind]. rewrite add64_ok by range; cbn [bind].
  apply index_weekday_ok. lia.
Qed.

Lemma scan_forw base wd :
  exists i j,
    scan_weekdays 14 k_weekdays_forw base 0 = Ok i /\
    scan_weekdays 14 k_weekdays_forw wd (i + 1) = Ok j /\
    1 <= j - i <= 7 /\ (wd = base -> j - i = 7).
Proof.
  destruct base, wd; eexists _, _;
  (split; [reflexivity | split; [reflexivity | split; [lia | intros E; try discriminate E; lia]]]).
Qed.

Lemma scan_back base wd :
  exists i j,
    scan_weekdays 14 k_weekdays_back base 0 = Ok i /\
    scan_weekdays 14 k_weekdays_back wd (i + 1) = Ok j /\
    1 <= j - i <= 7 /\ (wd = base -> j - i = 7).
Proof.
  destruct base, wd; eexists _, _;
  (split; [reflexivity | split; [reflexivity | split; [lia | intros E; try discriminate E; lia]]]).
Qed.

(** ** Steps and differences that return *)

Lemma plus_returns {T} (v w : civil_time T) n :
  valid v -> in64 n -> valid w ->
  count T (f_ w) = count T (f_ v) + n ->
  operator_plus v n = Ok w.
Proof.
  intros V Hn W E. destruct (operator_plus_spec v n V Hn) as (f & C & A & N & P).
  apply valid_inv in W. destruct W as (Cw & Aw & Iw).
  assert (f = f_ w) as -> by (apply (count_inj T); [assumption .. | lia]).
  rewrite P, (fits64_true _ Iw). now rewrite civil_time_eta.
Qed.

Lemma minus_returns {T} (v w : civil_time T) n :
  valid v -> in64 n -> valid w ->
  count T (f_ w) = count T (f_ v) - n ->
  operator_minus v n = Ok w.
Proof.
  intros V Hn W E. destruct (Z.eq_dec n int64_min) as [-> | Ne].
  - pose proof V as V0. pose proof W as W0. apply valid_inv in V0, W0.
    destruct V0 as (C & A & I), W0 as (Cw & Aw & Iw).
    unfold operator_minus. cbn [Z.eqb int64_min Pos.eqb negb].
    rewrite add64_ok by range; cbn [bind]. rewrite neg64_ok by range; cbn [bind].
    destruct (step_spec T (f_ v) (- (int64_min + 1)) C A I ltac:(range))
      as (g & Cg & Ag & Eg & Sg).
    assert (Ig : in64 (y g)).
    { pose proof (count_year_mono T (f_ v) g C Cg A Ag
                    ltac:(unfold int64_min in *; lia)).
      pose proof (count_year_mono T g (f_ w) Cg Cw Ag Aw
                    ltac:(unfold int64_min in *; lia)).
      range. }
    rewrite Sg, ret64_ok by assumption; cbn [bind].
    destruct (step_spec T g 1 Cg Ag Ig ltac:(range)) as (h & Ch & Ah & Eh & Sh).
    assert (h = f_ w) as ->.
    { apply (count_inj T); try assumption. unfold int64_min in *. lia. }
    rewrite Sh, ret64_ok by assumption; cbn [bind].
    rewrite of_fields_aligned by assumption. now rewrite civil_time_eta.
  - rewrite operator_minus_plus by assumption.
    apply plus_returns; try assumption; range.
Qed.

Lemma count_year_bound T f f' n :
  canonical f -> canonical f' -> count T f' = count T f + n ->
  - (Z.abs n + 4) <= y f' - y f <= Z.abs n + 4.
Proof.
  intros C C' E.
  pose proof (canonical_d _ C) as (Hm & Hd). pose proof (canonical_d _ C') as (Hm' & Hd').
  pose proof C as (V & Hh & Hi & Hs). pose proof C' as (V' & Hh' & Hi' & Hs').
  pose proof (year_distance (y f') (m f') (d f') (y f) (m f) (d f)
                (days f' - days f) V' Hm ltac:(unfold days; lia)) as (Y1 & Y2).
  destruct T; unfold count in E; unfold days in *; lia.
Qed.

Lemma plus_in_range {T} (v : civil_time T) n :
  valid v -> - 2 ^ 61 <= year v <= 2 ^ 61 -> - 2 ^ 61 <= n <= 2 ^ 61 ->
  exists c, operator_plus v n = Ok c /\ valid c.
Proof.
  intros V Y N. destruct (operator_plus_spec v n V ltac:(range)) as (f & C & A & E & P).
  pose proof V as V0. apply valid_inv in V0. destruct V0 as (Cv & Av & Iv).
  pose proof (count_year_bound T _ _ _ Cv C E) as B. unfold year in Y.
  assert (I : in64 (y f)) by (unfold in64, int64_min, int64_max; lia).
  exists (mk_civil_time T f). rewrite P, (fits64_true _ I).
  split; [reflexivity | now apply valid_intro].
Qed.

Lemma minus_in_range {T} (v : civil_time T) n :
  valid v -> - 2 ^ 61 <= year v <= 2 ^ 61 -> - 2 ^ 61 <= n <= 2 ^ 61 ->
  exists c, operator_minus v n = Ok c /\ valid c.
Proof.
  intros V Y N. rewrite operator_minus_plus by (unfold int64_min; range || lia).
  apply plus_in_range; [assumption | assumption | lia].
Qed.

Lemma count_bound T f :
  canonical f -> - 2 ^ 36 <= y f <= 2 ^ 36 -> - 2 ^ 61 <= count T f <= 2 ^ 61.
Proof.
  intros C Y. pose proof (canonical_d _ C) as (Hm & Hd).
  destruct C as (V & Hh & Hi & Hs).
  pose proof (doy_off_bounds _ Hm) as D.
  assert (B : - (366 * 2 ^ 36 + 720000) <= days f <= 366 * 2 ^ 36)
    by (unfold days, day_number, leaps, eyear_of; destruct (m f <=? 2); lia).
  destruct T; unfold count; lia.
Qed.

(** ** Boundary cases *)

(** The year accumulator of [n_mon] can overflow although the year of
    the normalised date is representable: month 13 of the last year,
    400 days back. *)
Example year_accumulator_overflow :
  make second_tag int64_max 13 (-400) 0 0 0 = Fail Overflow /\
  make second_tag int64_max 12 (-369) 0 0 0 =
    Ok (mk_civil_time second_tag (mkfields (int64_max - 1) 11 26 0 0 0)).
Proof. split; vm_compute; reflexivity. Qed.

(** The bounds 3, 24, 3 and 11 on the passes of the four loops are
    attained. *)
Example loop_bounds_attained :
  n_day_years 2 24 3 3 1601 146097 = Fail OutOfFuel /\
  n_day_years 3 23 3 3 1601 146097 = Fail OutOfFuel /\
  n_day_years 3 24 2 3 1601 146097 = Fail OutOfFuel /\
  n_day_years 3 24 3 3 1601 146097 = Ok (2000, 365) /\
  n_day_months 10 1 1971 365 = Fail OutOfFuel /\
  n_day_months 11 1 1971 365 = Ok (12, 31, 1971).
Proof. repeat split; vm_compute; reflexivity. Qed.

(** * The claims *)

(** C1: a civil time of any unit built from arbitrary signed 64-bit
    fields, and the result of [+ n], [- n], [++] and [--] on a valid
    civil time, has normalised fields ([1 <= month <= 12],
    [1 <= day <= days_per_month year month], [0 <= hour <= 23],
    [0 <= minute <= 59], [0 <= second <= 59]), aligned to its unit,
    unless the year accumulator overflows.  No other failure exists:
    the loops never run out of fuel and no table is read out of bounds.
    For a year within [-2^62, 2^62] the construction does not overflow,
    whatever the other fields are.  The steps return: for a year and a
    count within [-2^61, 2^61] none of [+ n], [- n], [++], [--]
    overflows, and at any year a step returns the valid value of the
    unit that lies [n] units (one unit) away whenever there is one. *)
Theorem normalization_total T y0 m0 d0 h0 i0 s0 (v : civil_time T) n :
  in64 y0 -> in64 m0 -> in64 d0 -> in64 h0 -> in64 i0 -> in64 s0 ->
  valid v -> in64 n ->
  valid_or_overflow (make T y0 m0 d0 h0 i0 s0) /\
  valid_or_overflow (operator_plus v n) /\
  valid_or_overflow (operator_minus v n) /\
  valid_or_overflow (operator_incr v) /\
  valid_or_overflow (operator_decr v) /\
  (- 2 ^ 62 <= y0 <= 2 ^ 62 -> exists c, make T y0 m0 d0 h0 i0 s0 = Ok c) /\
  (- 2 ^ 61 <= year v <= 2 ^ 61 -> - 2 ^ 61 <= n <= 2 ^ 61 ->
   (exists c, operator_plus v n = Ok c /\ valid c) /\
   (exists c, operator_minus v n = Ok c /\ valid c) /\
   (exists c, operator_incr v = Ok c /\ valid c) /\
   (exists c, operator_decr v = Ok c /\ valid c)) /\
  (forall w : civil_time T, valid w ->
   (count T (f_ w) = count T (f_ v) + n -> operator_plus v n = Ok w) /\
   (count T (f_ w) = count T (f_ v) - n -> operator_minus v n = Ok w) /\
   (count T (f_ w) = count T (f_ v) + 1 -> operator_incr v = Ok w) /\
   (count T (f_ w) = count T (f_ v) - 1 -> operator_decr v = Ok w)).
Proof.
  intros Hy Hm Hd Hh Hi Hs V Hn.
  assert (P : forall k, in64 k -> valid_or_overflow (operator_plus v k)).
  { intros k Hk. destruct (operator_plus_spec v k V Hk) as (f & C & A & _ & E).
    rewrite E. unfold valid_or_overflow.
    destruct (fits64 (y f)) eqn:F; [right | now left].
    eexists. split; [reflexivity|].
    apply valid_intro; try assumption. now apply fits64_in64. }
  assert (M : forall k, in64 k -> valid_or_overflow (operator_minus v k)).
  { intros k Hk.
    destruct (operator_minus_spec v k V Hk) as [E | (f & C & A & I & _ & E)];
      rewrite E; [now left | right].
    eexists. split; [reflexivity|]. now apply valid_intro. }
  split; [now apply make_spec|].
  split; [now apply P|]. split; [now apply M|].
  split; [apply P; range|]. split; [apply M; range|].
  split; [intros Hy'; now apply make_defined|].
  split.
  - intros Yv Nn. unfold operator_incr, operator_decr.
    split; [now apply plus_in_range|]. split; [now apply minus_in_range|].
    split; [apply plus_in_range; [assumption | assumption | lia]
           | apply minus_in_range; [assumption | assumption | lia]].
  - intros w W. unfold operator_incr, operator_decr.
    split; [intros E; now apply plus_returns|].
    split; [intros E; now apply minus_returns|].
    split; intros E; [apply plus_returns | apply minus_returns];
      try assumption; range.
Qed.

Lemma normalization_total_witness :
  valid_or_overflow (make hour_tag 2016 14 30 (-5) 61 (-1)) /\
  valid_or_overflow (operator_plus (default hour_tag) (-1)) /\
  valid_or_overflow (operator_minus (default hour_tag) (-1)) /\
  valid_or_overflow (operator_incr (default hour_tag)) /\
  valid_or_overflow (operator_decr (default hour_tag)) /\
  (exists c, make hour_tag 2016 14 30 (-5) 61 (-1) = Ok c) /\
  (exists c, operator_plus (default hour_tag) (-1) = Ok c /\ valid c) /\
  (exists c, operator_minus (default hour_tag) (-1) = Ok c /\ valid c) /\
  (exists c, operator_incr (default hour_tag) = Ok c /\ valid c) /\
  (exists c, operator_decr (default hour_tag) = Ok c /\ valid c) /\
  operator_plus (default hour_tag) (-1) =
    Ok (mk_civil_time hour_tag (mkfields 1969 12 31 23 0 0)) /\
  operator_decr (default hour_tag) =
    Ok (mk_civil_time hour_tag (mkfields 1969 12 31 23 0 0)).
Proof.
  destruct (normalization_total hour_tag 2016 14 30 (-5) 61 (-1)
              (default hour_tag) (-1))
    as (H1 & H2 & H3 & H4 & H5 & H6 & H7 & H8);
    try (unfold in64, int64_min, int64_max; lia); [reflexivity|].
  destruct H7 as (H7a & H7b & H7c & H7d); [cbn; lia | lia |].
  destruct (H8 (mk_civil_time hour_tag (mkfields 1969 12 31 23 0 0)) eq_refl)
    as (H8a & _ & _ & H8d).
  split; [exact H1 | split; [exact H2 | split; [exact H3 |]]].
  split; [exact H4 | split; [exact H5 |]].
  split; [apply H6; lia |].
  split; [exact H7a | split; [exact H7b | split; [exact H7c | split; [exact H7d |]]]].
  split; [apply H8a; vm_compute; reflexivity | apply H8d; vm_compute; reflexivity].
Defined.

(** C2: for a valid civil time [v] of any unit and any 64-bit count [n],
    the least 64-bit value included, if [v + n] does not overflow then
    [(v + n) - n] is [v] and the same-unit difference [(v + n) - v] is
    [n]. *)
Theorem plus_minus_roundtrip {T} (v w : civil_time T) n :
  valid v -> in64 n -> operator_plus v n = Ok w ->
  operator_minus w n = Ok v /\ operator_diff w v = Ok n.
Proof.
  intros V Hn P.
  destruct (operator_plus_spec v n V Hn) as (f & C & A & E & S).
  rewrite P in S. destruct (fits64 (y f)) eqn:F; [|discriminate]. injection S as ->.
  apply fits64_in64 in F.
  pose proof V as V'. apply valid_inv in V'. destruct V' as (Cv & Av & Iv).
  split.
  - unfold operator_minus. cbn [f_].
    destruct (Z.eqb_spec n int64_min) as [-> | Ne]; cbn [negb].
    + rewrite add64_ok by range; cbn [bind]. rewrite neg64_ok by range; cbn [bind].
      destruct (step_spec T f (- (int64_min + 1)) C A F ltac:(range))
        as (g & Cg & Ag & Eg & Sg).
      assert (Ig : in64 (y g)).
      { pose proof (count_year_mono T f g C Cg A Ag
                      ltac:(unfold int64_min in *; lia)).
        pose proof (count_year_mono T g (f_ v) Cg Cv Ag Av
                      ltac:(unfold int64_min in *; lia)).
        range. }
      rewrite Sg, ret64_ok by assumption; cbn [bind].
      destruct (step_spec T g 1 Cg Ag Ig ltac:(range)) as (h & Ch & Ah & Eh & Sh).
      assert (h = f_ v) as ->.
      { apply (count_inj T); try assumption. unfold int64_min in *. lia. }
      rewrite Sh, ret64_ok by assumption; cbn [bind].
      rewrite of_fields_aligned by assumption. now rewrite civil_time_eta.
    + rewrite neg64_ok by range; cbn [bind].
      destruct (step_spec T f (- n) C A F ltac:(range)) as (h & Ch & Ah & Eh & Sh).
      assert (h = f_ v) as ->.
      { apply (count_inj T); try assumption. lia. }
      rewrite Sh, ret64_ok by assumption; cbn [bind].
      rewrite of_fields_aligned by assumption. now rewrite civil_time_eta.
  - unfold operator_diff. cbn [f_].
    rewrite difference_ok; try assumption.
    + f_equal. lia.
    + replace (count T f - count T (f_ v)) with n by lia. assumption.
Qed.

Lemma plus_minus_roundtrip_witness :
  operator_minus
    (mk_civil_time second_tag (mkfields (-292277022657) 1 27 8 29 52))
    int64_min = Ok (default second_tag) /\
  operator_diff
    (mk_civil_time second_tag (mkfields (-292277022657) 1 27 8 29 52))
    (default second_tag) = Ok int64_min.
Proof.
  apply plus_minus_roundtrip.
  - reflexivity.
  - unfold in64, int64_min, int64_max. lia.
  - vm_compute. reflexivity.
Defined.

(** C3: for valid civil times [a] and [b] of the same unit, the
    difference [a - b] returns whenever the number of units between
    them is a 64-bit value, which it is at every unit for years within
    [-2^36, 2^36], and [b + (a - b)] is [a]; so is [b + n] for every
    [n] that [a - b] returns. *)
Theorem difference_roundtrip {T} (a b : civil_time T) :
  valid a -> valid b ->
  (in64 (count T (f_ a) - count T (f_ b)) ->
   exists n, operator_diff a b = Ok n /\ operator_plus b n = Ok a) /\
  (- 2 ^ 36 <= year a <= 2 ^ 36 -> - 2 ^ 36 <= year b <= 2 ^ 36 ->
   exists n, operator_diff a b = Ok n /\ operator_plus b n = Ok a) /\
  (forall n, operator_diff a b = Ok n -> operator_plus b n = Ok a).
Proof.
  intros Va Vb. pose proof Va as Va0. pose proof Vb as Vb0.
  apply valid_inv in Va0, Vb0.
  destruct Va0 as (Ca & Aa & Ia), Vb0 as (Cb & Ab & Ib).
  assert (R : in64 (count T (f_ a) - count T (f_ b)) ->
              exists n, operator_diff a b = Ok n /\ operator_plus b n = Ok a).
  { intros H. exists (count T (f_ a) - count T (f_ b)). split.
    - unfold operator_diff. now apply difference_ok.
    - apply plus_returns; try assumption. lia. }
  split; [exact R | split].
  - intros Ya Yb. apply R. unfold year in *.
    pose proof (count_bound T _ Ca Ya). pose proof (count_bound T _ Cb Yb).
    unfold in64, int64_min, int64_max. lia.
  - intros n D. unfold operator_diff in D.
    apply difference_inv in D. destruct D as [-> Hn].
    apply plus_returns; try assumption. lia.
Qed.

Lemma difference_roundtrip_witness :
  (exists n,
     operator_diff (mk_civil_time second_tag (mkfields 2001 1 1 0 0 1))
                   (mk_civil_time second_tag (mkfields 1999 12 31 23 59 59)) = Ok n /\
     operator_plus (mk_civil_time second_tag (mkfields 1999 12 31 23 59 59)) n =
       Ok (mk_civil_time second_tag (mkfields 2001 1 1 0 0 1))) /\
  operator_plus (mk_civil_time second_tag (mkfields 1999 12 31 23 59 59)) 31622402 =
    Ok (mk_civil_time second_tag (mkfields 2001 1 1 0 0 1)).
Proof.
  destruct (difference_roundtrip
              (mk_civil_time second_tag (mkfields 2001 1 1 0 0 1))
              (mk_civil_time second_tag (mkfields 1999 12 31 23 59 59)))
    as (_ & H2 & H3).
  - reflexivity.
  - reflexivity.
  - split.
    + apply H2; cbn; lia.
    + apply H3. vm_compute. reflexivity.
Defined.

(** C4: in exact integer arithmetic [day_difference] is the plain
    difference [ymd_ord y1 m1 d1 - ymd_ord y2 m2 d2], for all date
    triples: taking both years modulo 400 and moving two 400-year
    cycles (2 * 146097 days) between the accumulators when their signs
    disagree leaves [c4_diff / 400 * 146097 + delta] unchanged.  The
    checked [day_difference] returns this value whenever it returns. *)
Theorem day_difference_exact_naive y1 m1 d1 y2 m2 d2 :
  day_difference_exact y1 m1 d1 y2 m2 d2 =
    ymd_ord_exact y1 m1 d1 - ymd_ord_exact y2 m2 d2 /\
  (forall r, day_difference y1 m1 d1 y2 m2 d2 = Ok r ->
     r = day_difference_exact y1 m1 d1 y2 m2 d2).
Proof.
  split; [apply day_difference_exact_eq|].
  intros r H. now apply day_difference_inv in H.
Qed.

Lemma day_difference_exact_naive_witness :
  day_difference_exact 2001 1 1 1999 12 31 =
    ymd_ord_exact 2001 1 1 - ymd_ord_exact 1999 12 31 /\
  367 = day_difference_exact 2001 1 1 1999 12 31.
Proof.
  destruct (day_difference_exact_naive 2001 1 1 1999 12 31) as [H1 H2].
  split; [exact H1|]. apply H2. vm_compute. reflexivity.
Defined.

(** C5, as stated: the accessors of every field finer than the unit
    read as zero.  It fails for the year-unit value of 2016, whose
    month and day read as 1. *)
Lemma finer_fields_zero_fails :
  make year_tag 2016 6 15 12 30 45 =
    Ok (mk_civil_time year_tag (mkfields 2016 1 1 0 0 0)) /\
  valid (mk_civil_time year_tag (mkfields 2016 1 1 0 0 0)) /\
  month (mk_civil_time year_tag (mkfields 2016 1 1 0 0 0)) = 1 /\
  day (mk_civil_time year_tag (mkfields 2016 1 1 0 0 0)) = 1 /\
  ~ finer_fields_zero (mk_civil_time year_tag (mkfields 2016 1 1 0 0 0)).
Proof.
  split; [reflexivity | split; [reflexivity | split; [reflexivity | split]]].
  - reflexivity.
  - intros [H _]. discriminate H.
Qed.

(** C5, amended: every civil time reads each field finer than its unit
    as the least normalised value of that field, 1 for month and day
    and 0 for hour, minute and second.  This holds for every valid
    value, for every value built by the designated constructor and for
    the default value. *)
Theorem finer_fields_read_minimal T (c : civil_time T) (f : fields) :
  (valid c -> finer_fields_minimal c) /\
  finer_fields_minimal (of_fields T f) /\
  finer_fields_minimal (default T).
Proof.
  split; [| split].
  - intros V. apply valid_inv in V. destruct V as (_ & A & _).
    apply aligned_inv in A.
    destruct T; cbn; unfold month, day, hour, minute, second; tauto.
  - destruct T; cbn; auto.
  - destruct T; cbn; auto.
Qed.

Lemma finer_fields_read_minimal_witness :
  finer_fields_minimal (mk_civil_time year_tag (mkfields 2016 1 1 0 0 0)) /\
  finer_fields_minimal (of_fields month_tag (mkfields 2016 6 15 12 30 45)) /\
  finer_fields_minimal (default day_tag).
Proof.
  destruct (finer_fields_read_minimal year_tag
              (mk_civil_time year_tag (mkfields 2016 1 1 0 0 0))
              (mkfields 2016 6 15 12 30 45)) as (H1 & _ & _).
  destruct (finer_fields_read_minimal month_tag (default month_tag)
              (mkfields 2016 6 15 12 30 45)) as (_ & H2 & _).
  destruct (finer_fields_read_minimal day_tag (default day_tag)
              (mkfields 2016 6 15 12 30 45)) as (_ & _ & H3).
  split; [apply H1; reflexivity | split; [exact H2 | exact H3]].
Defined.

(** C6: construction normalises the out-of-range fixtures:
    2016-02-30 is 2016-03-01, 0001-13-01 is 0002-01-01 and
    1970-01-01 -1:00:00 is 1969-12-31 23:00:00. *)
Theorem normalization_fixtures T :
  make T 2016 2 30 0 0 0 = make T 2016 3 1 0 0 0 /\
  make T 1 13 1 0 0 0 = make T 2 1 1 0 0 0 /\
  make T 1970 1 1 (-1) 0 0 = make T 1969 12 31 23 0 0 /\
  make second_tag 2016 2 30 0 0 0 =
    Ok (mk_civil_time second_tag (mkfields 2016 3 1 0 0 0)) /\
  make second_tag 1 13 1 0 0 0 =
    Ok (mk_civil_time second_tag (mkfields 2 1 1 0 0 0)) /\
  make second_tag 1970 1 1 (-1) 0 0 =
    Ok (mk_civil_time second_tag (mkfields 1969 12 31 23 0 0)) /\
  (exists a b, make second_tag 2016 2 30 0 0 0 = Ok a /\
     make second_tag 2016 3 1 0 0 0 = Ok b /\ operator_eq a b = true) /\
  (exists a b, make second_tag 1 13 1 0 0 0 = Ok a /\
     make second_tag 2 1 1 0 0 0 = Ok b /\ operator_eq a b = true) /\
  (exists a b, make second_tag 1970 1 1 (-1) 0 0 = Ok a /\
     make second_tag 1969 12 31 23 0 0 = Ok b /\ operator_eq a b = true).
Proof.
  split; [destruct T; vm_compute; reflexivity|].
  split; [destruct T; vm_compute; reflexivity|].
  split; [destruct T; vm_compute; reflexivity|].
  split; [vm_compute; reflexivity|].
  split; [vm_compute; reflexivity|].
  split; [vm_compute; reflexivity|].
  split; [| split];
    eexists _, _;
    (split; [vm_compute; reflexivity
            | split; [vm_compute; reflexivity | vm_compute; reflexivity]]).
Qed.

(** C7: in [n_day], once the day count is reduced modulo 146097, the
    century loop, the 4-year loop, the single-year loop and the month
    loop reach their [break] after at most 4, 25, 4 and 11 passes
    through their bodies, whatever the size of the day delta; [n_day]
    returns a result or reports a year overflow, it never runs on. *)
Theorem n_day_loops_bounded y0 m0 d0 cd h0 i0 s0 :
  in64 y0 -> in64 d0 -> in64 cd -> 1 <= m0 <= 12 ->
  exists ey d1 ey2 d2 m3 d3 ey3,
    n_day_cycles y0 m0 d0 cd = Ok (ey, d1) /\
    0 < d1 <= 146097 /\
    (forall fc f4 f1, (4 <= fc)%nat -> (25 <= f4)%nat -> (4 <= f1)%nat ->
       n_day_years fc f4 f1 m0 ey d1 = Ok (ey2, d2)) /\
    (forall fm, (11 <= fm)%nat ->
       n_day_months fm m0 ey2 d2 = Ok (m3, d3, ey3)) /\
    ((exists f, n_day y0 m0 d0 cd h0 i0 s0 = Ok f) \/
     n_day y0 m0 d0 cd h0 i0 s0 = Fail Overflow).
Proof.
  intros Hy Hd Hcd Hm.
  destruct (n_day_cycles_spec y0 m0 d0 cd Hy Hd Hcd Hm)
    as (e1 & d1 & E1 & B1 & D1 & _ & N1).
  destruct (n_day_years_spec m0 e1 d1 Hm B1 D1) as (e2 & d2 & E2 & B2 & D2 & N2).
  destruct (n_day_months_spec m0 e2 d2 Hm) as (M & D & e3 & E3 & V3 & B3 & N3);
    [unfold acc_ok in *; lia | exact D2 |].
  exists e1, d1, e2, d2, M, D, e3.
  split; [exact E1 | split; [exact D1 | split; [| split]]].
  - intros fc f4 f1 Hc H4 H1. apply E2. right. lia.
  - intros fm Hf. apply E3. now right.
  - destruct (n_day_spec y0 m0 d0 cd h0 i0 s0 Hy Hd Hcd Hm)
      as (Y & M' & D' & _ & _ & E).
    rewrite E. unfold chk64. destruct (fits64 Y); cbn [bind]; [left; eauto | now right].
Qed.

Lemma n_day_loops_bounded_witness :
  exists ey d1 ey2 d2 m3 d3 ey3,
    n_day_cycles 1900 3 1 146096 = Ok (ey, d1) /\
    0 < d1 <= 146097 /\
    n_day_years 4 25 4 3 ey d1 = Ok (ey2, d2) /\
    n_day_months 11 3 ey2 d2 = Ok (m3, d3, ey3) /\
    ((exists f, n_day 1900 3 1 146096 0 0 0 = Ok f) \/
     n_day 1900 3 1 146096 0 0 0 = Fail Overflow).
Proof.
  destruct (n_day_loops_bounded 1900 3 1 146096 0 0 0)
    as (ey & d1 & ey2 & d2 & m3 & d3 & ey3 & E1 & D1 & E2 & E3 & E4);
    try (unfold in64, int64_min, int64_max; lia).
  exists ey, d1, ey2, d2, m3, d3, ey3.
  split; [exact E1 | split; [exact D1 | split; [| split; [| exact E4]]]].
  - apply E2; lia.
  - apply E3; lia.
Defined.

(** C8: for a valid day-aligned [cd] and any weekday [wd],
    [next_weekday cd wd] is later than [cd] and not later than
    [cd + 7], and [prev_weekday cd wd] is earlier than [cd] and not
    earlier than [cd - 7], as long as [cd + 7], respectively [cd - 7],
    is representable.  When [wd] is the weekday of [cd] the result is
    exactly [cd + 7], respectively [cd - 7]. *)
Theorem weekday_search_window (cd : civil_time day_tag) (wd : weekday) :
  valid cd ->
  (forall e, operator_plus cd 7 = Ok e ->
     exists r, next_weekday cd wd = Ok r /\
       operator_lt cd r = true /\ operator_le r e = true /\
       (get_weekday (convert second_tag cd) = Ok wd -> r = e)) /\
  (forall e, operator_minus cd 7 = Ok e ->
     exists r, prev_weekday cd wd = Ok r /\
       operator_le e r = true /\ operator_lt r cd = true /\
       (get_weekday (convert second_tag cd) = Ok wd -> r = e)).
Proof.
  intros V. pose proof V as V'. apply valid_inv in V'. destruct V' as (Cv & Av & Iv).
  destruct (get_weekday_ok (convert second_tag cd)) as (base & Hbase); [exact Cv|].
  split; intros e P.
  - destruct (scan_forw base wd) as (i & j & Hi & Hj & Hk & Hsame).
    destruct (plus_between cd e (j - i) 7 V ltac:(range) P ltac:(lia))
      as (r & Pr & Vr & Dr & De).
    assert (Ve : valid e).
    { destruct (operator_plus_spec cd 7 V ltac:(range)) as (fe & Ce & Ae & _ & Se).
      rewrite P in Se. destruct (fits64 (y fe)) eqn:Fe; [|discriminate].
      injection Se as ->. apply valid_intro; try assumption. now apply fits64_in64. }
    exists r. unfold next_weekday. rewrite Hbase; cbn [bind]. rewrite Hi; cbn [bind].
    rewrite Hj; cbn [bind]. split; [exact Pr|].
    split; [apply day_order; try assumption; lia|].
    split.
    + unfold operator_le. apply negb_true_iff. apply not_true_iff_false.
      rewrite day_order by assumption. lia.
    + intros [= ->]. rewrite (Hsame eq_refl) in Pr. congruence.
  - destruct (scan_back base wd) as (i & j & Hi & Hj & Hk & Hsame).
    rewrite operator_minus_plus in P by (unfold int64_min; range || lia).
    cbn [Z.opp] in P.
    destruct (plus_between cd e (- (j - i)) (-7) V ltac:(range) P ltac:(lia))
      as (r & Pr & Vr & Dr & De).
    assert (Ve : valid e).
    { destruct (operator_plus_spec cd (-7) V ltac:(range)) as (fe & Ce & Ae & _ & Se).
      rewrite P in Se. destruct (fits64 (y fe)) eqn:Fe; [|discriminate].
      injection Se as ->. apply valid_intro; try assumption. now apply fits64_in64. }
    exists r. unfold prev_weekday. rewrite Hbase; cbn [bind]. rewrite Hi; cbn [bind].
    rewrite Hj; cbn [bind].
    rewrite operator_minus_plus by (unfold int64_min; range || lia).
    split; [exact Pr|].
    split.
    + unfold operator_le. apply negb_true_iff. apply not_true_iff_false.
      rewrite day_order by assumption. lia.
    + split; [apply day_order; try assumption; lia|].
      intros [= ->]. rewrite (Hsame eq_refl) in Pr. cbn [Z.opp] in Pr. congruence.
Qed.

Lemma weekday_search_window_witness :
  (exists r, next_weekday (default day_tag) thursday = Ok r /\
     operator_lt (default day_tag) r = true /\
     operator_le r (mk_civil_time day_tag (mkfields 1970 1 8 0 0 0)) = true /\
     r = mk_civil_time day_tag (mkfields 1970 1 8 0 0 0)) /\
  (exists r, prev_weekday (default day_tag) thursday = Ok r /\
     operator_le (mk_civil_time day_tag (mkfields 1969 12 25 0 0 0)) r = true /\
     operator_lt r (default day_tag) = true /\
     r = mk_civil_time day_tag (mkfields 1969 12 25 0 0 0)).
Proof.
  destruct (weekday_search_window (default day_tag) thursday eq_refl) as [N P].
  split.
  - destruct (N (mk_civil_time day_tag (mkfields 1970 1 8 0 0 0)))
      as (r & H1 & H2 & H3 & H4); [vm_compute; reflexivity|].
    exists r. split; [exact H1 | split; [exact H2 | split; [exact H3 |]]].
    apply H4. vm_compute. reflexivity.
  - destruct (P (mk_civil_time day_tag (mkfields 1969 12 25 0 0 0)))
      as (r & H1 & H2 & H3 & H4); [vm_compute; reflexivity|].
    exists r. split; [exact H1 | split; [exact H2 | split; [exact H3 |]]].
    apply H4. vm_compute. reflexivity.
Defined.

(** C9: the weekday of 1970-01-01 is Thursday and the weekday of
    2000-01-01 is Saturday. *)
Theorem weekday_fixtures :
  (exists c, make second_tag 1970 1 1 0 0 0 = Ok c /\
     get_weekday c = Ok thursday) /\
  (exists c, make second_tag 2000 1 1 0 0 0 = Ok c /\
     get_weekday c = Ok saturday) /\
  get_weekday (default second_tag) = Ok thursday.
Proof.
  split; [| split].
  - eexists. split; [vm_compute; reflexivity | vm_compute; reflexivity].
  - eexists. split; [vm_compute; reflexivity | vm_compute; reflexivity].
  - vm_compute. reflexivity.
Qed.

(** C10: a default-constructed civil time of any unit holds
    1970-01-01 00:00:00; it is normalised, aligned to every unit, and
    equal to the value constructed from the year 1970 alone, the other
    arguments at their defaults. *)
Theorem default_is_epoch T :
  f_ (default T) = mkfields 1970 1 1 0 0 0 /\
  valid (default T) /\
  (forall U, aligned U (f_ (default T))) /\
  make T 1970 1 1 0 0 0 = Ok (default T) /\
  (forall U, operator_eq (default T) (default U) = true).
Proof.
  split; [reflexivity | split; [apply valid_default | split; [| split]]].
  - intros U. now destruct U.
  - now destruct T.
  - intros U. reflexivity.
Qed.

(** * Further properties *)

(** ** Order and counts *)

Lemma count_lt_secs T f1 f2 :
  canonical f1 -> canonical f2 -> count T f1 < count T f2 -> secs f1 < secs f2.
Proof.
  intros C1 C2. pose proof C1 as (V1 & H1 & I1 & S1). pose proof C2 as (V2 & H2 & I2 & S2).
  pose proof (day_number_lt _ _ _ _ _ _ V1 V2) as L1.
  pose proof (day_number_lt _ _ _ _ _ _ V2 V1) as L2.
  destruct V1 as (M1 & D1), V2 as (M2 & D2).
  destruct T; unfold count, secs, days, clock; lia.
Qed.

Lemma secs_le_count T f1 f2 :
  canonical f1 -> canonical f2 -> secs f1 <= secs f2 -> count T f1 <= count T f2.
Proof.
  intros C1 C2 L. destruct (Z.le_gt_cases (count T f1) (count T f2)) as [H | H]; [exact H |].
  pose proof (count_lt_secs T f2 f1 C2 C1 H). lia.
Qed.

Lemma canonical_in64 f :
  canonical f -> in64 (m f) /\ in64 (d f) /\ in64 (hh f) /\ in64 (mm f) /\ in64 (ss f).
Proof.
  intros C. pose proof (canonical_d f C) as (? & ?). destruct C as (_ & ? & ? & ?).
  repeat split; range.
Qed.

Lemma n_sec_canonical f :
  canonical f -> in64 (y f) ->
  n_sec (y f) (m f) (d f) (hh f) (mm f) (ss f) = Ok f.
Proof.
  intros C I. pose proof (canonical_in64 f C) as (Im & Id & Ih & Ii & Is).
  pose proof (canonical_d f C) as (Hm & _).
  destruct (n_sec_total (y f) (m f) (d f) (hh f) (mm f) (ss f) I Hm Id Ih Ii Is)
    as (g & Cg & Sg & E).
  assert (g = f) by (apply canonical_unique; [exact Cg | exact C | exact Sg]).
  subst g. rewrite E. now apply ret64_ok.
Qed.

Lemma make_canonical T f :
  canonical f -> in64 (y f) ->
  make T (y f) (m f) (d f) (hh f) (mm f) (ss f) = Ok (of_fields T f).
Proof. intros C I. unfold make. now rewrite n_sec_canonical. Qed.

(** X1: a valid value is rebuilt from its own fields.  Passing the six
    accessors of a valid [c] to the constructor of unit [T] gives the
    conversion of [c] to [T], without overflow; for [T] the unit of [c]
    that is [c] itself. *)
Theorem make_of_own_fields {U} (T : tag) (c : civil_time U) :
  valid c ->
  make T (year c) (month c) (day c) (hour c) (minute c) (second c)
    = Ok (convert T c) /\
  convert U c = c.
Proof.
  intros V. apply valid_inv in V. destruct V as (C & A & I). split.
  - unfold make, year, month, day, hour, minute, second.
    rewrite (n_sec_canonical _ C I). reflexivity.
  - unfold convert. rewrite (of_fields_aligned _ _ A). apply civil_time_eta.
Qed.

Lemma make_of_own_fields_witness :
  valid (mk_civil_time day_tag (mkfields 2016 2 29 0 0 0)) /\
  make hour_tag 2016 2 29 0 0 0 =
    Ok (mk_civil_time hour_tag (mkfields 2016 2 29 0 0 0)).
Proof.
  split; [reflexivity |].
  exact (proj1 (make_of_own_fields hour_tag
                  (mk_civil_time day_tag (mkfields 2016 2 29 0 0 0)) eq_refl)).
Defined.

(** X2: [operator+] is strictly increasing in the count: for a valid [v]
    and [n1 < n2], when both sums are representable, [v + n1 < v + n2]
    under [operator<] (and not the other way round). *)
Theorem plus_strictly_increasing {T} (v a b : civil_time T) (n1 n2 : Z) :
  valid v -> in64 n1 -> in64 n2 -> n1 < n2 ->
  operator_plus v n1 = Ok a -> operator_plus v n2 = Ok b ->
  operator_lt a b = true /\ operator_lt b a = false.
Proof.
  intros V I1 I2 L Ea Eb.
  destruct (operator_plus_spec v n1 V I1) as (f1 & C1 & A1 & N1 & P1).
  destruct (operator_plus_spec v n2 V I2) as (f2 & C2 & A2 & N2 & P2).
  rewrite Ea in P1. rewrite Eb in P2.
  destruct (fits64 (y f1)); [|discriminate]. destruct (fits64 (y f2)); [|discriminate].
  injection P1 as ->. injection P2 as ->.
  assert (S : secs f1 < secs f2) by (apply (count_lt_secs T); [assumption .. | lia]).
  split.
  - apply operator_lt_secs; assumption.
  - destruct (operator_lt _ _) eqn:E; [|reflexivity].
    apply operator_lt_secs in E; [cbn [f_] in E; lia | assumption ..].
Qed.

Lemma plus_strictly_increasing_witness :
  operator_lt (mk_civil_time month_tag (mkfields 1969 12 1 0 0 0))
              (mk_civil_time month_tag (mkfields 1971 2 1 0 0 0)) = true /\
  operator_lt (mk_civil_time month_tag (mkfields 1971 2 1 0 0 0))
              (mk_civil_time month_tag (mkfields 1969 12 1 0 0 0)) = false.
Proof.
  apply (plus_strictly_increasing (default month_tag)
           (mk_civil_time month_tag (mkfields 1969 12 1 0 0 0))
           (mk_civil_time month_tag (mkfields 1971 2 1 0 0 0)) (-1) 13).
  - reflexivity.
  - unfold in64, int64_min, int64_max. lia.
  - unfold in64, int64_min, int64_max. lia.
  - lia.
  - vm_compute. reflexivity.
  - vm_compute. reflexivity.
Defined.

(** X3: steps compose.  When [v + a] is representable, stepping it by
    [b] is the same computation as stepping [v] by [a + b]: the same
    value, or overflow on both sides. *)
Theorem plus_plus {T} (v w : civil_time T) (a b : Z) :
  valid v -> in64 a -> in64 b -> in64 (a + b) ->
  operator_plus v a = Ok w ->
  operator_plus w b = operator_plus v (a + b).
Proof.
  intros V Ia Ib Iab Ew.
  destruct (operator_plus_spec v a V Ia) as (f1 & C1 & A1 & N1 & P1).
  rewrite Ew in P1. destruct (fits64 (y f1)) eqn:F1; [|discriminate].
  injection P1 as ->.
  assert (W : valid (mk_civil_time T f1))
    by (apply valid_intro; [assumption .. | now apply fits64_in64]).
  destruct (operator_plus_spec _ b W Ib) as (f2 & C2 & A2 & N2 & P2).
  destruct (operator_plus_spec v (a + b) V Iab) as (f3 & C3 & A3 & N3 & P3).
  cbn [f_] in N2.
  assert (f2 = f3) by (apply (count_inj T); [assumption .. | lia]).
  subst f3. now rewrite P2, P3.
Qed.

Lemma plus_plus_witness :
  operator_plus (mk_civil_time day_tag (mkfields 1970 3 1 0 0 0)) (-60) =
  operator_plus (default day_tag) (59 + -60).
Proof.
  apply (plus_plus (default day_tag)
           (mk_civil_time day_tag (mkfields 1970 3 1 0 0 0)) 59 (-60)).
  - reflexivity.
  - unfold in64, int64_min, int64_max. lia.
  - unfold in64, int64_min, int64_max. lia.
  - unfold in64, int64_min, int64_max. lia.
  - vm_compute. reflexivity.
Defined.

(** X4: [operator<] is a strict total order on the six fields, for
    values of any three units: it is irreflexive, transitive and
    asymmetric, two values neither of which is below the other have the
    same fields, and [operator==] holds exactly for equal fields. *)
Theorem operator_lt_strict_total_order {T1 T2 T3}
  (a : civil_time T1) (b : civil_time T2) (c : civil_time T3) :
  operator_lt a a = false /\
  (operator_lt a b = true -> operator_lt b c = true -> operator_lt a c = true) /\
  (operator_lt a b = true -> operator_lt b a = false) /\
  (operator_lt a b = false -> operator_lt b a = false -> f_ a = f_ b) /\
  (operator_eq a b = true <-> f_ a = f_ b).
Proof.
  unfold operator_lt, operator_eq, year, month, day, hour, minute, second.
  destruct a as [[y1 m1 d1 h1 i1 s1]], b as [[y2 m2 d2 h2 i2 s2]],
    c as [[y3 m3 d3 h3 i3 s3]]. cbn [f_ y m d hh mm ss].
  repeat split; try lia.
  - intros H1 H2. f_equal; lia.
  - intros H. f_equal; lia.
  - intros [= -> -> -> -> -> ->]. lia.
Qed.

(** X5: the six relational operators agree with one another, for values
    of any two units: [<=] is [<] or [==], [>=] is [>] or [==], [>] is
    the negation of [<=], [a >= b] is [b <= a], and [!=] is [<] or [>]. *)
Theorem comparison_operators_agree {T1 T2} (a : civil_time T1) (b : civil_time T2) :
  operator_le a b = (operator_lt a b || operator_eq a b) /\
  operator_ge a b = (operator_gt a b || operator_eq a b) /\
  operator_gt a b = negb (operator_le a b) /\
  operator_ge a b = operator_le b a /\
  operator_ne a b = (operator_lt a b || operator_gt a b).
Proof.
  unfold operator_le, operator_ge, operator_gt, operator_ne, operator_lt, operator_eq,
    year, month, day, hour, minute, second.
  repeat split; apply Bool.eq_true_iff_eq; lia.
Qed.

(** ** Failures of the differences *)

Lemma only_overflow_ok {A} (a : A) : only_overflow (Ok a).
Proof. intros e H. discriminate. Qed.

Lemma only_overflow_chk x : only_overflow (chk64 x).
Proof. intros e. unfold chk64. destruct (fits64 x); congruence. Qed.

Lemma only_overflow_bind {A B} (r : result A) (k : A -> result B) :
  only_overflow r -> (forall a, only_overflow (k a)) -> only_overflow (bind r k).
Proof.
  intros Hr Hk e. destruct r as [a | e']; cbn [bind].
  - apply Hk.
  - intros [= <-]. now apply Hr.
Qed.

Ltac only_overflow :=
  repeat first
    [ apply only_overflow_ok
    | apply only_overflow_chk
    | apply only_overflow_bind; [| intros ? ]
    | match goal with
      | |- only_overflow (if ?c then _ else _) => destruct c
      | |- only_overflow (match ?p with pair _ _ => _ end) => destruct p
      end ].

Lemma only_overflow_ymd_ord y0 m0 d0 : only_overflow (ymd_ord y0 m0 d0).
Proof. unfold ymd_ord, add64, sub64, mul64. only_overflow. Qed.

Lemma only_overflow_day_difference y1 m1 d1 y2 m2 d2 :
  only_overflow (day_difference y1 m1 d1 y2 m2 d2).
Proof.
  unfold day_difference.
  repeat first
    [ apply only_overflow_ymd_ord
    | apply only_overflow_ok
    | apply only_overflow_chk
    | apply only_overflow_bind; [| intros ? ]
    | match goal with
      | |- only_overflow (if ?c then _ else _) => destruct c
      | |- only_overflow (match ?p with pair _ _ => _ end) => destruct p
      end
    | progress unfold add64, sub64, mul64 ].
Qed.

Lemma only_overflow_scale_add v f a : only_overflow (scale_add v f a).
Proof. unfold scale_add, add64, sub64, mul64. only_overflow. Qed.

Lemma only_overflow_difference T f1 f2 : only_overflow (difference T f1 f2).
Proof.
  destruct T; unfold difference, difference_second, difference_minute, difference_hour,
    difference_day, difference_month, difference_year;
  repeat first
    [ apply only_overflow_day_difference
    | apply only_overflow_scale_add
    | apply only_overflow_chk
    | apply only_overflow_bind; [| intros ? ]
    | progress unfold sub64 ].
Qed.

Lemma chk64_char (r : result Z) x :
  only_overflow r ->
  (forall a, r = Ok a -> a = x /\ in64 a) ->
  (in64 x -> r = Ok x) ->
  r = chk64 x.
Proof.
  intros O Inv Ok'. unfold chk64. destruct (fits64 x) eqn:F.
  - apply Ok'. now apply fits64_in64.
  - destruct r as [a | e].
    + destruct (Inv a eq_refl) as [-> I]. apply fits64_true in I. congruence.
    + now rewrite (O e eq_refl).
Qed.

Lemma difference_chk T f1 f2 :
  canonical f1 -> canonical f2 -> in64 (y f1) -> in64 (y f2) ->
  difference T f1 f2 = chk64 (count T f1 - count T f2).
Proof.
  intros C1 C2 I1 I2. apply chk64_char.
  - apply only_overflow_difference.
  - apply difference_inv.
  - now apply difference_ok.
Qed.

(** X6: the sign of a same-unit difference is the order: for valid [a]
    and [b] with [a - b = n], [n < 0] exactly when [a < b], [n = 0]
    exactly when [a] and [b] are the same value, and [0 < n] exactly
    when [a > b]. *)
Theorem diff_sign {T} (a b : civil_time T) (n : Z) :
  valid a -> valid b -> operator_diff a b = Ok n ->
  (n < 0 <-> operator_lt a b = true) /\
  (n = 0 <-> a = b) /\
  (0 < n <-> operator_gt a b = true).
Proof.
  intros Va Vb E. apply valid_inv in Va, Vb.
  destruct Va as (Ca & Aa & Ia), Vb as (Cb & Ab & Ib).
  apply difference_inv in E. destruct E as [-> _].
  unfold operator_gt. rewrite !operator_lt_secs by assumption.
  pose proof (count_lt_secs T _ _ Ca Cb). pose proof (count_lt_secs T _ _ Cb Ca).
  pose proof (secs_le_count T _ _ Ca Cb). pose proof (secs_le_count T _ _ Cb Ca).
  assert (J : count T (f_ a) = count T (f_ b) -> a = b).
  { intros E. rewrite <- (civil_time_eta T a), <- (civil_time_eta T b). f_equal.
    now apply (count_inj T). }
  assert (K : a = b -> secs (f_ a) = secs (f_ b)) by (now intros ->).
  assert (K' : count T (f_ a) = count T (f_ b) -> secs (f_ a) = secs (f_ b))
    by (intros E; apply K, J, E).
  repeat split; try lia.
  intros E. apply J. lia.
Qed.

Lemma diff_sign_witness :
  (-2 < 0 <->
   operator_lt (mk_civil_time hour_tag (mkfields 1969 12 31 23 0 0))
               (mk_civil_time hour_tag (mkfields 1970 1 1 1 0 0)) = true) /\
  (-2 = 0 <->
   mk_civil_time hour_tag (mkfields 1969 12 31 23 0 0) =
   mk_civil_time hour_tag (mkfields 1970 1 1 1 0 0)) /\
  (0 < -2 <->
   operator_gt (mk_civil_time hour_tag (mkfields 1969 12 31 23 0 0))
               (mk_civil_time hour_tag (mkfields 1970 1 1 1 0 0)) = true).
Proof.
  apply (diff_sign (mk_civil_time hour_tag (mkfields 1969 12 31 23 0 0))
           (mk_civil_time hour_tag (mkfields 1970 1 1 1 0 0)) (-2)).
  - reflexivity.
  - reflexivity.
  - vm_compute. reflexivity.
Defined.

(** X7: same-unit differences are antisymmetric and add up.  For valid
    [a], [b], [c] with [a - b = n] and [b - c = k], [b - a] is [- n]
    and [a - c] is [n + k], each failing only when that number is not a
    64-bit value. *)
Theorem diff_antisymmetric_additive {T} (a b c : civil_time T) (n k : Z) :
  valid a -> valid b -> valid c ->
  operator_diff a b = Ok n -> operator_diff b c = Ok k ->
  operator_diff b a = chk64 (- n) /\
  operator_diff a c = chk64 (n + k).
Proof.
  intros Va Vb Vc E1 E2. apply valid_inv in Va, Vb, Vc.
  destruct Va as (Ca & Aa & Ia), Vb as (Cb & Ab & Ib), Vc as (Cc & Ac & Ic).
  apply difference_inv in E1, E2. destruct E1 as [-> _], E2 as [-> _].
  unfold operator_diff. rewrite !difference_chk by assumption.
  split; f_equal; lia.
Qed.

Lemma diff_antisymmetric_additive_witness :
  operator_diff (mk_civil_time day_tag (mkfields 2000 3 1 0 0 0))
                (mk_civil_time day_tag (mkfields 2000 2 1 0 0 0)) = chk64 (- -29) /\
  operator_diff (mk_civil_time day_tag (mkfields 2000 2 1 0 0 0))
                (mk_civil_time day_tag (mkfields 2001 3 1 0 0 0)) = chk64 (-29 + -365).
Proof.
  apply (diff_antisymmetric_additive
           (mk_civil_time day_tag (mkfields 2000 2 1 0 0 0))
           (mk_civil_time day_tag (mkfields 2000 3 1 0 0 0))
           (mk_civil_time day_tag (mkfields 2001 3 1 0 0 0)) (-29) (-365)).
  - reflexivity.
  - reflexivity.
  - reflexivity.
  - vm_compute. reflexivity.
  - vm_compute. reflexivity.
Defined.

(** ** Conversions between units *)

Lemma aligned_base T U f : is_base_of T U = true -> aligned U f -> aligned T f.
Proof.
  intros B A. apply aligned_inv in A. apply aligned_intro.
  destruct T, U; try discriminate B; tauto.
Qed.

Lemma count_align T f : count T (align T f) = count T f.
Proof. destruct T; reflexivity. Qed.

Lemma align_year_eq T f : y (align T f) = y f.
Proof. destruct T; reflexivity. Qed.

Lemma valid_date_jan1 yr : valid_date yr 1 1.
Proof. split; [lia | cbn; lia]. Qed.

Lemma align_le T f : canonical f -> secs (align T f) <= secs f.
Proof.
  intros C. pose proof (align_canonical T f C) as C'.
  destruct (Z.le_gt_cases (secs (align T f)) (secs f)) as [L | L]; [exact L |].
  pose proof (secs_le_count T _ _ C C' ltac:(lia)) as H1.
  pose proof (secs_le_count T _ _ C' C) as H2.
  rewrite count_align in *.
  destruct C as (V & H & I & S). destruct V as (M & D).
  pose proof (valid_date_jan1 (y f)) as V1.
  pose proof (month_days_bounds (y f) (m f) M) as B.
  assert (V2 : valid_date (y f) (m f) 1) by (split; lia).
  pose proof (day_number_lt _ _ _ _ _ _ (conj M D) V1) as L1.
  pose proof (day_number_lt _ _ _ _ _ _ (conj M D) V2) as L2.
  destruct T; unfold secs, days, clock in *; cbn [align y m d hh mm ss] in *; lia.
Qed.

Lemma convert_aligned {U} (T : tag) (c : civil_time U) :
  is_base_of T U = true -> aligned U (f_ c) -> convert T c = mk_civil_time T (f_ c).
Proof.
  intros B A. unfold convert. rewrite of_fields_aligned; [reflexivity |].
  now apply (aligned_base T U).
Qed.

Lemma count_units T U w f :
  units_per T U = Some w -> aligned T f -> count U f = count T f * w.
Proof.
  intros W A. apply aligned_inv in A.
  destruct T, U; try discriminate W; injection W as <-; unfold count; lia.
Qed.

Lemma units_per_base T U w : units_per T U = Some w -> is_base_of U T = true.
Proof. destruct T, U; try discriminate; reflexivity. Qed.

(** X8: a conversion that the source allows implicitly loses nothing.
    When the target tag [T] is a base of the source tag [U] (the target
    unit is at least as fine), the conversion of a valid [c] has the
    fields of [c], is valid, compares equal to [c], and converting it
    back to [U] gives [c] again. *)
Theorem widening_is_lossless {U} (T : tag) (c : civil_time U) :
  valid c -> preserves_data T U = true ->
  f_ (convert T c) = f_ c /\
  valid (convert T c) /\
  operator_eq (convert T c) c = true /\
  convert U (convert T c) = c.
Proof.
  intros V B. apply valid_inv in V. destruct V as (C & A & I).
  pose proof (aligned_base T U _ B A) as A'.
  assert (E : convert T c = mk_civil_time T (f_ c))
    by (unfold convert; now rewrite of_fields_aligned).
  rewrite E. cbn [f_]. split; [reflexivity | split; [| split]].
  - now apply valid_intro.
  - unfold operator_eq, year, month, day, hour, minute, second. cbn [f_]. lia.
  - unfold convert. cbn [f_]. rewrite (of_fields_aligned _ _ A). apply civil_time_eta.
Qed.

Lemma widening_is_lossless_witness :
  f_ (convert minute_tag (mk_civil_time month_tag (mkfields 2016 2 1 0 0 0)))
    = mkfields 2016 2 1 0 0 0 /\
  convert month_tag
    (convert minute_tag (mk_civil_time month_tag (mkfields 2016 2 1 0 0 0)))
    = mk_civil_time month_tag (mkfields 2016 2 1 0 0 0).
Proof.
  destruct (widening_is_lossless minute_tag
              (mk_civil_time month_tag (mkfields 2016 2 1 0 0 0)))
    as (H1 & _ & _ & H4).
  - reflexivity.
  - reflexivity.
  - split; [exact H1 | exact H4].
Defined.

(** X9: a conversion to any unit [T] rounds down to the unit boundary.
    The conversion of a valid [c] is valid, it is at or before [c], and
    [c] is strictly before the next value of unit [T]. *)
Theorem narrowing_rounds_down {U} (T : tag) (c : civil_time U) :
  valid c ->
  valid (convert T c) /\
  operator_le (convert T c) c = true /\
  (forall e, operator_plus (convert T c) 1 = Ok e -> operator_lt c e = true).
Proof.
  intros V. apply valid_inv in V. destruct V as (C & A & I).
  assert (V' : valid (convert T c)).
  { unfold convert, of_fields. apply valid_intro.
    - now apply align_canonical.
    - apply align_aligned.
    - now rewrite align_year_eq. }
  split; [exact V' | split].
  - unfold operator_le. destruct (operator_lt c (convert T c)) eqn:E; [|reflexivity].
    apply operator_lt_secs in E; [| exact C | now apply align_canonical].
    pose proof (align_le T _ C). cbn [convert of_fields f_] in E. lia.
  - intros e E.
    destruct (operator_plus_spec _ 1 V' ltac:(range)) as (f' & C' & A' & N & P).
    rewrite E in P. destruct (fits64 (y f')); [|discriminate]. injection P as ->.
    cbn [convert of_fields f_] in N. rewrite count_align in N.
    apply operator_lt_secs; [exact C | exact C' |].
    apply (count_lt_secs T); [exact C | exact C' | cbn [f_]; lia].
Qed.

Lemma narrowing_rounds_down_witness :
  operator_le
    (convert month_tag (mk_civil_time second_tag (mkfields 2016 2 29 23 59 59)))
    (mk_civil_time second_tag (mkfields 2016 2 29 23 59 59)) = true /\
  operator_lt (mk_civil_time second_tag (mkfields 2016 2 29 23 59 59))
    (mk_civil_time month_tag (mkfields 2016 3 1 0 0 0)) = true.
Proof.
  destruct (narrowing_rounds_down month_tag
              (mk_civil_time second_tag (mkfields 2016 2 29 23 59 59)))
    as (_ & H2 & H3).
  - reflexivity.
  - split; [exact H2 |].
    apply (H3 (mk_civil_time month_tag (mkfields 2016 3 1 0 0 0))).
    vm_compute. reflexivity.
Defined.

(** X10: stepping commutes with conversion to a finer unit.  When one
    unit of [T] is [w] units of [U] (60 seconds in a minute, 3600 in an
    hour, 24 hours in a day, 12 months in a year, ...), a valid [c] of
    unit [T] stepped by [n] and then converted to [U] is [c] converted
    to [U] and stepped by [n * w]. *)
Theorem plus_commutes_with_widening {T} (U : tag) (c e : civil_time T) (n w : Z) :
  valid c -> units_per T U = Some w -> in64 n -> in64 (n * w) ->
  operator_plus c n = Ok e ->
  operator_plus (convert U c) (n * w) = Ok (convert U e).
Proof.
  intros V W In Inw E. pose proof (units_per_base _ _ _ W) as B.
  pose proof V as V0. apply valid_inv in V0. destruct V0 as (C & A & I).
  destruct (operator_plus_spec c n V In) as (f1 & C1 & A1 & N1 & P1).
  rewrite E in P1. destruct (fits64 (y f1)) eqn:F1; [|discriminate]. injection P1 as ->.
  rewrite !(convert_aligned U) by assumption. cbn [f_].
  assert (V' : valid (mk_civil_time U (f_ c)))
    by (apply valid_intro; [exact C | now apply (aligned_base U T) | exact I]).
  destruct (operator_plus_spec _ (n * w) V' Inw) as (f2 & C2 & A2 & N2 & P2).
  cbn [f_] in N2. rewrite (count_units T U w _ W A) in N2.
  assert (f2 = f1).
  { apply (count_inj U); [exact C2 | exact C1 | exact A2 | now apply (aligned_base U T) |].
    rewrite (count_units T U w _ W A1). lia. }
  subst f2. rewrite P2, F1. reflexivity.
Qed.

Lemma plus_commutes_with_widening_witness :
  operator_plus (convert month_tag (default year_tag)) (-3 * 12) =
  Ok (convert month_tag (mk_civil_time year_tag (mkfields 1967 1 1 0 0 0))).
Proof.
  apply (plus_commutes_with_widening month_tag (default year_tag)
           (mk_civil_time year_tag (mkfields 1967 1 1 0 0 0)) (-3) 12).
  - reflexivity.
  - reflexivity.
  - unfold in64, int64_min, int64_max. lia.
  - unfold in64, int64_min, int64_max. lia.
  - vm_compute. reflexivity.
Defined.

(** X11: differences scale with conversion to a finer unit.  When one
    unit of [T] is [w] units of [U], and valid [a], [b] of unit [T]
    differ by [n], their conversions to [U] differ by [n * w], failing
    only when [n * w] is not a 64-bit value. *)
Theorem diff_scales_with_widening {T} (U : tag) (a b : civil_time T) (n w : Z) :
  valid a -> valid b -> units_per T U = Some w ->
  operator_diff a b = Ok n ->
  operator_diff (convert U a) (convert U b) = chk64 (n * w).
Proof.
  intros Va Vb W E. pose proof (units_per_base _ _ _ W) as B.
  apply valid_inv in Va, Vb. destruct Va as (Ca & Aa & Ia), Vb as (Cb & Ab & Ib).
  apply difference_inv in E. destruct E as [-> _].
  rewrite !(convert_aligned U) by assumption.
  unfold operator_diff. cbn [f_]. rewrite difference_chk by assumption.
  rewrite !(count_units T U w) by assumption. f_equal. lia.
Qed.

Lemma diff_scales_with_widening_witness :
  operator_diff
    (convert second_tag (mk_civil_time day_tag (mkfields 2000 3 1 0 0 0)))
    (convert second_tag (mk_civil_time day_tag (mkfields 2000 2 1 0 0 0)))
  = chk64 (29 * 86400).
Proof.
  apply (diff_scales_with_widening second_tag
           (mk_civil_time day_tag (mkfields 2000 3 1 0 0 0))
           (mk_civil_time day_tag (mkfields 2000 2 1 0 0 0)) 29 86400).
  - reflexivity.
  - reflexivity.
  - reflexivity.
  - vm_compute. reflexivity.
Defined.

(** X12: conversions compose.  Any two tags are related by
    [is_base_of] one way or the other.  Converting to [T] through a unit
    [U] that is at least as fine as [T] is converting to [T] directly;
    converting to [T] a value that was first converted to a coarser or
    equal unit [U] keeps the fields of that first conversion. *)
Theorem convert_composes {S} (T U : tag) (c : civil_time S) :
  (is_base_of U T = true -> convert T (convert U c) = convert T c) /\
  (is_base_of T U = true -> f_ (convert T (convert U c)) = f_ (convert U c)) /\
  (is_base_of T U = true \/ is_base_of U T = true).
Proof.
  destruct c as [[y0 m0 d0 h0 i0 s0]].
  destruct T, U; cbn; repeat split; try discriminate; try reflexivity; auto.
Qed.

(** ** Weekdays *)

Lemma weekday_index_range w : 0 <= weekday_index w <= 6.
Proof. destruct w; cbn; lia. Qed.

Lemma weekday_of_index_index w : weekday_of_index (weekday_index w) = w.
Proof. now destruct w. Qed.

Lemma weekday_index_of_index i : 0 <= i <= 6 -> weekday_index (weekday_of_index i) = i.
Proof.
  intros H. assert (C : i = 0 \/ i = 1 \/ i = 2 \/ i = 3 \/ i = 4 \/ i = 5 \/ i = 6) by lia.
  repeat (destruct C as [C | C]); subst i; reflexivity.
Qed.

Lemma index_weekday_by_mon_off r :
  0 <= r <= 6 ->
  index k_weekday_by_mon_off (r + 6) = Ok (weekday_of_index ((r + 6) mod 7)).
Proof.
  intros H. assert (C : r = 0 \/ r = 1 \/ r = 2 \/ r = 3 \/ r = 4 \/ r = 5 \/ r = 6) by lia.
  repeat (destruct C as [C | C]); subst r; reflexivity.
Qed.

(** [get_weekday] is the weekday of the day number. *)
Lemma get_weekday_spec (cs : civil_time second_tag) :
  canonical (f_ cs) -> get_weekday cs = Ok (day_weekday (days (f_ cs))).
Proof.
  intros C. destruct (canonical_d _ C) as (Hm & Hd).
  unfold get_weekday, year, month, day, days, day_weekday.
  destruct cs as [[yr mo dy h i s]]. cbn [f_ y m d] in *.
  rewrite add64_ok by range; cbn [bind].
  rewrite sub64_ok by (destruct (_ <? 3); cbn [Z.b2z]; range); cbn [bind].
  set (e := eyear_of yr mo).
  set (k := 6 - yr ÷ 400).
  assert (Hwd : 2400 + Z.rem yr 400 - Z.b2z (mo <? 3) = e + 400 * k)
    by (unfold e, k, eyear_of; destruct (Z.leb_spec mo 2), (Z.ltb_spec mo 3);
        cbn [Z.b2z]; lia).
  assert (Hpos : 1999 < e + 400 * k < 2800)
    by (rewrite <- Hwd; destruct (mo <? 3); cbn [Z.b2z]; lia).
  rewrite Hwd.
  set (wd := e + 400 * k) in *.
  rewrite sub64_ok by range; cbn [bind]. rewrite add64_ok by range; cbn [bind].
  rewrite add64_ok by range; cbn [bind].
  assert (HL : wd ÷ 4 - wd ÷ 100 + wd ÷ 400 = leaps e + 97 * k).
  { rewrite <- leaps_400. fold wd. unfold leaps.
    rewrite !Z.quot_div_nonneg by lia. reflexivity. }
  rewrite HL.
  assert (HLb : 0 <= leaps e + 97 * k <= 1000).
  { rewrite <- HL. lia. }
  set (L := leaps e) in *.
  destruct (index_offsets_ok _ Hm) as (o & Ho & Hob). rewrite Ho; cbn [bind].
  rewrite add64_ok by range; cbn [bind]. rewrite add64_ok by range; cbn [bind].
  set (w2 := wd + (L + 97 * k) + (o + dy)).
  assert (Hr : 0 <= Z.rem w2 7 <= 6) by (unfold w2; lia).
  rewrite (index_weekday_by_mon_off _ Hr). do 2 f_equal.
  unfold day_number. fold e. fold L. unfold w2, wd.
  clearbody L e k. clear Hwd HL.
  month_cases mo; cbv in Ho; injection Ho as <-;
    cbv [doy_off Z.ltb Z.compare Pos.compare Pos.compare_cont];
    cbn -[Z.mul Z.add Z.sub Z.modulo Z.rem]; lia.
Qed.

Lemma scan_forw_dist base wd :
  exists i j,
    scan_weekdays 14 k_weekdays_forw base 0 = Ok i /\
    scan_weekdays 14 k_weekdays_forw wd (i + 1) = Ok j /\
    j - i = (weekday_index wd - weekday_index base - 1) mod 7 + 1.
Proof.
  destruct base, wd; eexists _, _;
  (split; [reflexivity | split; [reflexivity | reflexivity]]).
Qed.

Lemma scan_back_dist base wd :
  exists i j,
    scan_weekdays 14 k_weekdays_back base 0 = Ok i /\
    scan_weekdays 14 k_weekdays_back wd (i + 1) = Ok j /\
    j - i = (weekday_index base - weekday_index wd - 1) mod 7 + 1.
Proof.
  destruct base, wd; eexists _, _;
  (split; [reflexivity | split; [reflexivity | reflexivity]]).
Qed.

Lemma convert_second (cd : civil_time day_tag) : f_ (convert second_tag cd) = f_ cd.
Proof. reflexivity. Qed.

Lemma weekday_index_day n : weekday_index (day_weekday n) = (n + 3) mod 7.
Proof. unfold day_weekday. apply weekday_index_of_index. lia. Qed.

Lemma next_weekday_plus (cd : civil_time day_tag) wd :
  valid cd ->
  next_weekday cd wd =
  operator_plus cd ((weekday_index wd - (days (f_ cd) + 3) - 1) mod 7 + 1).
Proof.
  intros V. apply valid_inv in V. destruct V as (C & A & I).
  unfold next_weekday. rewrite get_weekday_spec by exact C. cbn [bind].
  rewrite convert_second.
  destruct (scan_forw_dist (day_weekday (days (f_ cd))) wd) as (i & j & -> & Hj & E).
  cbn [bind]. rewrite Hj. cbn [bind]. f_equal. rewrite E, weekday_index_day.
  pose proof (weekday_index_range wd). lia.
Qed.

Lemma prev_weekday_plus (cd : civil_time day_tag) wd :
  valid cd ->
  prev_weekday cd wd =
  operator_plus cd (- (((days (f_ cd) + 3) - weekday_index wd - 1) mod 7 + 1)).
Proof.
  intros V. apply valid_inv in V. destruct V as (C & A & I).
  unfold prev_weekday. rewrite get_weekday_spec by exact C. cbn [bind].
  rewrite convert_second.
  destruct (scan_back_dist (day_weekday (days (f_ cd))) wd) as (i & j & -> & Hj & E).
  cbn [bind]. rewrite Hj. cbn [bind].
  rewrite operator_minus_plus by (unfold int64_min; range || lia).
  f_equal. rewrite E, weekday_index_day.
  pose proof (weekday_index_range wd). lia.
Qed.

Lemma plus_days (cd r : civil_time day_tag) n :
  valid cd -> in64 n -> operator_plus cd n = Ok r ->
  valid r /\ days (f_ r) = days (f_ cd) + n.
Proof.
  intros V I E. destruct (operator_plus_spec cd n V I) as (f & C & A & N & P).
  rewrite E in P. destruct (fits64 (y f)) eqn:F; [|discriminate]. injection P as ->.
  split; [apply valid_intro; [assumption .. | now apply fits64_in64] | exact N].
Qed.

Lemma plus_days_back (cd r : civil_time day_tag) n :
  valid cd -> valid r -> in64 n -> days (f_ r) = days (f_ cd) + n ->
  operator_plus cd n = Ok r.
Proof.
  intros V Vr I E. destruct (operator_plus_spec cd n V I) as (f & C & A & N & P).
  apply valid_inv in Vr. destruct Vr as (Cr & Ar & Ir).
  assert (f = f_ r)
    by (apply (count_inj day_tag); [assumption .. | cbn [count]; cbn [count] in N; lia]).
  subst f. rewrite P, (fits64_true _ Ir). now rewrite civil_time_eta.
Qed.

(** X13: the weekday advances with the days.  If the valid day [cd]
    falls on weekday [w] and [cd + n] is representable, then [cd + n]
    falls on the weekday [n] places after [w] in the cycle Monday, ...,
    Sunday (before it, for a negative [n]). *)
Theorem weekday_advances_with_days (cd r : civil_time day_tag) (n : Z) (w : weekday) :
  valid cd -> in64 n -> operator_plus cd n = Ok r ->
  get_weekday (convert second_tag cd) = Ok w ->
  get_weekday (convert second_tag r) = Ok (weekday_shift w n).
Proof.
  intros V I E W. destruct (plus_days cd r n V I E) as (Vr & D).
  apply valid_inv in V, Vr. destruct V as (C & _), Vr as (Cr & _).
  rewrite get_weekday_spec in W |- * by assumption. rewrite convert_second in *.
  injection W as <-. f_equal. unfold weekday_shift. rewrite weekday_index_day, D.
  unfold day_weekday. f_equal. lia.
Qed.

Lemma weekday_advances_with_days_witness :
  get_weekday (convert second_tag (mk_civil_time day_tag (mkfields 2000 1 1 0 0 0)))
  = Ok saturday.
Proof.
  apply (weekday_advances_with_days (default day_tag)
           (mk_civil_time day_tag (mkfields 2000 1 1 0 0 0)) 10957 thursday).
  - reflexivity.
  - unfold in64, int64_min, int64_max. lia.
  - vm_compute. reflexivity.
  - vm_compute. reflexivity.
Defined.

(** X14: the weekday searches find the weekday asked for: the result of
    [next_weekday cd wd], and of [prev_weekday cd wd], for a valid day
    [cd], falls on [wd]. *)
Theorem weekday_search_hits (cd r : civil_time day_tag) (wd : weekday) :
  valid cd ->
  next_weekday cd wd = Ok r \/ prev_weekday cd wd = Ok r ->
  get_weekday (convert second_tag r) = Ok wd.
Proof.
  intros V H. pose proof (weekday_index_range wd) as R.
  rewrite next_weekday_plus, prev_weekday_plus in H by exact V.
  assert (D : valid r /\ (days (f_ r) + 3) mod 7 = weekday_index wd).
  { destruct H as [H | H]; apply plus_days in H; try exact V; try range;
      destruct H as (Vr & D); (split; [exact Vr | lia]). }
  destruct D as (Vr & D). apply valid_inv in Vr. destruct Vr as (Cr & _).
  rewrite get_weekday_spec by exact Cr. rewrite convert_second.
  unfold day_weekday. rewrite D. now rewrite weekday_of_index_index.
Qed.

Lemma weekday_search_hits_witness :
  get_weekday (convert second_tag (mk_civil_time day_tag (mkfields 1969 12 29 0 0 0)))
  = Ok monday.
Proof.
  apply (weekday_search_hits (default day_tag)
           (mk_civil_time day_tag (mkfields 1969 12 29 0 0 0)) monday).
  - reflexivity.
  - right. vm_compute. reflexivity.
Defined.

(** X15: the two weekday searches undo each other.  For a valid day
    [cd] that falls on [w0]: searching back for [w0] from
    [next_weekday cd wd] gives [cd], and searching forward for [w0]
    from [prev_weekday cd wd] gives [cd]. *)
Theorem weekday_search_inverse (cd r : civil_time day_tag) (wd w0 : weekday) :
  valid cd -> get_weekday (convert second_tag cd) = Ok w0 ->
  (next_weekday cd wd = Ok r -> prev_weekday r w0 = Ok cd) /\
  (prev_weekday cd wd = Ok r -> next_weekday r w0 = Ok cd).
Proof.
  intros V W. pose proof (weekday_index_range wd) as R.
  pose proof V as V0. apply valid_inv in V0. destruct V0 as (C & _).
  rewrite get_weekday_spec, convert_second in W by exact C. injection W as <-.
  rewrite (next_weekday_plus cd), (prev_weekday_plus cd) by exact V.
  split; intros H; apply plus_days in H; try exact V; try range; destruct H as (Vr & D).
  - rewrite prev_weekday_plus by exact Vr. rewrite weekday_index_day.
    apply plus_days_back; [exact Vr | exact V | range | lia].
  - rewrite next_weekday_plus by exact Vr. rewrite weekday_index_day.
    apply plus_days_back; [exact Vr | exact V | range | lia].
Qed.

Lemma weekday_search_inverse_witness :
  prev_weekday (mk_civil_time day_tag (mkfields 1970 1 5 0 0 0)) thursday
  = Ok (default day_tag).
Proof.
  destruct (weekday_search_inverse (default day_tag)
              (mk_civil_time day_tag (mkfields 1970 1 5 0 0 0)) monday thursday)
    as (H & _).
  - reflexivity.
  - vm_compute. reflexivity.
  - apply H. vm_compute. reflexivity.
Defined.

(** ** Day of the year *)

Lemma leaps_pred e : leaps e - leaps (e - 1) = Z.b2z (is_leap_year e).
Proof.
  pose proof (leaps_succ (e - 1)) as H. replace (e - 1 + 1) with e in H by lia. lia.
Qed.

Lemma get_yearday_spec (cs : civil_time second_tag) :
  canonical (f_ cs) ->
  get_yearday cs = Ok (days (f_ cs) - day_number (year cs) 1 1 + 1).
Proof.
  intros C. destruct C as ((Hm & Hd) & _).
  unfold get_yearday, year, month, day, days.
  destruct cs as [[yr mo dy h i s]]. cbn [f_ y m d] in *.
  pose proof (leaps_pred yr) as L.
  unfold day_number.
  month_cases mo;
    match goal with
    | |- context [index k_month_offsets ?k] =>
        let v := eval vm_compute in (index k_month_offsets k) in
        change (index k_month_offsets k) with v
    end;
    cbn [Z.ltb Z.compare Pos.compare Pos.compare_cont bind andb];
    cbv [doy_off eyear_of Z.ltb Z.leb Z.compare Pos.compare Pos.compare_cont];
    cbn -[Z.mul Z.add Z.sub leaps is_leap_year Z.b2z]; f_equal;
    destruct (is_leap_year yr); cbn [Z.b2z] in *; lia.
Qed.

Lemma year_length yr :
  day_number (yr + 1) 1 1 - day_number yr 1 1 = if is_leap_year yr then 366 else 365.
Proof.
  rewrite day_number_year. cbn [Z.ltb Z.compare Pos.compare Pos.compare_cont Z.b2z].
  rewrite Z.add_0_r. lia.
Qed.

(** X16: [get_yearday] counts the days from January 1st.  For a valid
    [cs] it returns a number [n] between 1 and the length of the year
    (366 in a leap year, 365 otherwise), and [n - 1] is the difference
    in days between the day of [cs] and January 1st of its year. *)
Theorem get_yearday_counts_from_january_first (cs : civil_time second_tag) :
  valid cs ->
  exists n jan1,
    get_yearday cs = Ok n /\
    1 <= n <= (if is_leap_year (year cs) then 366 else 365) /\
    make day_tag (year cs) 1 1 0 0 0 = Ok jan1 /\
    operator_diff (convert day_tag cs) jan1 = Ok (n - 1).
Proof.
  intros V. apply valid_inv in V. destruct V as (C & A & I).
  set (j := mkfields (year cs) 1 1 0 0 0).
  assert (Cj : canonical j) by (repeat split; cbn; lia).
  exists (days (f_ cs) - day_number (year cs) 1 1 + 1), (mk_civil_time day_tag j).
  pose proof C as ((Hm & Hd) & _).
  pose proof (day_number_lt _ _ _ _ _ _ (conj Hm Hd) (valid_date_jan1 (year cs))) as L1.
  pose proof (day_number_lt _ _ _ _ _ _ (conj Hm Hd) (valid_date_jan1 (year cs + 1))) as L2.
  pose proof (year_length (year cs)) as YL.
  unfold year in *. unfold days.
  split; [now apply get_yearday_spec | split; [| split]].
  - destruct (is_leap_year (y (f_ cs))); lia.
  - apply (make_canonical day_tag j Cj I).
  - unfold operator_diff. cbn [difference convert of_fields f_].
    rewrite difference_day_ok.
    + f_equal. unfold days, j. cbn [align y m d]. lia.
    + now apply align_canonical.
    + exact Cj.
    + now rewrite align_year_eq.
    + exact I.
    + unfold days, j. cbn [align y m d]. destruct (is_leap_year (y (f_ cs))); range.
Qed.

Lemma get_yearday_counts_from_january_first_witness :
  exists n jan1,
    get_yearday (mk_civil_time second_tag (mkfields 2016 12 31 23 59 59)) = Ok n /\
    1 <= n <= 366 /\
    make day_tag 2016 1 1 0 0 0 = Ok jan1 /\
    operator_diff
      (convert day_tag (mk_civil_time second_tag (mkfields 2016 12 31 23 59 59)))
      jan1 = Ok (n - 1).
Proof.
  exact (get_yearday_counts_from_january_first
           (mk_civil_time second_tag (mkfields 2016 12 31 23 59 59)) eq_refl).
Defined.

(** ** The extreme values *)

Lemma top_canonical : canonical top_fields.
Proof. repeat split; cbn; lia. Qed.

Lemma bottom_canonical : canonical bottom_fields.
Proof. repeat split; cbn; lia. Qed.

Lemma secs_le_lex f1 f2 :
  canonical f1 -> canonical f2 ->
  (secs f1 <= secs f2 <->
   negb (operator_lt (mk_civil_time second_tag f2) (mk_civil_time second_tag f1)) = true).
Proof.
  intros C1 C2. pose proof (operator_lt_secs (mk_civil_time second_tag f2)
    (mk_civil_time second_tag f1) C2 C1) as H. cbn [f_] in H.
  destruct (operator_lt _ _); cbn [negb].
  - pose proof (proj1 H eq_refl). split; [lia | discriminate].
  - split; [reflexivity | intros _].
    destruct (Z.le_gt_cases (secs f1) (secs f2)) as [L | L]; [exact L |].
    assert (secs f2 < secs f1) as E by lia. apply H in E. discriminate.
Qed.

Lemma top_greatest f : canonical f -> in64 (y f) -> secs f <= secs top_fields.
Proof.
  intros C I. apply (secs_le_lex _ _ C top_canonical).
  pose proof (canonical_d _ C). destruct C as (_ & ? & ? & ?).
  unfold operator_lt, year, month, day, hour, minute, second, top_fields.
  cbn [f_ y m d hh mm ss]. unfold in64 in I. lia.
Qed.

Lemma bottom_least f : canonical f -> in64 (y f) -> secs bottom_fields <= secs f.
Proof.
  intros C I. apply (secs_le_lex _ _ bottom_canonical C).
  pose proof (canonical_d _ C). destruct C as (_ & ? & ? & ?).
  unfold operator_lt, year, month, day, hour, minute, second, bottom_fields.
  cbn [f_ y m d hh mm ss]. unfold in64 in I. lia.
Qed.

Lemma le_of_count {T} (a b : civil_time T) :
  valid a -> valid b -> count T (f_ a) <= count T (f_ b) -> operator_le a b = true.
Proof.
  intros Va Vb L. apply valid_inv in Va, Vb.
  destruct Va as (Ca & Aa & Ia), Vb as (Cb & Ab & Ib).
  unfold operator_le. destruct (operator_lt b a) eqn:E; [|reflexivity].
  apply operator_lt_secs in E; try assumption.
  pose proof (secs_le_count T _ _ Cb Ca ltac:(lia)) as L'.
  assert (f_ a = f_ b) as H by (apply (count_inj T); [assumption .. | lia]).
  rewrite H in E. lia.
Qed.

(** X17: [civil_time::max] and [civil_time::min] are the greatest and
    the least value of their unit.  For every unit both factories
    return a valid value without overflow, every valid value of the
    unit lies between them under [operator<=], and stepping beyond
    them ([max + 1], [min - 1]) is an overflow. *)
Theorem max_min_are_extremes (T : tag) :
  exists mx mn,
    civil_time_max T = Ok mx /\ civil_time_min T = Ok mn /\
    valid mx /\ valid mn /\
    (forall c : civil_time T,
        valid c -> operator_le mn c = true /\ operator_le c mx = true) /\
    operator_plus mx 1 = Fail Overflow /\
    operator_minus mn 1 = Fail Overflow.
Proof.
  exists (of_fields T top_fields), (of_fields T bottom_fields).
  assert (Vx : valid (of_fields T top_fields)).
  { apply valid_intro; [apply align_canonical, top_canonical | apply align_aligned |].
    rewrite align_year_eq. cbn. range. }
  assert (Vn : valid (of_fields T bottom_fields)).
  { apply valid_intro; [apply align_canonical, bottom_canonical | apply align_aligned |].
    rewrite align_year_eq. cbn. range. }
  assert (Bx : forall f, canonical f -> in64 (y f) ->
            count T f <= count T (f_ (of_fields T top_fields))).
  { intros f C I. cbn [of_fields f_]. rewrite count_align.
    apply secs_le_count; [exact C | apply top_canonical | now apply top_greatest]. }
  assert (Bn : forall f, canonical f -> in64 (y f) ->
            count T (f_ (of_fields T bottom_fields)) <= count T f).
  { intros f C I. cbn [of_fields f_]. rewrite count_align.
    apply secs_le_count; [apply bottom_canonical | exact C | now apply bottom_least]. }
  split; [apply (make_canonical T top_fields top_canonical); cbn; range |].
  split; [apply (make_canonical T bottom_fields bottom_canonical); cbn; range |].
  split; [exact Vx | split; [exact Vn | split; [| split]]].
  - intros c V. pose proof V as V0. apply valid_inv in V0. destruct V0 as (C & A & I).
    split; apply le_of_count; auto.
  - destruct (operator_plus_spec _ 1 Vx ltac:(range)) as (f & C & A & N & P).
    rewrite P. destruct (fits64 (y f)) eqn:F; [|reflexivity].
    apply fits64_in64 in F. pose proof (Bx f C F). lia.
  - rewrite operator_minus_plus by (unfold int64_min; range || lia).
    cbn [Z.opp].
    destruct (operator_plus_spec _ (-1) Vn ltac:(range)) as (f & C & A & N & P).
    rewrite P. destruct (fits64 (y f)) eqn:F; [|reflexivity].
    apply fits64_in64 in F. pose proof (Bn f C F). lia.
Qed.

(** ** Day numbers and day differences *)

(** X18: [ymd_ord] numbers the days in calendar order.  For valid days
    [a] and [b] with years in the range the source documents for
    [ymd_ord], it returns without overflow for both; its values are
    ordered as [a] and [b] are under [operator<], they are equal only
    for [a = b], and their difference is [a - b]. *)
Theorem ymd_ord_orders_days (a b : civil_time day_tag) :
  valid a -> valid b ->
  -292277022656 <= year a <= 292277026595 ->
  -292277022656 <= year b <= 292277026595 ->
  exists oa ob,
    ymd_ord (year a) (month a) (day a) = Ok oa /\
    ymd_ord (year b) (month b) (day b) = Ok ob /\
    (oa < ob <-> operator_lt a b = true) /\
    (oa = ob <-> a = b) /\
    operator_diff a b = Ok (oa - ob).
Proof.
  intros Va Vb Ra Rb. pose proof Va as Va0. pose proof Vb as Vb0.
  apply valid_inv in Va0, Vb0.
  destruct Va0 as (Ca & Aa & Ia), Vb0 as (Cb & Ab & Ib).
  pose proof (canonical_d _ Ca) as (Ma & Da). pose proof (canonical_d _ Cb) as (Mb & Db).
  unfold year, month, day in *.
  exists (days (f_ a)), (days (f_ b)).
  assert (Ea : ymd_ord (y (f_ a)) (m (f_ a)) (d (f_ a)) = Ok (days (f_ a))).
  { rewrite ymd_ord_ok by lia. now rewrite ord_floor. }
  assert (Eb : ymd_ord (y (f_ b)) (m (f_ b)) (d (f_ b)) = Ok (days (f_ b))).
  { rewrite ymd_ord_ok by lia. now rewrite ord_floor. }
  assert (Ba : - 2 ^ 50 <= days (f_ a) <= 2 ^ 50).
  { unfold days, day_number, leaps, eyear_of. pose proof (doy_off_bounds _ Ma).
    destruct (m (f_ a) <=? 2); lia. }
  assert (Bb : - 2 ^ 50 <= days (f_ b) <= 2 ^ 50).
  { unfold days, day_number, leaps, eyear_of. pose proof (doy_off_bounds _ Mb).
    destruct (m (f_ b) <=? 2); lia. }
  split; [exact Ea | split; [exact Eb | split; [| split]]].
  - symmetry. now apply day_order.
  - split.
    + intros E. rewrite <- (civil_time_eta _ a), <- (civil_time_eta _ b). f_equal.
      apply (count_inj day_tag); assumption.
    + now intros ->.
  - unfold operator_diff. cbn [difference]. apply difference_day_ok; try assumption. range.
Qed.

Lemma ymd_ord_orders_days_witness :
  exists oa ob,
    ymd_ord 1970 1 1 = Ok oa /\ ymd_ord 2000 1 1 = Ok ob /\
    (oa < ob <->
     operator_lt (default day_tag)
       (mk_civil_time day_tag (mkfields 2000 1 1 0 0 0)) = true) /\
    (oa = ob <-> default day_tag = mk_civil_time day_tag (mkfields 2000 1 1 0 0 0)) /\
    operator_diff (default day_tag)
      (mk_civil_time day_tag (mkfields 2000 1 1 0 0 0)) = Ok (oa - ob).
Proof.
  apply (ymd_ord_orders_days (default day_tag)
           (mk_civil_time day_tag (mkfields 2000 1 1 0 0 0))).
  - reflexivity.
  - reflexivity.
  - cbn. lia.
  - cbn. lia.
Defined.

(** X19: [day_difference] overflows only if its result does.  For
    64-bit years, months in 1..12 and days in 1..31 it returns the
    exact difference of the two day numbers whenever that difference is
    a 64-bit value, also for years where [ymd_ord] itself overflows,
    and fails with an overflow otherwise. *)
Theorem day_difference_overflows_only_if_result_does (y1 m1 d1 y2 m2 d2 : Z) :
  in64 y1 -> in64 y2 -> 1 <= m1 <= 12 -> 1 <= m2 <= 12 ->
  1 <= d1 <= 31 -> 1 <= d2 <= 31 ->
  day_difference y1 m1 d1 y2 m2 d2 =
  chk64 (ymd_ord_exact y1 m1 d1 - ymd_ord_exact y2 m2 d2).
Proof.
  intros. apply chk64_char.
  - apply only_overflow_day_difference.
  - intros r E. apply day_difference_inv in E. now rewrite day_difference_exact_eq in E.
  - rewrite !ord_floor. now apply day_difference_ok.
Qed.

Lemma day_difference_overflows_only_if_result_does_witness :
  ymd_ord int64_max 3 1 = Fail Overflow /\
  day_difference int64_max 3 1 (int64_max - 1) 3 1 = Ok 365.
Proof.
  split; [vm_compute; reflexivity |].
  rewrite (day_difference_overflows_only_if_result_does
             int64_max 3 1 (int64_max - 1) 3 1).
  - vm_compute. reflexivity.
  - unfold in64, int64_min, int64_max. lia.
  - unfold in64, int64_min, int64_max. lia.
  - lia.
  - lia.
  - lia.
  - lia.
Defined.

(** X20: [scale_add v f a] is [v * f + a] whenever that is a 64-bit
    value, and an overflow otherwise, for a positive factor [f] up to
    [2^62] and [a] strictly between [- f] and [f]: the product [v * f]
    is never formed, so it cannot overflow on its own. *)
Theorem scale_add_exact (v f a : Z) :
  in64 v -> 0 < f <= 2 ^ 62 -> - f < a < f ->
  scale_add v f a = chk64 (v * f + a).
Proof.
  intros Hv Hf Ha. apply chk64_char.
  - apply only_overflow_scale_add.
  - apply scale_add_inv.
  - intros Hr. unfold scale_add.
    destruct (Z.ltb_spec v 0).
    + rewrite add64_ok by range; cbn [bind].
      rewrite mul64_ok by (unfold in64, int64_min, int64_max in *; nia); cbn [bind].
      rewrite add64_ok by (unfold in64, int64_min, int64_max in *; nia); cbn [bind].
      rewrite sub64_ok by (unfold in64, int64_min, int64_max in *; nia). f_equal. lia.
    + rewrite sub64_ok by range; cbn [bind].
      rewrite mul64_ok by (unfold in64, int64_min, int64_max in *; nia); cbn [bind].
      rewrite add64_ok by (unfold in64, int64_min, int64_max in *; nia); cbn [bind].
      rewrite add64_ok by (unfold in64, int64_min, int64_max in *; nia). f_equal. lia.
Qed.

Lemma scale_add_exact_witness :
  mul64 153722867280912931 60 = Fail Overflow /\
  scale_add 153722867280912931 60 (-59) = Ok 9223372036854775801.
Proof.
  split; [vm_compute; reflexivity |].
  rewrite (scale_add_exact 153722867280912931 60 (-59)).
  - vm_compute. reflexivity.
  - unfold in64, int64_min, int64_max. lia.
  - lia.
  - lia.
Defined.

(** ** Carries between the fields *)

Lemma n_day_ext y1 m1 d1 cd1 y2 m2 d2 cd2 h i s :
  in64 y1 -> in64 d1 -> in64 cd1 -> 1 <= m1 <= 12 ->
  in64 y2 -> in64 d2 -> in64 cd2 -> 1 <= m2 <= 12 ->
  day_number y1 m1 d1 + cd1 = day_number y2 m2 d2 + cd2 ->
  n_day y1 m1 d1 cd1 h i s = n_day y2 m2 d2 cd2 h i s.
Proof.
  intros Iy1 Id1 Ic1 Hm1 Iy2 Id2 Ic2 Hm2 E.
  destruct (n_day_spec y1 m1 d1 cd1 h i s Iy1 Id1 Ic1 Hm1) as (Y1 & M1 & D1 & V1 & N1 & ->).
  destruct (n_day_spec y2 m2 d2 cd2 h i s Iy2 Id2 Ic2 Hm2) as (Y2 & M2 & D2 & V2 & N2 & ->).
  destruct (valid_date_unique _ _ _ _ _ _ V1 V2 ltac:(lia)) as (-> & -> & ->).
  reflexivity.
Qed.

Lemma n_mon_small y0 m0 d0 cd h i s :
  - 2 ^ 62 - 12 <= y0 <= 2 ^ 62 + 12 -> - 2 ^ 62 - 12 <= m0 <= 2 ^ 62 + 12 ->
  n_mon y0 m0 d0 cd h i s =
  n_day (y0 + (m0 - 1) / 12) ((m0 - 1) mod 12 + 1) d0 cd h i s.
Proof.
  intros Sy Sm. rewrite n_mon_spec by small.
  rewrite (fits64_true (y0 + m0 ÷ 12)) by small.
  rewrite (fits64_true (y0 + (m0 - 1) / 12)) by small.
  now rewrite orb_true_r.
Qed.

Lemma n_sec_small y0 m0 d0 h0 i0 s0 :
  - 2 ^ 62 - 12 <= y0 <= 2 ^ 62 + 12 -> - 2 ^ 62 - 12 <= m0 <= 2 ^ 62 + 12 ->
  in64 h0 -> in64 i0 -> in64 s0 ->
  let t := clock h0 i0 s0 in
  n_sec y0 m0 d0 h0 i0 s0 =
  n_day (y0 + (m0 - 1) / 12) ((m0 - 1) mod 12 + 1) d0 (t / 86400)
    ((t / 3600) mod 24) ((t / 60) mod 60) (t mod 60).
Proof.
  intros Sy Sm Ih Ii Is t. unfold t. rewrite n_sec_spec by small.
  now apply n_mon_small.
Qed.

(** X21: the constructor carries between adjacent fields.  For raw
    fields within [2^62] in absolute value, 60 seconds are one minute,
    60 minutes one hour, 24 hours one day and 12 months one year: moving
    such a carry from a field to the next coarser one does not change
    the value constructed (or the overflow). *)
Theorem make_carries (T : tag) (y0 m0 d0 h0 i0 s0 : Z) :
  small y0 -> small m0 -> small d0 -> small h0 -> small i0 -> small s0 ->
  make T y0 m0 d0 h0 i0 (s0 + 60) = make T y0 m0 d0 h0 (i0 + 1) s0 /\
  make T y0 m0 d0 h0 (i0 + 60) s0 = make T y0 m0 d0 (h0 + 1) i0 s0 /\
  make T y0 m0 d0 (h0 + 24) i0 s0 = make T y0 m0 (d0 + 1) h0 i0 s0 /\
  make T y0 (m0 + 12) d0 h0 i0 s0 = make T (y0 + 1) m0 d0 h0 i0 s0.
Proof.
  intros Sy Sm Sd Sh Si Ss. unfold make.
  split; [| split; [| split]]; f_equal.
  - rewrite !n_sec_small by small.
    replace (clock h0 i0 (s0 + 60)) with (clock h0 (i0 + 1) s0) by (unfold clock; lia).
    reflexivity.
  - rewrite !n_sec_small by small.
    replace (clock h0 (i0 + 60) s0) with (clock (h0 + 1) i0 s0) by (unfold clock; lia).
    reflexivity.
  - rewrite !n_sec_small by small.
    replace (clock (h0 + 24) i0 s0) with (clock h0 i0 s0 + 86400) by (unfold clock; lia).
    set (t := clock h0 i0 s0).
    assert (Ht : - 2 ^ 63 < t / 86400 < 2 ^ 62).
    { unfold t, clock. unfold small in *. lia. }
    replace (((t + 86400) / 3600) mod 24) with ((t / 3600) mod 24) by lia.
    replace (((t + 86400) / 60) mod 60) with ((t / 60) mod 60) by lia.
    replace ((t + 86400) mod 60) with (t mod 60) by lia.
    apply n_day_ext; try small; try lia.
    rewrite (day_number_d _ _ (d0 + 1)), (day_number_d _ _ d0). lia.
  - rewrite !n_sec_small by small.
    replace (y0 + (m0 + 12 - 1) / 12) with (y0 + 1 + (m0 - 1) / 12) by lia.
    replace ((m0 + 12 - 1) mod 12) with ((m0 - 1) mod 12) by lia.
    reflexivity.
Qed.

Lemma make_carries_witness :
  make second_tag 2015 12 31 23 59 (0 + 60) = make second_tag 2015 12 31 23 (59 + 1) 0 /\
  make second_tag 2015 12 31 23 (59 + 60) 0 = make second_tag 2015 12 31 (23 + 1) 59 0 /\
  make second_tag 2015 12 31 (23 + 24) 59 0 = make second_tag 2015 12 (31 + 1) 23 59 0 /\
  make second_tag 2015 (12 + 12) 31 23 59 0 = make second_tag (2015 + 1) 12 31 23 59 0.
Proof.
  apply (make_carries second_tag 2015 12 31 23 59 0);
    unfold small; lia.
Defined.

(** X22: a day field outside the month is a step from the first of the
    month.  Constructing the day [(y, m, d)] for any 64-bit [d] is the
    same computation as constructing [(y, m, 1)] and adding [d - 1]
    days. *)
Theorem make_day_overflow_is_stepping (y0 m0 d0 : Z) :
  in64 y0 -> 1 <= m0 <= 12 -> in64 d0 -> in64 (d0 - 1) ->
  make day_tag y0 m0 d0 0 0 0 =
  (c <- make day_tag y0 m0 1 0 0 0 ;; operator_plus c (d0 - 1)).
Proof.
  intros Iy Hm Id Id'.
  set (f := mkfields y0 m0 1 0 0 0).
  assert (C : canonical f).
  { unfold f. pose proof (month_days_bounds y0 m0 Hm).
    repeat split; cbn [y m d hh mm ss]; lia. }
  pose proof (make_canonical day_tag f C Iy) as E. cbn [f y m d hh mm ss] in E.
  rewrite E. cbn [bind].
  unfold make, operator_plus. cbn [of_fields f_ align step y m d hh mm ss f].
  f_equal. rewrite n_sec_spec by range. cbn -[n_mon n_day].
  rewrite n_mon_canonical by assumption.
  apply n_day_ext; try assumption; try range.
  rewrite (day_number_d _ _ d0), (day_number_d _ _ 1). lia.
Qed.

Lemma make_day_overflow_is_stepping_witness :
  make day_tag 2016 2 (-400) 0 0 0 =
  (c <- make day_tag 2016 2 1 0 0 0 ;; operator_plus c (-400 - 1)).
Proof.
  apply (make_day_overflow_is_stepping 2016 2 (-400)).
  - unfold in64, int64_min, int64_max. lia.
  - lia.
  - unfold in64, int64_min, int64_max. lia.
  - unfold in64, int64_min, int64_max. lia.
Defined.

(** X23: day 0 of the next month is the last day of the month.  For a
    year within [2^62] in absolute value and a month [m] in 1..12,
    constructing the day [(y, m + 1, 0)] gives day
    [days_per_month y m] of month [m] of year [y], also for December. *)
Theorem last_day_of_month (y0 m0 : Z) :
  small y0 -> 1 <= m0 <= 12 ->
  exists n,
    days_per_month y0 m0 = Ok n /\
    make day_tag y0 (m0 + 1) 0 0 0 0 =
    Ok (mk_civil_time day_tag (mkfields y0 m0 n 0 0 0)).
Proof.
  intros Sy Hm. exists (month_days y0 m0). split; [now apply month_days_ok |].
  unfold make. rewrite n_sec_small by small.
  change (clock 0 0 0) with 0. change (0 / 86400) with 0.
  change ((0 / 3600) mod 24) with 0. change ((0 / 60) mod 60) with 0.
  change (0 mod 60) with 0.
  pose proof (month_days_bounds y0 m0 Hm) as B.
  assert (V : valid_date y0 m0 (month_days y0 m0)) by (split; lia).
  destruct (n_day_spec (y0 + (m0 + 1 - 1) / 12) ((m0 + 1 - 1) mod 12 + 1) 0 0 0 0 0)
    as (Y & M & D & V' & N & ->); try small; try lia.
  assert (E : day_number Y M D = day_number y0 m0 (month_days y0 m0)).
  { rewrite N, Z.add_0_r. rewrite (day_number_d y0 m0 (month_days y0 m0)).
    destruct (Z.eq_dec m0 12) as [-> | Hne].
    - change ((12 + 1 - 1) / 12) with 1. change ((12 + 1 - 1) mod 12 + 1) with 1.
      rewrite day_number_december. lia.
    - replace ((m0 + 1 - 1) / 12) with 0 by lia.
      replace ((m0 + 1 - 1) mod 12 + 1) with (m0 + 1) by lia.
      rewrite Z.add_0_r, day_number_month by lia. lia. }
  destruct (valid_date_unique _ _ _ _ _ _ V' V E) as (-> & -> & ->).
  rewrite chk64_ok by small. reflexivity.
Qed.

Lemma last_day_of_month_witness :
  exists n,
    days_per_month 2016 2 = Ok n /\
    make day_tag 2016 (2 + 1) 0 0 0 0 =
    Ok (mk_civil_time day_tag (mkfields 2016 2 n 0 0 0)).
Proof.
  apply (last_day_of_month 2016 2).
  - unfold small. lia.
  - lia.
Defined.

(** ** Single steps *)

Lemma next_day_fields_spec f :
  canonical f ->
  let g := next_day_fields f (month_days (y f) (m f)) in
  canonical g /\ aligned day_tag g /\ days g = days f + 1 /\ y f <= y g <= y f + 1.
Proof.
  intros ((Hm & Hd) & _). cbn zeta. unfold next_day_fields, days.
  pose proof (month_days_bounds (y f) (m f) Hm) as B.
  destruct (Z.ltb_spec (d f) (month_days (y f) (m f))); [| destruct (Z.ltb_spec (m f) 12)];
    cbn [y m d hh mm ss].
  - split; [repeat split; cbn [y m d hh mm ss]; lia | split; [reflexivity |]].
    rewrite (day_number_d _ _ (d f + 1)), (day_number_d _ _ (d f)). split; lia.
  - pose proof (month_days_bounds (y f) (m f + 1) ltac:(lia)).
    split; [repeat split; cbn [y m d hh mm ss]; lia | split; [reflexivity |]].
    rewrite (day_number_d _ _ 1), (day_number_d _ _ (d f)), day_number_month by lia.
    split; lia.
  - assert (m f = 12) as E by lia.
    split; [repeat split; cbn [y m d hh mm ss]; cbn; lia | split; [reflexivity |]].
    rewrite E in *.
    rewrite (day_number_d _ _ 1), (day_number_d _ _ (d f)), day_number_december.
    split; lia.
Qed.

(** X24: [++] on a day follows the calendar.  For a valid day before
    the last year, the next day has the day field incremented while it
    stays within [days_per_month]; otherwise it is the first of the
    next month, and after December the first of January of the next
    year. *)
Theorem next_day_rule (cd : civil_time day_tag) :
  valid cd -> year cd < int64_max ->
  exists n,
    days_per_month (year cd) (month cd) = Ok n /\
    operator_incr cd =
    Ok (mk_civil_time day_tag
          (if day cd <? n then mkfields (year cd) (month cd) (day cd + 1) 0 0 0
           else if month cd <? 12 then mkfields (year cd) (month cd + 1) 1 0 0 0
           else mkfields (year cd + 1) 1 1 0 0 0)).
Proof.
  intros V Y. pose proof V as V0. apply valid_inv in V0. destruct V0 as (C & A & I).
  pose proof (canonical_d _ C) as (Hm & _).
  exists (month_days (year cd) (month cd)). unfold year, month, day in *.
  split; [now apply month_days_ok |].
  destruct (next_day_fields_spec _ C) as (Cg & Ag & Dg & Yg).
  fold (next_day_fields (f_ cd) (month_days (y (f_ cd)) (m (f_ cd)))).
  set (g := next_day_fields (f_ cd) (month_days (y (f_ cd)) (m (f_ cd)))) in *.
  unfold operator_incr.
  destruct (operator_plus_spec cd 1 V ltac:(range)) as (f & Cf & Af & N & P).
  assert (f = g) by (apply (count_inj day_tag); [assumption .. | cbn [count] in *; lia]).
  subst f. rewrite P, fits64_true by range. reflexivity.
Qed.

Lemma next_day_rule_witness :
  exists n,
    days_per_month 2015 2 = Ok n /\
    operator_incr (mk_civil_time day_tag (mkfields 2015 2 28 0 0 0)) =
    Ok (mk_civil_time day_tag
          (if 28 <? n then mkfields 2015 2 (28 + 1) 0 0 0
           else if 2 <? 12 then mkfields 2015 (2 + 1) 1 0 0 0
           else mkfields (2015 + 1) 1 1 0 0 0)).
Proof.
  apply (next_day_rule (mk_civil_time day_tag (mkfields 2015 2 28 0 0 0))).
  - reflexivity.
  - cbn. unfold int64_max. lia.
Defined.

(** X25: steps of years and of months in closed form.  Adding [n] to a
    valid year value adds [n] to the year; adding [n] to a valid month
    value moves the month index [12 * year + (month - 1)] by [n], the
    year being the floor quotient by 12 and the month the remainder
    plus one.  Either fails exactly when the new year is not a 64-bit
    value. *)
Theorem month_and_year_steps (cy : civil_time year_tag) (cm : civil_time month_tag) (n : Z) :
  valid cy -> valid cm -> in64 n ->
  operator_plus cy n =
    (y' <- chk64 (year cy + n) ;; Ok (mk_civil_time year_tag (mkfields y' 1 1 0 0 0))) /\
  let i := 12 * year cm + (month cm - 1) + n in
  operator_plus cm n =
    (y' <- chk64 (i / 12) ;;
     Ok (mk_civil_time month_tag (mkfields y' (i mod 12 + 1) 1 0 0 0))).
Proof.
  intros Vy Vm In. apply valid_inv in Vy, Vm.
  destruct Vy as (Cy & Ay & Iy), Vm as (Cm & Am & Im). split.
  - apply aligned_inv in Ay. destruct cy as [[y0 m0 d0 h0 i0 s0]].
    cbn [f_ y m d hh mm ss] in Ay. destruct Ay as (-> & -> & -> & -> & ->).
    unfold operator_plus, year. cbn [step f_ y m d hh mm ss]. unfold add64, chk64.
    destruct (fits64 _); [| reflexivity]. cbn [bind]. reflexivity.
  - cbn zeta. unfold operator_plus, year, month.
    rewrite step_month_spec by assumption. unfold ret64, chk64. cbn [y].
    destruct (fits64 _); [| reflexivity]. cbn [bind]. reflexivity.
Qed.

Lemma month_and_year_steps_witness :
  operator_plus (default year_tag) int64_max = Fail Overflow /\
  operator_plus (mk_civil_time month_tag (mkfields 1970 3 1 0 0 0)) (-15) =
  Ok (mk_civil_time month_tag (mkfields 1968 12 1 0 0 0)).
Proof.
  destruct (month_and_year_steps (default year_tag) (default month_tag) int64_max)
    as (H1 & _).
  - reflexivity.
  - reflexivity.
  - unfold in64, int64_min, int64_max. lia.
  - destruct (month_and_year_steps (default year_tag)
                (mk_civil_time month_tag (mkfields 1970 3 1 0 0 0)) (-15))
      as (_ & H2).
    + reflexivity.
    + reflexivity.
    + unfold in64, int64_min, int64_max. lia.
    + split; [rewrite H1; vm_compute; reflexivity | rewrite H2; vm_compute; reflexivity].
Defined.

(** X26: zero is neutral: adding or subtracting 0 leaves a valid value
    of any unit unchanged, without overflow. *)
Theorem plus_zero {T} (v : civil_time T) :
  valid v -> operator_plus v 0 = Ok v /\ operator_minus v 0 = Ok v.
Proof.
  intros V. assert (P : operator_plus v 0 = Ok v).
  { destruct (operator_plus_spec v 0 V ltac:(range)) as (f & C & A & N & P).
    apply valid_inv in V. destruct V as (Cv & Av & Iv).
    assert (f = f_ v) by (apply (count_inj T); [assumption .. | lia]).
    subst f. rewrite P, (fits64_true _ Iv). now rewrite civil_time_eta. }
  split; [exact P |].
  rewrite operator_minus_plus by (unfold int64_min; range || lia). exact P.
Qed.

Lemma plus_zero_witness :
  operator_plus (mk_civil_time second_tag (mkfields int64_max 12 31 23 59 59)) 0 =
    Ok (mk_civil_time second_tag (mkfields int64_max 12 31 23 59 59)) /\
  operator_minus (mk_civil_time second_tag (mkfields int64_max 12 31 23 59 59)) 0 =
    Ok (mk_civil_time second_tag (mkfields int64_max 12 31 23 59 59)).
Proof.
  apply (plus_zero (mk_civil_time second_tag (mkfields int64_max 12 31 23 59 59))).
  reflexivity.
Defined.

(** ** The tables of year lengths *)

Lemma sum_days_per_year_spec k y0 m0 :
  - 2 ^ 62 <= y0 -> y0 + Z.of_nat k <= 2 ^ 62 ->
  sum_days_per_year k y0 m0 =
  Ok (day_number (y0 + Z.of_nat k) m0 0 - day_number y0 m0 0).
Proof.
  revert y0. induction k as [| k IH]; intros y0 L U.
  - cbn [sum_days_per_year]. f_equal. rewrite Z.add_0_r. lia.
  - cbn [sum_days_per_year]. rewrite days_per_year_ok by small. cbn [bind].
    rewrite IH by lia. cbn [bind]. f_equal.
    replace (y0 + Z.of_nat (S k)) with (y0 + 1 + Z.of_nat k) by lia.
    rewrite (day_number_year y0). lia.
Qed.

(** X27: the closed forms of the year-length tables agree with the
    year and month lengths.  For a year within [2^62] in absolute value
    (less 100), [days_per_century] at the year's index is the sum of
    [days_per_year] over the 100 years from it, [days_per_4years] the
    sum over 4 years, and [days_per_year] of a year seen from January
    is the sum of [days_per_month] over its twelve months. *)
Theorem year_tables_agree (y0 m0 : Z) :
  - 2 ^ 62 <= y0 <= 2 ^ 62 - 100 ->
  (yi <- year_index y0 m0 ;; Ok (days_per_century yi)) = sum_days_per_year 100 y0 m0 /\
  (yi <- year_index y0 m0 ;; Ok (days_per_4years yi)) = sum_days_per_year 4 y0 m0 /\
  days_per_year y0 1 = sum_days_per_month y0.
Proof.
  intros H. rewrite year_index_ok by small. cbn [bind].
  rewrite !sum_days_per_year_spec by lia.
  split; [| split].
  - f_equal. change (Z.of_nat 100) with 100. rewrite day_number_century. lia.
  - f_equal. change (Z.of_nat 4) with 4. rewrite day_number_4years. lia.
  - rewrite days_per_year_ok by small.
    cbn [Z.ltb Z.compare Pos.compare Pos.compare_cont Z.b2z]. rewrite Z.add_0_r.
    unfold sum_days_per_month. cbn [fold_right].
    rewrite !month_days_ok by lia. cbn [bind month_days].
    destruct (is_leap_year y0); reflexivity.
Qed.

Lemma year_tables_agree_witness :
  sum_days_per_year 100 1901 3 = Ok 36525 /\
  sum_days_per_year 4 1901 3 = Ok 1461 /\
  sum_days_per_month 1901 = Ok 365.
Proof.
  destruct (year_tables_agree 1901 3) as (H1 & H2 & H3).
  - lia.
  - rewrite <- H1, <- H2, <- H3.
    split; [vm_compute; reflexivity | split; [vm_compute; reflexivity | vm_compute; reflexivity]].
Defined.

(** X28: [is_leap_year] is the Gregorian rule for every year, negative
    years included: a year is a leap year exactly when it is divisible
    by 4 and not by 100, or divisible by 400. *)
Theorem is_leap_year_divisibility (y0 : Z) :
  is_leap_year y0 = true <-> (4 | y0) /\ (~ (100 | y0) \/ (400 | y0)).
Proof.
  rewrite leap_mod.
  rewrite <- !Z.mod_divide by lia.
  destruct (Z.eqb_spec (y0 mod 4) 0), (Z.eqb_spec (y0 mod 100) 0),
    (Z.eqb_spec (y0 mod 400) 0); cbn [andb orb negb]; intuition (try congruence; try lia).
Qed.

(** X29: [year_index] returns an index into the 400-year cycle.  For a
    64-bit year it overflows exactly for the last year seen from a
    month after February; otherwise its result lies in 0..399 and is
    congruent modulo 400 to the year (plus one after February), also
    for negative years. *)
Theorem year_index_range (y0 m0 : Z) :
  in64 y0 ->
  (year_index y0 m0 = Fail Overflow <-> y0 = int64_max /\ 2 < m0) /\
  (forall i, year_index y0 m0 = Ok i ->
     0 <= i < 400 /\ (400 | y0 + Z.b2z (2 <? m0) - i)).
Proof.
  intros I. unfold year_index, add64, chk64.
  destruct (fits64 (y0 + Z.b2z (2 <? m0))) eqn:F; cbn [bind].
  - apply fits64_in64 in F. split.
    + split; [discriminate |]. intros [-> L]. apply Z.ltb_lt in L. rewrite L in F.
      cbn [Z.b2z] in F. range.
    + intros i [= <-]. set (t := y0 + Z.b2z (2 <? m0)).
      rewrite <- Z.mod_divide by lia.
      destruct (Z.ltb_spec (Z.rem t 400) 0); lia.
  - apply fits64_false in F. split.
    + split; [intros _ | reflexivity].
      destruct (Z.ltb_spec 2 m0); cbn [Z.b2z] in F;
        [split; [range | lia] | exfalso; apply F; range].
    + discriminate.
Qed.

Lemma year_index_range_witness :
  year_index (-1) 2 = Ok 399 /\
  0 <= 399 < 400 /\ (400 | -1 + Z.b2z (2 <? 2) - 399).
Proof.
  split; [vm_compute; reflexivity |].
  destruct (year_index_range (-1) 2) as (_ & H).
  - unfold in64, int64_min, int64_max. lia.
  - apply (H 399). vm_compute. reflexivity.
Defined.
